(** * labki-ontology: version cascade and reference validation

    A shallow embedding of the version cascade ([version-cascade.js], the
    source file [src/unnamed/part_001]), of the entity index
    ([buildEntityIndex], the first part of
    [src/scripts/lib/entity-index.js]) and of the reference validator
    ([validateReferences] and its helpers, the last part of that file),
    together with the part of the [dependency-graph] package ([DepGraph])
    that the cascade and the validator rely on.

    JavaScript [Map<string, string>] values whose iteration order is never
    observed (bump maps, the reverse module index) are [gmap string string];
    the maps of the entity index, which the code iterates in insertion
    order, are association lists.

    The file has three parts: the model of the code, the vocabulary of the
    statements, and the proofs. *)

From Stdlib Require Import Ascii String DecimalString DecimalNat.
From stdpp Require Import gmap strings list.

(** * Part I: the model *)

(** ** Bump levels *)

(** [const BUMP_PRIORITY = { major: 3, minor: 2, patch: 1 }] *)
Definition BUMP_PRIORITY (bump : string) : option nat :=
  if decide (bump = "major") then Some 3
  else if decide (bump = "minor") then Some 2
  else if decide (bump = "patch") then Some 1
  else None.

(** [BUMP_PRIORITY[bump] || 0].  Keys inherited from [Object.prototype]
    yield values that compare as [NaN], which behaves like [0] in the only
    comparison the code makes ([priority > maxPriority]). *)
Definition priority (bump : string) : nat := default 0 (BUMP_PRIORITY bump).

(** One iteration of the [for (const bump of bumps)] loop; the state is the
    pair [(max, maxPriority)]. *)
Definition max_step (st : string * nat) (bump : string) : string * nat :=
  let p := priority bump in
  if decide (st.2 < p) then (bump, p) else st.

(** [export function maxBumpType(bumps)] *)
Definition maxBumpType (bumps : list string) : string :=
  match bumps with
  | [] => "patch"
  | _ => (foldl max_step ("patch", 1) bumps).1
  end.

Arguments maxBumpType : simpl never.

(** ** Strings *)

(** [s.includes(sub)] *)
Fixpoint includes (s sub : string) : bool :=
  String.prefix sub s ||
  match s with
  | EmptyString => false
  | String _ s' => includes s' sub
  end.

(** [parts.join(sep)] *)
Fixpoint join (sep : string) (parts : list string) : string :=
  match parts with
  | [] => EmptyString
  | [p] => p
  | p :: rest => p +:+ sep +:+ join sep rest
  end.

(** [s.split(sep)] for a one-character separator. *)
Fixpoint split (sep : ascii) (s : string) : list string :=
  match s with
  | EmptyString => [EmptyString]
  | String c s' =>
      if decide (c = sep) then EmptyString :: split sep s'
      else match split sep s' with
           | part :: parts => String c part :: parts
           | [] => [String c EmptyString]
           end
  end.

Fixpoint drop_chars (n : nat) (s : string) : string :=
  match n, s with
  | S n', String _ s' => drop_chars n' s'
  | _, _ => s
  end.

(** [s.replace(pattern, replacement)] with a string pattern: the first
    occurrence only. *)
Fixpoint replace (pattern replacement s : string) : string :=
  if String.prefix pattern s
  then replacement +:+ drop_chars (String.length pattern) s
  else match s with
       | EmptyString => EmptyString
       | String c s' => String c (replace pattern replacement s')
       end.

(** ** Outcomes of calls that may throw *)

(** What a [catch (err)] clause can observe. *)
Inductive error :=
  | DepGraphCycleError (cyclePath : list string)
  | NodeDoesNotExist (node : string)
  | TypeError (what : string).

(** [err.message] *)
Definition message (err : error) : string :=
  match err with
  | DepGraphCycleError cyclePath =>
      "Dependency Cycle Found: " +:+ join " -> " cyclePath
  | NodeDoesNotExist node => "Node does not exist: " +:+ node
  | TypeError what =>
      "Cannot read properties of undefined (reading '" +:+ what +:+ "')"
  end.

(** A call returns, throws, or exhausts the step budget of the model. *)
Inductive outcome (A : Type) :=
  | Done (a : A)
  | Throw (err : error)
  | Diverge.

Arguments Done {A} a.
Arguments Throw {A} err.
Arguments Diverge {A}.

Definition bind {A B} (o : outcome A) (k : A → outcome B) : outcome B :=
  match o with
  | Done a => k a
  | Throw e => Throw e
  | Diverge => Diverge
  end.

Notation "'let*' x ':=' o 'in' k" := (bind o (λ x, k))
  (at level 10, x name, o at level 100, k at level 200, only parsing).

(** [for (const x of xs) body(x)] over a threaded state. *)
Fixpoint for_of {A S} (body : A → S → outcome S) (xs : list A) (s : S)
  : outcome S :=
  match xs with
  | [] => Done s
  | x :: xs' => let* s' := body x s in for_of body xs' s'
  end.

(** ** The [dependency-graph] package *)

Module DepGraph.

(** [this.nodes] (its keys, in [Object.keys] order), [this.outgoingEdges]
    and [this.incomingEdges].  No statement below depends on the order of
    [nodes].  Node names are taken to differ from the property names every
    JavaScript object inherits, which the lookup tables of the package do
    not tell apart from entries. *)
Record t := mk {
  nodes : list string;
  outgoingEdges : gmap string (list string);
  incomingEdges : gmap string (list string)
}.

(** [new DepGraph()] *)
Definition empty : t :=
  {| nodes := []; outgoingEdges := ∅; incomingEdges := ∅ |}.

Definition hasNode (g : t) (node : string) : bool := bool_decide (node ∈ nodes g).

(** [addNode(node)]: a no-op when the node is present. *)
Definition addNode (g : t) (node : string) : t :=
  if hasNode g node then g
  else {| nodes := nodes g ++ [node];
          outgoingEdges := <[node := []]> (outgoingEdges g);
          incomingEdges := <[node := []]> (incomingEdges g) |}.

(** [arr.push(x)] guarded by [arr.indexOf(x) === -1]. *)
Definition push_new (x : string) (arr : list string) : list string :=
  if bool_decide (x ∈ arr) then arr else arr ++ [x].

(** [addDependency(from, to)] *)
Definition addDependency (g : t) (from to : string) : outcome t :=
  if negb (hasNode g from) then Throw (NodeDoesNotExist from)
  else if negb (hasNode g to) then Throw (NodeDoesNotExist to)
  else
    Done {| nodes := nodes g;
            outgoingEdges := alter (push_new to) from (outgoingEdges g);
            incomingEdges := alter (push_new from) to (incomingEdges g) |}.

(** The traversal state shared by the calls of one [createDFS] closure:
    [visited] and [result]. *)
Record dfs_state := mkst {
  visited : gset string;
  result : list string
}.

(** One entry of the [todo] stack of [createDFS]. *)
Record frame := mkFrame {
  frame_node : string;
  processed : bool
}.

(** The variables of one call of the function [createDFS] returns; the
    stack and the path have their most recent element first. *)
Record walk := mkWalk {
  todo : list frame;
  currentPath : list string;
  inCurrentPath : gset string;
  walk_state : dfs_state
}.

(** One iteration of [while (todo.length > 0)] in
    [createDFS(edges, leavesOnly, result, false)]: a pending node is popped
    if already [visited], raises the cycle error if it is on the current
    path, and is otherwise put on the path with its edges pushed on the
    stack; a node whose edges have all been walked is popped, marked
    [visited] and pushed on [result]. *)
Definition walk_step (edges : gmap string (list string)) (leavesOnly : bool)
    (w : walk) : outcome walk :=
  match todo w with
  | [] => Done w
  | {| frame_node := node; processed := false |} :: rest =>
      if bool_decide (node ∈ visited (walk_state w)) then
        Done {| todo := rest; currentPath := currentPath w;
                inCurrentPath := inCurrentPath w;
                walk_state := walk_state w |}
      else if bool_decide (node ∈ inCurrentPath w) then
        Throw (DepGraphCycleError (reverse (node :: currentPath w)))
      else
        match edges !! node with
        | None => Throw (TypeError "length")
        | Some nodeEdges =>
            Done {| todo := ((λ n, mkFrame n false) <$> nodeEdges)
                            ++ mkFrame node true :: rest;
                    currentPath := node :: currentPath w;
                    inCurrentPath := {[node]} ∪ inCurrentPath w;
                    walk_state := walk_state w |}
        end
  | {| frame_node := node; processed := true |} :: rest =>
      let st := walk_state w in
      let unrolled (push : bool) :=
        Done {| todo := rest; currentPath := tail (currentPath w);
                inCurrentPath := inCurrentPath w ∖ {[node]};
                walk_state :=
                  {| visited := {[node]} ∪ visited st;
                     result := if push then result st ++ [node]
                               else result st |} |} in
      if negb leavesOnly then unrolled true
      else match edges !! node with
           | None => Throw (TypeError "length")
           | Some nodeEdges => unrolled (bool_decide (nodeEdges = []))
           end
  end.

(** The [while] loop: it ends when the stack is empty or an iteration
    throws. *)
Inductive walk_loop (edges : gmap string (list string)) (leavesOnly : bool)
  : walk → outcome dfs_state → Prop :=
  | walk_exit w :
      todo w = [] → walk_loop edges leavesOnly w (Done (walk_state w))
  | walk_iterate w w' r :
      todo w ≠ [] → walk_step edges leavesOnly w = Done w' →
      walk_loop edges leavesOnly w' r → walk_loop edges leavesOnly w r
  | walk_throw w err :
      todo w ≠ [] → walk_step edges leavesOnly w = Throw err →
      walk_loop edges leavesOnly w (Throw err).

(** The function [createDFS] returns, applied to [start]: nothing to do if
    [start] is [visited], else the loop from a stack that holds [start]. *)
Definition DFS_loop (edges : gmap string (list string)) (leavesOnly : bool)
    (start : string) (st : dfs_state) (r : outcome dfs_state) : Prop :=
  if bool_decide (start ∈ visited st) then r = Done st
  else walk_loop edges leavesOnly
         {| todo := [mkFrame start false]; currentPath := [];
            inCurrentPath := ∅; walk_state := st |} r.

(** The same walk as a recursion, which is the form the functions below
    run: [visit] handles one pending node and, through [for_of], the edges
    of a node in order.  [path] is [currentPath]; [fuel] bounds the depth of
    the walk.  That the loop ends with the result of [visit] is
    [DFS_loop_visit] below. *)
Fixpoint visit (fuel : nat) (edges : gmap string (list string))
    (leavesOnly : bool) (path : list string) (node : string) (st : dfs_state)
  : outcome dfs_state :=
  match fuel with
  | 0 => Diverge
  | S fuel' =>
      if bool_decide (node ∈ visited st) then Done st
      else if bool_decide (node ∈ path) then
        Throw (DepGraphCycleError (reverse (node :: path)))
      else
        match edges !! node with
        | None => Throw (TypeError "length")
        | Some nodeEdges =>
            let* st' := for_of (visit fuel' edges leavesOnly (node :: path))
                               nodeEdges st in
            Done {| visited := {[node]} ∪ visited st';
                    result :=
                      if negb leavesOnly || bool_decide (nodeEdges = [])
                      then result st' ++ [node] else result st' |}
        end
  end.

(** A budget no walk of [g] can exhaust: the path never repeats a node. *)
Definition budget (g : t) : nat := S (length (nodes g)).

(** The function returned by [createDFS]: a walk from [start] with a fresh
    [currentPath]. *)
Definition DFS (g : t) (leavesOnly : bool) (start : string) (st : dfs_state)
  : outcome dfs_state :=
  visit (budget g) (outgoingEdges g) leavesOnly [] start st.

Definition fresh : dfs_state := {| visited := ∅; result := [] |}.

(** [result.splice(result.indexOf(node), 1)] when the index is found. *)
Fixpoint remove_first (node : string) (l : list string) : list string :=
  match l with
  | [] => []
  | x :: l' => if decide (x = node) then l' else x :: remove_first node l'
  end.

(** [dependenciesOf(node, leavesOnly)]: the transitive dependencies. *)
Definition dependenciesOf (g : t) (node : string) (leavesOnly : bool)
  : outcome (list string) :=
  if hasNode g node then
    let* st := DFS g leavesOnly node fresh in
    Done (remove_first node (result st))
  else Throw (NodeDoesNotExist node).

(** [overallOrder(leavesOnly)]: a first walk from every node looks for
    cycles; the order is then produced by walks from the nodes nothing
    depends on. *)
Definition overallOrder (g : t) (leavesOnly : bool) : outcome (list string) :=
  let keys := nodes g in
  if bool_decide (keys = []) then Done []
  else
    let* _cycles := for_of (DFS g false) keys fresh in
    let* st := for_of (DFS g leavesOnly)
                 (filter (λ node, default [] (incomingEdges g !! node) = []) keys)
                 fresh in
    Done (result st).

End DepGraph.

(** ** Entities and the entity index *)

(** The value of an entity property, as far as the code reads it: absent,
    one id, or a list of ids. *)
Inductive value :=
  | VUndefined
  | VString (s : string)
  | VArray (items : list string).

Record entity := mkEntity {
  props : gmap string value;
  _filePath : string
}.

(** [entity[field]] *)
Definition prop (e : entity) (field : string) : value :=
  default VUndefined (props e !! field).

(** A string is truthy unless it is empty. *)
Definition truthy (s : string) : bool := negb (bool_decide (s = EmptyString)).

(** The sequence a [for ... of] loop walks: the elements of an array, the
    characters of a string. *)
Definition iterate (v : value) : list string :=
  match v with
  | VUndefined => []
  | VString s => (λ c, String c EmptyString) <$> String.list_ascii_of_string s
  | VArray items => items
  end.

(** [value || []], then iterated. *)
Definition or_empty (v : value) : list string :=
  match v with
  | VString s => if truthy s then iterate v else []
  | _ => iterate v
  end.

(** A [Map] iterated in insertion order. *)
Definition has {A} (m : list (string * A)) (k : string) : bool :=
  bool_decide (k ∈ m.*1).

Record EntityIndex := mkIndex {
  categories : list (string * entity);
  properties : list (string * entity);
  subobjects : list (string * entity);
  templates : list (string * entity);
  modules : list (string * entity);
  bundles : list (string * entity)
}.

(** [entityIndex[entityType]] *)
Definition index (idx : EntityIndex) (entityType : string)
  : option (list (string * entity)) :=
  if decide (entityType = "categories") then Some (categories idx)
  else if decide (entityType = "properties") then Some (properties idx)
  else if decide (entityType = "subobjects") then Some (subobjects idx)
  else if decide (entityType = "templates") then Some (templates idx)
  else if decide (entityType = "modules") then Some (modules idx)
  else if decide (entityType = "bundles") then Some (bundles idx)
  else None.

(** The member types of a module: the [ENTITY_TYPES] of the cascade and the
    [entityTypes] / [scopeCheckTypes] of the validator. *)
Definition ENTITY_TYPES : list string :=
  ["categories"; "properties"; "subobjects"; "templates"].

(** [`${entityType}:${entityId}`] *)
Definition key (entityType entityId : string) : string :=
  entityType +:+ ":" +:+ entityId.

(** [buildReverseModuleIndex(entityIndex)]; both copies of the function are
    the same three nested loops. *)
Definition buildReverseModuleIndex (entityIndex : EntityIndex)
  : gmap string string :=
  foldl (λ reverseIndex '(moduleId, moduleEntity),
    foldl (λ reverseIndex entityType,
      foldl (λ reverseIndex entityId,
               <[key entityType entityId := moduleId]> reverseIndex)
            reverseIndex (or_empty (prop moduleEntity entityType)))
      reverseIndex ENTITY_TYPES)
    ∅ (modules entityIndex).

(** The body of the second loop of [buildModuleDependencyGraph]: the edges
    of one module. *)
Definition add_dependency_edges (entityIndex : EntityIndex)
    (moduleId : string) (moduleEntity : entity) (graph : DepGraph.t)
  : outcome DepGraph.t :=
  let deps := or_empty (prop moduleEntity "dependencies") in
  for_of (λ depId graph,
            if has (modules entityIndex) depId
            then DepGraph.addDependency graph moduleId depId
            else Done graph)
         deps graph.

(** [buildModuleDependencyGraph(entityIndex)]; again the same code in both
    files. *)
Definition buildModuleDependencyGraph (entityIndex : EntityIndex)
  : outcome DepGraph.t :=
  let graph :=
    foldl (λ graph '(moduleId, _), DepGraph.addNode graph moduleId)
          DepGraph.empty (modules entityIndex) in
  for_of (λ '(moduleId, moduleEntity),
            add_dependency_edges entityIndex moduleId moduleEntity)
         (modules entityIndex) graph.

(** ** Building the entity index *)

Module Indexer.

(** [const ENTITY_TYPES = new Set([...])] of [entity-index.js]: the six
    directories whose files are indexed. *)
Definition ENTITY_TYPES : list string :=
  ["categories"; "properties"; "subobjects"; "templates"; "modules";
   "bundles"].

(** What [fs.readFileSync] followed by [JSON.parse] gives for one file: a
    throw, or an object with its [id] (absent, or a string, as the schemas
    have it) and its other properties. *)
Inductive parsed :=
  | Unparsable
  | Data (id : option string) (fields : gmap string value).

(** [map.set(k, v)] on a [Map] iterated in insertion order: a new key goes
    last, a key that is present keeps its place and gets the new value. *)
Definition map_set {A} (m : list (string * A)) (k : string) (v : A)
  : list (string * A) :=
  if has m k
  then (λ kv, if decide (kv.1 = k) then (k, v) else kv) <$> m
  else m ++ [(k, v)].

(** [index[entityType].set(id, entity)] for one of the six types. *)
Definition index_set (idx : EntityIndex) (entityType id : string) (e : entity)
  : EntityIndex :=
  if decide (entityType = "categories")
  then mkIndex (map_set (categories idx) id e) (properties idx)
               (subobjects idx) (templates idx) (modules idx) (bundles idx)
  else if decide (entityType = "properties")
  then mkIndex (categories idx) (map_set (properties idx) id e)
               (subobjects idx) (templates idx) (modules idx) (bundles idx)
  else if decide (entityType = "subobjects")
  then mkIndex (categories idx) (properties idx)
               (map_set (subobjects idx) id e) (templates idx) (modules idx)
               (bundles idx)
  else if decide (entityType = "templates")
  then mkIndex (categories idx) (properties idx) (subobjects idx)
               (map_set (templates idx) id e) (modules idx) (bundles idx)
  else if decide (entityType = "modules")
  then mkIndex (categories idx) (properties idx) (subobjects idx)
               (templates idx) (map_set (modules idx) id e) (bundles idx)
  else if decide (entityType = "bundles")
  then mkIndex (categories idx) (properties idx) (subobjects idx)
               (templates idx) (modules idx) (map_set (bundles idx) id e)
  else idx.

(** The six empty [Map]s the index starts from. *)
Definition empty_index : EntityIndex := mkIndex [] [] [] [] [] [].

(** The entity stored for a file: [{ ...data, _filePath: relativePath }]. *)
Definition stored (id : string) (fields : gmap string value)
    (relativePath : string) : entity :=
  {| props := <["id" := VString id]> fields; _filePath := relativePath |}.

(** [relativePath.split('/')[0]] *)
Definition first_segment (relativePath : string) : string :=
  hd EmptyString (split "/" relativePath).

(** The body of [for (const relativePath of files)]; [read] is the content
    of the directory tree under [rootDir]. *)
Definition index_file (read : string → parsed) (index : EntityIndex)
    (relativePath : string) : EntityIndex :=
  let firstSegment := first_segment relativePath in
  if negb (bool_decide (firstSegment ∈ ENTITY_TYPES)) then index
  else
    match read relativePath with
    | Unparsable => index
    | Data None _ => index
    | Data (Some id) fields =>
        if negb (truthy id) then index
        else index_set index firstSegment id (stored id fields relativePath)
    end.

(** [buildEntityIndex(rootDir)], with the list of files that [fast-glob]
    finds and the content of the files taken as arguments. *)
Definition buildEntityIndex (files : list string) (read : string → parsed)
  : EntityIndex :=
  foldl (index_file read) empty_index files.

End Indexer.

(** ** The version cascade *)

Record ChangeRecord := mkChange {
  file : string;
  entityType : string;
  changeType : string
}.

(** The key derived from [change.file], written out identically in
    [calculateModuleBumps] and in the orphan filter of
    [calculateVersionCascade]. *)
Definition change_key (change : ChangeRecord) : string :=
  let parts := split "/" (file change) in
  let entityType := hd EmptyString parts in
  let fileName := List.last parts EmptyString in
  let entityId := replace ".json" EmptyString fileName in
  key entityType entityId.

(** The body of the loop of [calculateModuleBumps]. *)
Definition module_bump_step (reverseIndex : gmap string string)
    (moduleBumps : gmap string string) (change : ChangeRecord)
  : gmap string string :=
  match reverseIndex !! change_key change with
  | None => moduleBumps
  | Some moduleId =>
      if negb (truthy moduleId) then moduleBumps
      else
        match moduleBumps !! moduleId with
        | Some existingBump =>
            if truthy existingBump
            then <[moduleId := maxBumpType [existingBump; changeType change]]>
                   moduleBumps
            else <[moduleId := changeType change]> moduleBumps
        | None => <[moduleId := changeType change]> moduleBumps
        end
  end.

(** [calculateModuleBumps(entityIndex, changes)] *)
Definition calculateModuleBumps (entityIndex : EntityIndex)
    (changes : list ChangeRecord) : gmap string string :=
  let reverseIndex := buildReverseModuleIndex entityIndex in
  foldl (module_bump_step reverseIndex) ∅ changes.

(** [cascadedBumps.has(depId)] then [depBumps.push(cascadedBumps.get(depId))] *)
Definition collect (bumps : gmap string string) (ids : list string)
  : list string :=
  omap (λ id, bumps !! id) ids.

(** The body of the loop of [propagateDependencyCascade].  A throw leaves
    [cascadedBumps] as it was when the throw happened, which is what the
    [catch] clause then sees. *)
Definition cascade_step (moduleGraph : DepGraph.t) (moduleId : string)
    (cascadedBumps : gmap string string) : outcome (gmap string string) :=
  let* deps := DepGraph.dependenciesOf moduleGraph moduleId false in
  let depBumps := collect cascadedBumps deps in
  if bool_decide (0 < length depBumps) then
    let maxDepBump := maxBumpType depBumps in
    match cascadedBumps !! moduleId with
    | Some currentBump =>
        if truthy currentBump
        then Done (<[moduleId := maxBumpType [currentBump; maxDepBump]]>
                     cascadedBumps)
        else Done (<[moduleId := maxDepBump]> cascadedBumps)
    | None => Done (<[moduleId := maxDepBump]> cascadedBumps)
    end
  else Done cascadedBumps.

(** The [for] loop inside the [try] block, returning the map as it stands
    when the loop ends or throws. *)
Fixpoint cascade_loop (moduleGraph : DepGraph.t) (order : list string)
    (cascadedBumps : gmap string string)
  : gmap string string * outcome unit :=
  match order with
  | [] => (cascadedBumps, Done ())
  | moduleId :: order' =>
      match cascade_step moduleGraph moduleId cascadedBumps with
      | Done cascadedBumps' => cascade_loop moduleGraph order' cascadedBumps'
      | Throw err => (cascadedBumps, Throw err)
      | Diverge => (cascadedBumps, Diverge)
      end
  end.

(** [propagateDependencyCascade(moduleGraph, moduleBumps)] *)
Definition propagateDependencyCascade (moduleGraph : DepGraph.t)
    (moduleBumps : gmap string string) : outcome (gmap string string) :=
  let cascadedBumps := moduleBumps in
  let '(cascadedBumps, status) :=
    match DepGraph.overallOrder moduleGraph false with
    | Done order => cascade_loop moduleGraph order cascadedBumps
    | Throw err => (cascadedBumps, Throw err)
    | Diverge => (cascadedBumps, Diverge)
    end in
  match status with
  | Done _ => Done cascadedBumps
  | Throw err =>
      if includes (message err) "Dependency Cycle Found"
      then Done cascadedBumps
      else Throw err
  | Diverge => Diverge
  end.

(** The body of the loop of [calculateBundleBumps]. *)
Definition bundle_bump_step (moduleBumps : gmap string string)
    (bundleBumps : gmap string string) (bundle : string * entity)
  : gmap string string :=
  let '(bundleId, bundleEntity) := bundle in
  let moduleIds := or_empty (prop bundleEntity "modules") in
  let bumps := collect moduleBumps moduleIds in
  if bool_decide (0 < length bumps)
  then <[bundleId := maxBumpType bumps]> bundleBumps
  else bundleBumps.

(** [calculateBundleBumps(entityIndex, moduleBumps)] *)
Definition calculateBundleBumps (entityIndex : EntityIndex)
    (moduleBumps : gmap string string) : gmap string string :=
  foldl (bundle_bump_step moduleBumps) ∅ (bundles entityIndex).

(** [calculateOntologyBump(changes, moduleBumps, bundleBumps)]; [None] is
    an absent ([null] or [undefined]) change list. *)
Definition calculateOntologyBump (changes : option (list ChangeRecord))
    (moduleBumps bundleBumps : gmap string string) : string :=
  match changes with
  | None => "patch"
  | Some changes =>
      if bool_decide (length changes = 0) then "patch"
      else
        let bumps := changeType <$> changes in
        maxBumpType bumps
  end.

Record CascadeResult := mkCascade {
  changes_of : list ChangeRecord;
  moduleBumps_of : gmap string string;
  bundleBumps_of : gmap string string;
  ontologyBump_of : string;
  orphanChanges_of : list ChangeRecord
}.

(** [calculateVersionCascade(entityIndex, baseBranch)], with the result of
    [detectChanges(entityIndex, baseBranch)] taken as an argument. *)
Definition calculateVersionCascade (entityIndex : EntityIndex)
    (changes : list ChangeRecord) : outcome CascadeResult :=
  if bool_decide (length changes = 0) then
    Done {| changes_of := []; moduleBumps_of := ∅; bundleBumps_of := ∅;
            ontologyBump_of := "patch"; orphanChanges_of := [] |}
  else
    let reverseIndex := buildReverseModuleIndex entityIndex in
    let* moduleGraph := buildModuleDependencyGraph entityIndex in
    let initialModuleBumps := calculateModuleBumps entityIndex changes in
    let* moduleBumps := propagateDependencyCascade moduleGraph initialModuleBumps in
    let bundleBumps := calculateBundleBumps entityIndex moduleBumps in
    let ontologyBump := calculateOntologyBump (Some changes) moduleBumps bundleBumps in
    let orphanChanges :=
      filter (λ change, reverseIndex !! change_key change = None) changes in
    Done {| changes_of := changes; moduleBumps_of := moduleBumps;
            bundleBumps_of := bundleBumps; ontologyBump_of := ontologyBump;
            orphanChanges_of := orphanChanges |}.

(** ** Version arithmetic *)

(** A decimal numeral: at least one digit, nothing but digits. *)
Definition parse_number (s : string) : option nat :=
  Nat.of_uint <$> DecimalString.NilZero.uint_of_string s.

Definition print_number (n : nat) : string :=
  DecimalString.NilZero.string_of_uint (Nat.to_uint n).

(** Three dot-separated non-negative integers. *)
Definition parse_version (version : string) : option (nat * nat * nat) :=
  match split "." version with
  | [a; b; c] =>
      match parse_number a, parse_number b, parse_number c with
      | Some major, Some minor, Some patch => Some (major, minor, patch)
      | _, _, _ => None
      end
  | _ => None
  end.

Definition print_version (v : nat * nat * nat) : string :=
  let '(major, minor, patch) := v in
  print_number major +:+ "." +:+ print_number minor +:+ "."
  +:+ print_number patch.

(** Modelled from the spec: [calculateNewVersion(version, bumpType)] is
    exported by [version-cascade.js] but its body is not part of the
    sources at hand; only its tests are.  Following the spec, [major]
    increments the major component and zeroes minor and patch, [minor]
    increments minor and zeroes patch, [patch] increments patch only, and
    the result is the failure value ([None], the [null] of the tests) when
    the version does not parse as three dot-separated non-negative integers
    or when the bump type is absent or unrecognized.  An absent argument is
    [None]. *)
Definition calculateNewVersion (version bumpType : option string)
  : option string :=
  match version, bumpType with
  | Some version, Some bumpType =>
      match parse_version version with
      | Some (major, minor, patch) =>
          if decide (bumpType = "major")
          then Some (print_version (S major, 0, 0))
          else if decide (bumpType = "minor")
          then Some (print_version (major, S minor, 0))
          else if decide (bumpType = "patch")
          then Some (print_version (major, minor, S patch))
          else None
      | None => None
      end
  | _, _ => None
  end.

(** ** The reference validator *)

(** [REFERENCE_FIELDS], in the order of [Object.entries]. *)
Definition REFERENCE_FIELDS : list (string * list (string * string)) :=
  [ ("categories",
      [ ("parents", "categories");
        ("required_properties", "properties");
        ("optional_properties", "properties");
        ("required_subobjects", "subobjects");
        ("optional_subobjects", "subobjects") ]);
    ("subobjects",
      [ ("required_properties", "properties");
        ("optional_properties", "properties") ]);
    ("properties",
      [ ("parent_property", "properties");
        ("has_display_template", "templates") ]);
    ("modules",
      [ ("categories", "categories");
        ("properties", "properties");
        ("subobjects", "subobjects");
        ("templates", "templates");
        ("dependencies", "modules") ]);
    ("bundles",
      [ ("modules", "modules") ]) ].

(** [getModuleScope(graph, moduleId)]; [None] is the [null] returned when a
    cycle is met. *)
Definition getModuleScope (graph : DepGraph.t) (moduleId : string)
  : outcome (option (gset string)) :=
  let scope : gset string := {[moduleId]} in
  match DepGraph.dependenciesOf graph moduleId false with
  | Done deps => Done (Some (foldl (λ scope dep, scope ∪ {[dep]}) scope deps))
  | Throw err =>
      if includes (message err) "Dependency Cycle Found"
      then Done None
      else Throw err
  | Diverge => Diverge
  end.

(** [normalizeToArray(value)] *)
Definition normalizeToArray (v : value) : list string :=
  match v with
  | VUndefined => []
  | VString s => if truthy s then [s] else []
  | VArray items => items
  end.

Record RefError := mkError {
  error_file : string;
  error_type : string;
  error_message : string
}.

(** The two arrays the validator fills and returns. *)
Record findings := mkFindings {
  errors : list RefError;
  warnings : list string
}.

Definition push_error (e : RefError) (out : findings) : findings :=
  {| errors := errors out ++ [e]; warnings := warnings out |}.

Definition scopeCheckTypes (entityType : string) : bool :=
  bool_decide (entityType ∈ ENTITY_TYPES).

(** [s] between double quotes, as the messages print ids. *)
Definition quoted (s : string) : string :=
  String "034"%char s +:+ String "034"%char EmptyString.

Definition self_reference_error (e : entity) (fieldName refId : string)
  : RefError :=
  {| error_file := _filePath e;
     error_type := "self-reference";
     error_message :=
       "Self-reference in field " +:+ quoted fieldName +:+ ": "
       +:+ quoted refId +:+ " references itself" |}.

Definition missing_reference_error (e : entity)
    (fieldName refId targetType : string) : RefError :=
  {| error_file := _filePath e;
     error_type := "missing-reference";
     error_message :=
       "Missing reference in field " +:+ quoted fieldName +:+ ": "
       +:+ quoted refId +:+ " does not exist in " +:+ targetType |}.

Definition scope_violation_error (e : entity)
    (fieldName refId targetModuleId sourceModuleId : string) : RefError :=
  {| error_file := _filePath e;
     error_type := "scope-violation";
     error_message :=
       "Module scope violation in field " +:+ quoted fieldName +:+ ": "
       +:+ quoted refId +:+ " is in module " +:+ quoted targetModuleId
       +:+ " which is not a dependency of " +:+ quoted sourceModuleId |}.

(** What the validator has resolved about the entity whose references it
    is checking. *)
Record source := mkSource {
  src_type : string;
  src_id : string;
  src_entity : entity;
  src_module : option string;
  src_scope : option (gset string)
}.

(** The body of the innermost loop, [for (const refId of refs)]. *)
Definition check_ref (entityIndex : EntityIndex)
    (reverseModuleIndex : gmap string string) (src : source)
    (fieldName targetType refId : string) (out : findings)
  : outcome findings :=
  if bool_decide (refId = src_id src) && bool_decide (targetType = src_type src)
  then Done (push_error (self_reference_error (src_entity src) fieldName refId) out)
  else
    match index entityIndex targetType with
    | None => Throw (TypeError "has")
    | Some targetIndex =>
        if negb (has targetIndex refId)
        then Done (push_error
                     (missing_reference_error (src_entity src) fieldName refId
                        targetType) out)
        else
          match src_scope src with
          | Some moduleScope =>
              if scopeCheckTypes (src_type src)
                 && negb (bool_decide (targetType = "modules"))
              then
                match reverseModuleIndex !! key targetType refId with
                | Some targetModuleId =>
                    if truthy targetModuleId
                       && negb (bool_decide (targetModuleId ∈ moduleScope))
                    then Done (push_error
                                 (scope_violation_error (src_entity src)
                                    fieldName refId targetModuleId
                                    (default "undefined" (src_module src)))
                                 out)
                    else Done out
                | None => Done out
                end
              else Done out
          | None => Done out
          end
    end.

(** The loop over the reference fields of one entity. *)
Definition check_entity (entityIndex : EntityIndex)
    (reverseModuleIndex : gmap string string) (src : source)
    (fieldMap : list (string * string)) (out : findings) : outcome findings :=
  for_of (λ '(fieldName, targetType) out,
            let refs := normalizeToArray (prop (src_entity src) fieldName) in
            for_of (check_ref entityIndex reverseModuleIndex src
                      fieldName targetType) refs out)
         fieldMap out.

(** The first statements of the loop over entities: the owning module and
    its scope. *)
Definition resolve_source (moduleGraph : DepGraph.t)
    (reverseModuleIndex : gmap string string)
    (entityType entityId : string) (e : entity) : outcome source :=
  let entityKey := key entityType entityId in
  let sourceModuleId := reverseModuleIndex !! entityKey in
  let* moduleScope :=
    match sourceModuleId with
    | Some m =>
        if truthy m && scopeCheckTypes entityType
        then getModuleScope moduleGraph m
        else Done None
    | None => Done None
    end in
  Done {| src_type := entityType; src_id := entityId; src_entity := e;
          src_module := sourceModuleId; src_scope := moduleScope |}.

(** [validateReferences(entityIndex)] *)
Definition validateReferences (entityIndex : EntityIndex) : outcome findings :=
  let out := {| errors := []; warnings := [] |} in
  let* moduleGraph := buildModuleDependencyGraph entityIndex in
  let reverseModuleIndex := buildReverseModuleIndex entityIndex in
  for_of (λ '(entityType, fieldMap) out,
    match index entityIndex entityType with
    | None => Throw (TypeError "Symbol(Symbol.iterator)")
    | Some entities =>
        for_of (λ '(entityId, e) out,
                  let* src := resolve_source moduleGraph reverseModuleIndex
                                entityType entityId e in
                  check_entity entityIndex reverseModuleIndex src fieldMap out)
               entities out
    end)
    REFERENCE_FIELDS out.

(** * Part II: the vocabulary of the statements *)

(** ** Bump levels *)

(** The three strings of the [BumpLevel] enumeration. *)
Definition is_bump (b : string) : Prop :=
  b = "major" ∨ b = "minor" ∨ b = "patch".

(** The bump level that carries a given priority. *)
Definition bump_of_priority (p : nat) : string :=
  if decide (p = 3) then "major"
  else if decide (p = 2) then "minor"
  else "patch".

(** Highest priority in a list, never below that of [patch]. *)
Definition top_priority (bumps : list string) : nat :=
  foldr (λ b acc, priority b `max` acc) 1 bumps.

(** The loop state always pairs a bump with its own priority. *)
Definition coherent (st : string * nat) : Prop :=
  1 ≤ st.2 ∧ st.1 = bump_of_priority st.2.

(** ** Strings *)

(** Character [c] occurs in [s]. *)
Fixpoint occurs (c : ascii) (s : string) : bool :=
  match s with
  | EmptyString => false
  | String c' s' => bool_decide (c' = c) || occurs c s'
  end.

(** ** Dependency graphs *)

Module DepGraphFacts.
Import DepGraph.

(** [t] is listed among the edges of [n]. *)
Definition edge (edges : gmap string (list string)) (n t : string) : Prop :=
  ∃ es, edges !! n = Some es ∧ t ∈ es.

(** Every edge leads to a node that has an edge list of its own. *)
Definition closed (edges : gmap string (list string)) : Prop :=
  ∀ n t, edge edges n t → is_Some (edges !! t).

(** A walk either returns or reports a cycle. *)
Definition returns_or_cycle {A} (o : outcome A) : Prop :=
  match o with
  | Done _ => True
  | Throw (DepGraphCycleError _) => True
  | _ => False
  end.

(** The machine state with the given stack, path and traversal state. *)
Definition machine (rest : list frame) (path : list string) (st : dfs_state)
  : walk :=
  {| todo := rest; currentPath := path; inCurrentPath := list_to_set path;
     walk_state := st |}.

(** Running the loop from [before] amounts to what [r] says: continuing
    from [after st'] if [r] returns [st'], throwing if [r] throws. *)
Definition simulates (edges : gmap string (list string)) (leavesOnly : bool)
    (r : outcome dfs_state) (before : walk) (after : dfs_state → walk)
  : Prop :=
  match r with
  | Done st' =>
      ∀ r', walk_loop edges leavesOnly (after st') r' →
            walk_loop edges leavesOnly before r'
  | Throw err => walk_loop edges leavesOnly before (Throw err)
  | Diverge => True
  end.

(** [l] lists every node after all the nodes its edges lead to. *)
Definition topo (edges : gmap string (list string)) (l : list string) : Prop :=
  ∀ i n t, l !! i = Some n → edge edges n t → ∃ j, j < i ∧ l !! j = Some t.

(** What holds of the traversal state between walks that collect every
    node: [result] lists the [visited] nodes once each, dependencies
    first. *)
Record sound (edges : gmap string (list string)) (st : dfs_state) : Prop :=
  mk_sound {
    sound_visited : ∀ x, x ∈ visited st ↔ x ∈ result st;
    sound_nodup : NoDup (result st);
    sound_topo : topo edges (result st)
  }.

(** [n] names [t] as a dependency. *)
Definition dep (g : t) : relation string := edge (outgoingEdges g).

(** Some module depends, directly or transitively, on itself. *)
Definition has_cycle (g : t) : Prop := ∃ n, tc (dep g) n n.

(** The invariants of the package's three tables, in a form that can be
    checked by evaluation. *)
Definition wf (g : t) : Prop :=
  NoDup (nodes g) ∧
  Forall (λ n, is_Some (outgoingEdges g !! n) ∧ is_Some (incomingEdges g !! n))
         (nodes g) ∧
  map_Forall (λ n es, n ∈ nodes g ∧
                Forall (λ t, n ∈ default [] (incomingEdges g !! t)) es)
             (outgoingEdges g) ∧
  map_Forall (λ t srcs, t ∈ nodes g ∧
                Forall (λ n, t ∈ default [] (outgoingEdges g !! n)) srcs)
             (incomingEdges g).

#[export] Instance wf_dec g : Decision (wf g).
Proof. unfold wf. apply _. Defined.

(** The graphs the code can build: from [new DepGraph()] by [addNode] and
    by calls of [addDependency] that return. *)
Inductive constructed : t → Prop :=
  | constructed_empty : constructed empty
  | constructed_node g node : constructed g → constructed (addNode g node)
  | constructed_dependency g from to g' :
      constructed g → addDependency g from to = Done g' → constructed g'.

(** The same invariants, as used in proofs. *)
Record well_formed (g : t) : Prop := mk_wf {
  wf_nodup : NoDup (nodes g);
  wf_out : ∀ n, n ∈ nodes g ↔ is_Some (outgoingEdges g !! n);
  wf_in : ∀ n, n ∈ nodes g ↔ is_Some (incomingEdges g !! n);
  wf_edges : ∀ n t, dep g n t ↔ edge (incomingEdges g) t n
}.

End DepGraphFacts.

(** ** The cascade *)

Section vocabulary.
Import DepGraph DepGraphFacts.

(** Module [m] declares [d], a known module, as a dependency. *)
Definition declares_dependency (entityIndex : EntityIndex) (m d : string)
  : Prop :=
  ∃ e, (m, e) ∈ modules entityIndex ∧
       d ∈ or_empty (prop e "dependencies") ∧
       d ∈ (modules entityIndex).*1.



(** The transitive dependencies of a module, as the cascade reads them. *)
Definition deps_of (g : DepGraph.t) (n : string) : list string :=
  match dependenciesOf g n false with
  | Done deps => deps
  | _ => []
  end.

(** The input bumps that bear on module [n]: its own, if any, and those of
    the modules it depends on. *)
Definition inputs (g : DepGraph.t) (m : gmap string string) (n : string)
  : list string :=
  option_list (m !! n) ++ collect m (deps_of g n).

(** The entry of module [n] after the cascade. *)
Definition cascaded (g : DepGraph.t) (m : gmap string string) (n : string)
  : option string :=
  match collect m (deps_of g n) with
  | [] => m !! n
  | _ => Some (maxBumpType (inputs g m n))
  end.

(** The change records that [calculateModuleBumps] attributes to module
    [M]. *)
Definition owned_by (rev : gmap string string) (M : string)
    (changes : list ChangeRecord) : list ChangeRecord :=
  filter (λ change, rev !! change_key change = Some M) changes.

(** The bump of a module with the given change records. *)
Definition aggregate (changes : list ChangeRecord) : option string :=
  match changes with
  | [] => None
  | _ => Some (maxBumpType (changeType <$> changes))
  end.

(** The keys under which the reverse index files the members of a
    module. *)
Definition member_keys (moduleEntity : entity) : list string :=
  flat_map (λ entityType,
              key entityType <$> or_empty (prop moduleEntity entityType))
           ENTITY_TYPES.

(** ** The validator *)

(** The findings with [new] pushed on the error list. *)
Definition push_errors (new : list RefError) (out : findings) : findings :=
  {| errors := errors out ++ new; warnings := warnings out |}.

(** The errors one reference contributes. *)
Definition ref_errors (entityIndex : EntityIndex)
    (reverseModuleIndex : gmap string string) (src : source)
    (fieldName targetType refId : string) : list RefError :=
  match check_ref entityIndex reverseModuleIndex src fieldName targetType
          refId {| errors := []; warnings := [] |} with
  | Done out => errors out
  | _ => []
  end.

(** The source record [resolve_source] returns. *)
Definition source_of (g : DepGraph.t) (rev : gmap string string)
    (entityType entityId : string) (e : entity) : source :=
  {| src_type := entityType; src_id := entityId; src_entity := e;
     src_module := rev !! key entityType entityId;
     src_scope :=
       match rev !! key entityType entityId with
       | Some m =>
           if truthy m && scopeCheckTypes entityType
           then match getModuleScope g m with
                | Done scope => scope
                | _ => None
                end
           else None
       | None => None
       end |}.

(** The errors of one entity, field by field and reference by reference. *)
Definition entity_errors (entityIndex : EntityIndex)
    (rev : gmap string string) (src : source)
    (fieldMap : list (string * string)) : list RefError :=
  flat_map (λ '(fieldName, targetType),
              flat_map (ref_errors entityIndex rev src fieldName targetType)
                       (normalizeToArray (prop (src_entity src) fieldName)))
           fieldMap.

(** The errors of all entities of all types, in the order of the loops. *)
Definition all_errors (entityIndex : EntityIndex) (g : DepGraph.t)
  : list RefError :=
  let rev := buildReverseModuleIndex entityIndex in
  flat_map (λ '(entityType, fieldMap),
              flat_map (λ '(entityId, e),
                          entity_errors entityIndex rev
                            (source_of g rev entityType entityId e) fieldMap)
                       (default [] (index entityIndex entityType)))
           REFERENCE_FIELDS.

End vocabulary.

(** ** The entity index *)

(** File [path] holds an entity of type [ty] with the id [id]. *)
Definition yields (read : string → Indexer.parsed) (path ty id : string)
    (fields : gmap string value) : Prop :=
  Indexer.first_segment path = ty ∧
  read path = Indexer.Data (Some id) fields ∧
  truthy id = true.

(** ** Example data *)

Module Examples.
Import DepGraph.

(** [g.addDependency(from, to)] on a graph that has both nodes. *)
Definition add_dep (from to : string) (g : t) : t :=
  match addDependency g from to with Done g' => g' | _ => g end.

(** [Analysis] depends on [Lab], which depends on [Core]. *)
Definition chain : t :=
  add_dep "Analysis" "Lab"
    (add_dep "Lab" "Core"
       (addNode (addNode (addNode empty "Core") "Lab") "Analysis")).

(** The chain closed into a cycle. *)
Definition loop : t := add_dep "Core" "Analysis" chain.

(** Module [B] depends on both [A] and [C]. *)
Definition fork : t :=
  add_dep "B" "C"
    (add_dep "B" "A" (addNode (addNode (addNode empty "A") "B") "C")).

(** An entity read from [filePath] with the given properties. *)
Definition ent (filePath : string) (fields : list (string * value)) : entity :=
  {| props := list_to_map fields; _filePath := filePath |}.

(** Module [Core] owns category [Agent] and the nested template
    [Property/Page]; module [Lab] depends on [Core] and owns category
    [Equipment] and property [Name]; bundle [Default] holds both modules.
    [Agent] requires [Name], which [Core] cannot see. *)
Definition lab_index : EntityIndex :=
  {| categories :=
       [ ("Agent", ent "categories/Agent.json"
                     [("required_properties", VArray ["Name"])]);
         ("Equipment", ent "categories/Equipment.json"
                         [("parents", VArray ["Agent"])]) ];
     properties := [ ("Name", ent "properties/Name.json" []) ];
     subobjects := [];
     templates :=
       [ ("Property/Page", ent "templates/Property/Page.json" []) ];
     modules :=
       [ ("Core", ent "modules/Core.json"
                    [("categories", VArray ["Agent"]);
                     ("templates", VArray ["Property/Page"])]);
         ("Lab", ent "modules/Lab.json"
                   [("categories", VArray ["Equipment"]);
                    ("properties", VArray ["Name"]);
                    ("dependencies", VArray ["Core"])]) ];
     bundles :=
       [ ("Default", ent "bundles/Default.json"
                       [("modules", VArray ["Core"; "Lab"])]) ] |}.

(** The change list of the end-to-end example. *)
Definition agent_changed : list ChangeRecord :=
  [ {| file := "categories/Agent.json"; entityType := "categories";
       changeType := "major" |} ].

(** A change of the nested template. *)
Definition page_changed : ChangeRecord :=
  {| file := "templates/Property/Page.json"; entityType := "templates";
     changeType := "major" |}.

(** [Core] and [Lab] depend on each other; [Core] owns category [Agent]. *)
Definition ring_index : EntityIndex :=
  {| categories := [ ("Agent", ent "categories/Agent.json" []) ];
     properties := [];
     subobjects := [];
     templates := [];
     modules :=
       [ ("Core", ent "modules/Core.json"
                    [("categories", VArray ["Agent"]);
                     ("dependencies", VArray ["Lab"])]);
         ("Lab", ent "modules/Lab.json"
                   [("dependencies", VArray ["Core"])]) ];
     bundles := [] |}.

(** Two records for entities of [Lab] and one for an entity of [Core]. *)
Definition lab_changes : list ChangeRecord :=
  [ {| file := "categories/Equipment.json"; entityType := "categories";
       changeType := "patch" |};
    {| file := "categories/Agent.json"; entityType := "categories";
       changeType := "minor" |};
    {| file := "properties/Name.json"; entityType := "properties";
       changeType := "major" |} ].
(** Category [Agent] is listed by [Core] and again by [Lab]; [Lab] names a
    module [Missing] that the index does not have. *)
Definition contested_index : EntityIndex :=
  {| categories := [ ("Agent", ent "categories/Agent.json" []) ];
     properties := [];
     subobjects := [];
     templates := [];
     modules :=
       [ ("Core", ent "modules/Core.json"
                    [("categories", VArray ["Agent"])]);
         ("Lab", ent "modules/Lab.json"
                   [("categories", VArray ["Agent"]);
                    ("dependencies", VArray ["Missing"])]) ];
     bundles := [] |}.

(** Module [Solo] lists itself as a dependency. *)
Definition solo_index : EntityIndex :=
  {| categories := [];
     properties := [];
     subobjects := [];
     templates := [];
     modules :=
       [ ("Solo", ent "modules/Solo.json"
                    [("dependencies", VArray ["Solo"])]) ];
     bundles := [] |}.

(** Two files that both hold module [Core], and a file outside the six
    directories. *)
Definition copies : list string :=
  ["modules/Core.json"; "docs/notes.json"; "modules/Copy.json"].

Definition copies_read (path : string) : Indexer.parsed :=
  if decide (path = "docs/notes.json") then Indexer.Unparsable
  else Indexer.Data (Some "Core") ∅.

End Examples.

(** * Part III: proofs *)

(** ** Priorities *)

Lemma priority_cases b :
  (b = "major" ∧ priority b = 3) ∨ (b = "minor" ∧ priority b = 2) ∨
  (b = "patch" ∧ priority b = 1) ∨ (¬ is_bump b ∧ priority b = 0).
Proof.
  unfold priority, BUMP_PRIORITY, is_bump.
  destruct (decide (b = "major")) as [->|?]; [by left|].
  destruct (decide (b = "minor")) as [->|?]; [by right; left|].
  destruct (decide (b = "patch")) as [->|?]; [by right; right; left|].
  right; right; right. split; [intros [?|[?|?]]; done | done].
Qed.

Lemma priority_le_3 b : priority b ≤ 3.
Proof. destruct (priority_cases b) as [[_ ->]|[[_ ->]|[[_ ->]|[_ ->]]]]; lia. Qed.

Lemma bump_of_priority_priority b :
  1 ≤ priority b → bump_of_priority (priority b) = b.
Proof.
  destruct (priority_cases b) as [[-> E]|[[-> E]|[[-> E]|[_ E]]]];
    rewrite ?E; try done; lia.
Qed.

Lemma priority_is_bump b : is_bump b ↔ 1 ≤ priority b.
Proof.
  destruct (priority_cases b) as [[-> E]|[[-> E]|[[-> E]|[N E]]]];
    rewrite ?E; unfold is_bump; split; intros; try lia; naive_solver.
Qed.

Lemma step_coherent st b : coherent st → coherent (max_step st b).
Proof.
  intros [H1 H2]. unfold max_step. case_decide; [|done].
  split; simpl; [lia|]. symmetry. apply bump_of_priority_priority. lia.
Qed.

Lemma step_priority st b : (max_step st b).2 = priority b `max` st.2.
Proof. unfold max_step. case_decide; simpl; lia. Qed.

Lemma foldl_step_spec bumps st :
  coherent st →
  coherent (foldl max_step st bumps) ∧
  (foldl max_step st bumps).2 = foldr (λ b acc, priority b `max` acc) st.2 bumps.
Proof.
  revert st. induction bumps as [|b bumps IH]; intros st Hst; simpl; [done|].
  destruct (IH (max_step st b) (step_coherent _ b Hst)) as [Hc Hp].
  split; [done|]. rewrite Hp, step_priority.
  clear. generalize (priority b) (st.2). intros p q.
  induction bumps as [|c bumps IH]; simpl; lia.
Qed.

(** [maxBumpType] is a function of the highest priority present. *)
Lemma maxBumpType_top bumps :
  maxBumpType bumps = bump_of_priority (top_priority bumps).
Proof.
  destruct bumps as [|b bumps]; [done|].
  unfold maxBumpType, top_priority.
  destruct (foldl_step_spec (b :: bumps) ("patch", 1)) as [[_ Hc] Hp];
    [by split|].
  by rewrite Hc, Hp.
Qed.

Lemma top_priority_ge_1 bumps : 1 ≤ top_priority bumps.
Proof. induction bumps; simpl; lia. Qed.

Lemma top_priority_le_3 bumps : top_priority bumps ≤ 3.
Proof.
  induction bumps as [|b l IH]; simpl; [lia|]. pose proof (priority_le_3 b). lia.
Qed.

Lemma top_priority_upper bumps b : b ∈ bumps → priority b ≤ top_priority bumps.
Proof.
  induction 1 as [b l|b c l _ IH]; simpl; lia.
Qed.

Lemma top_priority_attained bumps :
  top_priority bumps = 1 ∨ ∃ b, b ∈ bumps ∧ priority b = top_priority bumps.
Proof.
  induction bumps as [|b l IH]; simpl; [by left|].
  destruct (decide (top_priority l ≤ priority b)) as [Hle|Hgt].
  - destruct (decide (priority b = 0)) as [E0|N0].
    + left. pose proof (top_priority_ge_1 l). unfold top_priority in *. lia.
    + right. exists b. split; [left|]. unfold top_priority in *. lia.
  - destruct IH as [IH|(c & Hc & Ec)].
    + left. unfold top_priority in *. lia.
    + right. exists c. split; [by right|]. unfold top_priority in *. lia.
Qed.

Lemma top_priority_Permutation l1 l2 :
  l1 ≡ₚ l2 → top_priority l1 = top_priority l2.
Proof.
  unfold top_priority.
  induction 1; simpl; lia || congruence.
Qed.

Lemma top_priority_app l1 l2 :
  top_priority (l1 ++ l2) = top_priority l1 `max` top_priority l2.
Proof.
  induction l1 as [|b l1 IH]; simpl.
  - pose proof (top_priority_ge_1 l2). unfold top_priority in *. lia.
  - unfold top_priority in *. rewrite IH. lia.
Qed.

Lemma priority_bump_of_priority p :
  1 ≤ p ≤ 3 → priority (bump_of_priority p) = p.
Proof.
  intros Hp. unfold bump_of_priority.
  repeat case_decide; subst; try done.
  assert (p = 1) as -> by lia. done.
Qed.

Lemma priority_maxBumpType bumps :
  priority (maxBumpType bumps) = top_priority bumps.
Proof.
  rewrite maxBumpType_top. apply priority_bump_of_priority.
  split; [apply top_priority_ge_1 | apply top_priority_le_3].
Qed.

(** Two lists with the same elements have the same maximum. *)
Lemma top_priority_same_elements l1 l2 :
  (∀ b, b ∈ l1 ↔ b ∈ l2) → top_priority l1 = top_priority l2.
Proof.
  intros H.
  assert (∀ l l', (∀ b, b ∈ l → b ∈ l') → top_priority l ≤ top_priority l')
    as Hle.
  { clear. intros l l' Hsub.
    destruct (top_priority_attained l) as [->|(b & Hb & <-)].
    - apply top_priority_ge_1.
    - apply top_priority_upper. auto. }
  apply Nat.le_antisymm; apply Hle; intros b; apply H.
Qed.

Lemma maxBumpType_same_elements l1 l2 :
  (∀ b, b ∈ l1 ↔ b ∈ l2) → maxBumpType l1 = maxBumpType l2.
Proof.
  intros H. rewrite !maxBumpType_top. f_equal.
  by apply top_priority_same_elements.
Qed.

(** Nesting a maximum inside a maximum flattens. *)
Lemma maxBumpType_nested cur deps :
  maxBumpType [cur; maxBumpType deps] = maxBumpType (cur :: deps).
Proof.
  rewrite (maxBumpType_top [_; _]), (maxBumpType_top (_ :: _)). f_equal.
  simpl. rewrite priority_maxBumpType.
  pose proof (top_priority_ge_1 deps). unfold top_priority in *. lia.
Qed.

Lemma top_priority_le l q :
  1 ≤ q → (∀ x, x ∈ l → priority x ≤ q) → top_priority l ≤ q.
Proof.
  intros Hq Hl. destruct (top_priority_attained l) as [->|(b & Hb & <-)]; auto.
Qed.

Lemma maxBumpType_falsy_head c l :
  truthy c = false → maxBumpType (c :: l) = maxBumpType l.
Proof.
  unfold truthy. intros Hc. apply negb_false_iff, bool_decide_eq_true in Hc.
  subst c. rewrite !maxBumpType_top. by f_equal.
Qed.

(** ** Loops *)

Lemma for_of_app {A S} (body : A → S → outcome S) xs ys s :
  for_of body (xs ++ ys) s = let* s' := for_of body xs s in for_of body ys s'.
Proof.
  revert s. induction xs as [|x xs IH]; intros s; simpl; [done|].
  destruct (body x s); simpl; auto.
Qed.

(** Loop invariant rule: [I done s] relates the state to the elements
    already processed. *)
Lemma for_of_invariant {A S} (body : A → S → outcome S)
    (I : list A → S → Prop) xs s s' :
  I [] s →
  (∀ pre x s0 s1,
     x ∈ xs → I pre s0 → body x s0 = Done s1 → I (pre ++ [x]) s1) →
  for_of body xs s = Done s' →
  I xs s'.
Proof.
  intros H0 Hstep.
  assert (∀ todo pre s0, pre ++ todo = xs → I pre s0 →
            for_of body todo s0 = Done s' → I xs s') as Hgen.
  { induction todo as [|x todo IH]; intros pre s0 Heq HI Hrun; simpl in Hrun.
    - rewrite app_nil_r in Heq. by simplify_eq.
    - destruct (body x s0) as [s1| |] eqn:Hb; simpl in Hrun; try done.
      apply (IH (pre ++ [x]) s1); [by rewrite <- app_assoc| |done].
      apply (Hstep pre x s0 s1); [|done..].
      rewrite <- Heq. rewrite elem_of_app, elem_of_cons. auto. }
  by apply (Hgen xs [] s).
Qed.

(** A loop that does not complete stopped in some iteration. *)
Lemma for_of_not_done {A S} (body : A → S → outcome S) xs s o :
  for_of body xs s = o → (∀ s', o ≠ Done s') →
  ∃ pre x todo s0, xs = pre ++ x :: todo ∧
     for_of body pre s = Done s0 ∧ body x s0 = o.
Proof.
  revert s. induction xs as [|x xs IH]; intros s Hrun Hnd; simpl in Hrun.
  - by destruct (Hnd s).
  - destruct (body x s) as [s1| |] eqn:Hb; simpl in Hrun.
    + destruct (IH s1 Hrun Hnd) as (pre & y & todo & s0 & -> & Hd & Hy).
      exists (x :: pre), y, todo, s0. simpl. rewrite Hb. done.
    + exists [], x, xs, s. by rewrite Hb.
    + exists [], x, xs, s. by rewrite Hb.
Qed.

(** Total-correctness version: a body that always returns makes the loop
    return.  The body may rely on where in the list it runs. *)
Lemma for_of_total_at {A S} (body : A → S → outcome S)
    (I : list A → S → Prop) xs s :
  I [] s →
  (∀ pre x todo s0, xs = pre ++ x :: todo → I pre s0 →
     ∃ s1, body x s0 = Done s1 ∧ I (pre ++ [x]) s1) →
  ∃ s', for_of body xs s = Done s' ∧ I xs s'.
Proof.
  intros H0 Hstep.
  assert (∀ todo pre s0, pre ++ todo = xs → I pre s0 →
            ∃ s', for_of body todo s0 = Done s' ∧ I xs s') as Hgen.
  { induction todo as [|x todo IH]; intros pre s0 Heq HI; simpl.
    - rewrite app_nil_r in Heq. subst. by exists s0.
    - destruct (Hstep pre x todo s0) as (s1 & -> & Hs1); [done..|].
      simpl. apply (IH (pre ++ [x])); [by rewrite <- app_assoc|done]. }
  by apply (Hgen xs [] s).
Qed.

Lemma for_of_total {A S} (body : A → S → outcome S)
    (I : list A → S → Prop) xs s :
  I [] s →
  (∀ pre x s0, x ∈ xs → I pre s0 →
     ∃ s1, body x s0 = Done s1 ∧ I (pre ++ [x]) s1) →
  ∃ s', for_of body xs s = Done s' ∧ I xs s'.
Proof.
  intros H0 Hstep. apply for_of_total_at; [done|].
  intros pre x todo s0 -> HI. apply Hstep; [|done].
  rewrite elem_of_app, elem_of_cons. auto.
Qed.

Lemma foldl_preserves {A B} (f : B → A → B) (P : B → Prop) l b :
  P b → (∀ b x, x ∈ l → P b → P (f b x)) → P (foldl f b l).
Proof.
  revert b. induction l as [|x l IH]; intros b Hb Hf; simpl; [done|].
  apply IH; [apply Hf; [left|done]|]. intros b' y Hy. apply Hf. by right.
Qed.

Lemma tc_iff {A} (R1 R2 : relation A) x y :
  (∀ a b, R1 a b ↔ R2 a b) → tc R1 x y ↔ tc R2 x y.
Proof.
  intros HR. split; induction 1 as [a b Hab|a b c Hab _ IH];
    apply HR in Hab; first [by apply tc_once|by eapply tc_l].
Qed.


(** The message test of both [catch] clauses accepts every cycle error. *)
Lemma cycle_message_recognised cyclePath :
  includes (message (DepGraphCycleError cyclePath)) "Dependency Cycle Found"
  = true.
Proof. reflexivity. Qed.

(** ** Depth-first walks *)

Module DepGraphLemmas.
Import DepGraph DepGraphFacts.

Section walk.
Context (edges : gmap string (list string)).

#[local] Abbreviation edge := (DepGraphFacts.edge edges).
#[local] Abbreviation closed := (DepGraphFacts.closed edges).
#[local] Abbreviation topo := (DepGraphFacts.topo edges).
#[local] Abbreviation sound := (DepGraphFacts.sound edges).

Lemma for_of_returns_or_cycle {A S} (body : A → S → outcome S) xs s :
  (∀ x s0, x ∈ xs → returns_or_cycle (body x s0)) →
  returns_or_cycle (for_of body xs s).
Proof.
  revert s. induction xs as [|x xs IH]; intros s H; simpl; [done|].
  pose proof (H x s (list_elem_of_here _ _)) as Hx.
  destruct (body x s) as [s1|[]|]; simpl in *; try done.
  apply IH. intros y s0 Hy. apply H. by apply list_elem_of_further.
Qed.

(** The budget suffices: a walk whose path holds distinct nodes cannot be
    deeper than the number of nodes. *)
Lemma visit_returns_or_cycle fuel leavesOnly path node st :
  closed →
  is_Some (edges !! node) →
  NoDup path →
  (∀ p, p ∈ path → is_Some (edges !! p)) →
  size (dom edges ∖ list_to_set path) < fuel →
  returns_or_cycle (visit fuel edges leavesOnly path node st).
Proof.
  intros Hcl. revert path node st.
  induction fuel as [|fuel IH]; intros path node st Hn Hnd Hp Hsz; [lia|].
  simpl. case_bool_decide; [done|]. case_bool_decide; [done|].
  destruct Hn as [es Hes]. rewrite Hes.
  assert (returns_or_cycle
            (for_of (visit fuel edges leavesOnly (node :: path)) es st)) as Hfor.
  { apply for_of_returns_or_cycle. intros c s0 Hc. apply IH.
    - apply (Hcl node c). by exists es.
    - by constructor.
    - intros p [->|Hin]%elem_of_cons; [by exists es|by apply Hp].
    - assert (node ∈ dom edges ∖ list_to_set (C:=gset string) path) as Hin.
      { apply elem_of_difference. split; [by apply elem_of_dom|].
        by rewrite elem_of_list_to_set. }
      assert (dom edges ∖ list_to_set (node :: path)
              ⊂ dom edges ∖ list_to_set (C:=gset string) path) as Hsub.
      { split.
        - intros x. rewrite !elem_of_difference, !elem_of_list_to_set,
            elem_of_cons. tauto.
        - intros Hsubs. specialize (Hsubs node Hin).
          rewrite elem_of_difference, elem_of_list_to_set, elem_of_cons in Hsubs.
          tauto. }
      apply subset_size in Hsub. lia. }
  destruct (for_of _ es st) as [s1|[]|]; simpl in *; done.
Qed.

(** A reported cycle is a cycle of the graph, reachable from where the
    walk started. *)
Lemma visit_cycle_sound fuel leavesOnly start path node st cyclePath :
  rtc edge start node →
  (∀ p, p ∈ path → tc edge p node) →
  visit fuel edges leavesOnly path node st
    = Throw (DepGraphCycleError cyclePath) →
  ∃ n, rtc edge start n ∧ tc edge n n.
Proof.
  revert path node st.
  induction fuel as [|fuel IH]; intros path node st Hstart Hpath Hrun; [done|].
  simpl in Hrun. case_bool_decide; [done|].
  case_bool_decide as Hin; [exists node; split; [done|by apply Hpath]|].
  destruct (edges !! node) as [es|] eqn:Hes; [|done].
  destruct (for_of _ es st) as [s1|e|] eqn:Hfor; simpl in Hrun; try done.
  simplify_eq.
  apply for_of_not_done in Hfor as (pre & c & todo & s0 & -> & _ & Hc);
    [|done].
  assert (edge node c) as Hedge.
  { eexists. split; [done|]. rewrite elem_of_app, elem_of_cons. auto. }
  refine (IH _ _ _ _ _ Hc).
  - eapply rtc_r; done.
  - intros p [->|Hp]%elem_of_cons; [by apply tc_once|].
    eapply tc_r; [by apply Hpath|done].
Qed.

Lemma sound_fresh : sound fresh.
Proof.
  split; simpl.
  - intros x. rewrite elem_of_empty, elem_of_nil. tauto.
  - constructor.
  - intros i n t Hi. by rewrite lookup_nil in Hi.
Qed.

Lemma topo_snoc l n :
  topo l → (∀ t, edge n t → t ∈ l) → topo (l ++ [n]).
Proof.
  intros Ht Hn i m t Hi He.
  destruct (decide (i < length l)) as [Hlt|Hge].
  - rewrite lookup_app_l in Hi by done.
    destruct (Ht i m t Hi He) as (j & Hj & Hl).
    exists j. split; [done|]. rewrite lookup_app_l; [done|lia].
  - rewrite lookup_app_r in Hi by lia.
    destruct (i - length l) as [|k] eqn:Hk; simpl in Hi; [|done].
    simplify_eq.
    destruct (proj1 (list_elem_of_lookup l t) (Hn t He)) as [j Hj].
    pose proof (lookup_lt_Some _ _ _ Hj).
    exists j. split; [lia|]. by rewrite lookup_app_l.
Qed.

Lemma topo_tc l n m i :
  topo l → tc edge n m → l !! i = Some n → ∃ j, j < i ∧ l !! j = Some m.
Proof.
  intros Ht Htc. revert i.
  induction Htc as [n m He|n k m He _ IH]; intros i Hi.
  - by apply (Ht i n m).
  - destruct (Ht i n k Hi He) as (j & Hj & Hk).
    destruct (IH j Hk) as (j' & Hj' & Hm).
    exists j'. split; [lia|done].
Qed.

Lemma topo_acyclic l n : topo l → NoDup l → n ∈ l → ¬ tc edge n n.
Proof.
  intros Ht Hnd [i Hi]%list_elem_of_lookup Htc.
  destruct (topo_tc l n n i Ht Htc Hi) as (j & Hj & Hn).
  pose proof (NoDup_lookup l i j n Hnd Hi Hn). lia.
Qed.

Lemma topo_closed l n m : topo l → n ∈ l → rtc edge n m → m ∈ l.
Proof.
  intros Ht Hn Hr. induction Hr as [|n k m He _ IH]; [done|].
  apply IH. apply list_elem_of_lookup in Hn as [i Hi].
  destruct (Ht i n k Hi He) as (j & _ & Hk).
  apply list_elem_of_lookup. by exists j.
Qed.

(** A walk that returns has appended to [result] the nodes it reached,
    the start node included if it was not there yet. *)
Lemma visit_done fuel path node st st' :
  sound st →
  (∀ p, p ∈ path → p ∉ visited st) →
  visit fuel edges false path node st = Done st' →
  sound st' ∧ node ∈ visited st' ∧
  ∃ new, result st' = result st ++ new ∧
         ∀ x, x ∈ new → rtc edge node x ∧ x ∉ path.
Proof.
  revert path node st st'.
  induction fuel as [|fuel IH]; intros path node st st' Hs Hp Hrun; [done|].
  simpl in Hrun. case_bool_decide as Hv.
  { simplify_eq. split; [done|]. split; [done|]. exists [].
    split; [by rewrite app_nil_r|]. by intros x ?%elem_of_nil. }
  case_bool_decide as Hin; [done|].
  destruct (edges !! node) as [es|] eqn:Hes; [|done].
  destruct (for_of _ es st) as [s1| |] eqn:Hfor; simpl in Hrun; [|done..].
  simplify_eq.
  pose (I := λ (pre : list string) (s : dfs_state),
    sound s ∧ (∀ c, c ∈ pre → c ∈ visited s) ∧
    ∃ new, result s = result st ++ new ∧
           ∀ x, x ∈ new → rtc edge node x ∧ x ∉ node :: path).
  assert (I es s1) as (Hs1 & Hall & new & Hres & Hnew).
  { apply (for_of_invariant (visit fuel edges false (node :: path)) I es st s1);
      [| |done].
    - split; [done|]. split; [by intros c ?%elem_of_nil|]. exists [].
      split; [by rewrite app_nil_r|]. by intros x ?%elem_of_nil.
    - intros pre c s0 s1' Hc (Hs0 & Hpre & new0 & Hres0 & Hnew0) Hvisit.
      apply IH in Hvisit as (Hs1' & Hc1 & new1 & Hres1 & Hnew1); [|done|].
      + split; [done|]. split.
        * intros c' [Hc'| ->%list_elem_of_singleton]%elem_of_app; [|done].
          apply Hs1'. rewrite Hres1, elem_of_app. left.
          apply Hs0. by apply Hpre.
        * exists (new0 ++ new1). split; [by rewrite Hres1, Hres0, app_assoc|].
          intros x [Hx|Hx]%elem_of_app; [by apply Hnew0|].
          destruct (Hnew1 x Hx) as [Hr Hnp]. split; [|done].
          eapply rtc_l; [|done]. by exists es.
      + intros p Hpin Hpv. apply Hs0 in Hpv.
        rewrite Hres0, elem_of_app in Hpv. destruct Hpv as [Hpv|Hpv].
        * apply Hs in Hpv. apply elem_of_cons in Hpin as [->|Hpin]; [done|].
          by apply (Hp p).
        * by destruct (Hnew0 p Hpv). }
  assert (node ∉ result s1) as Hfresh.
  { rewrite Hres, elem_of_app. intros [Hn|Hn].
    - by apply Hs in Hn.
    - destruct (Hnew node Hn) as [_ Hnp]. apply Hnp. by left. }
  split; [|split].
  - split; simpl.
    + intros x. rewrite elem_of_union, elem_of_singleton, elem_of_app,
        list_elem_of_singleton, (sound_visited _ _ Hs1). tauto.
    + apply NoDup_app. split; [by apply Hs1|]. split; [|apply NoDup_singleton].
      by intros x Hx ->%list_elem_of_singleton.
    + apply topo_snoc; [by apply Hs1|]. intros t (es' & Hes' & Ht).
      simplify_eq. apply Hs1. by apply Hall.
  - simpl. apply elem_of_union_l. by apply elem_of_singleton.
  - exists (new ++ [node]). simpl. split; [by rewrite Hres, app_assoc|].
    intros x [Hx| ->%list_elem_of_singleton]%elem_of_app.
    + destruct (Hnew x Hx) as [Hr Hnp]. split; [done|].
      intros Hxp. apply Hnp. by right.
    + done.
Qed.

End walk.

(** *** The loop and the recursion *)

Section loop.
Context (edges : gmap string (list string)) (leavesOnly : bool).

Lemma walk_loop_deterministic w r1 r2 :
  walk_loop edges leavesOnly w r1 → walk_loop edges leavesOnly w r2 →
  r1 = r2.
Proof.
  intros H1. revert r2.
  induction H1 as [w Hw|w w' r Hw Hs _ IH|w err Hw Hs]; intros r2 H2;
    inversion H2 as [? Hw2|? w2 ? Hw2 Hs2 Hr2|? err2 Hw2 Hs2]; subst;
    try congruence.
  apply IH. by replace w' with w2 by congruence.
Qed.

(** A pending node on top of the stack is handled by the loop as [visit]
    handles it. *)
Lemma visit_simulates fuel path node st rest :
  simulates edges leavesOnly
    (visit fuel edges leavesOnly path node st)
    (machine (mkFrame node false :: rest) path st)
    (λ st', machine rest path st').
Proof.
  revert path node st rest.
  induction fuel as [|fuel IH]; intros path node st rest; [done|].
  simpl visit. case_bool_decide as Hv.
  { intros r' Hr'. eapply walk_iterate; [done| |exact Hr'].
    unfold walk_step. simpl. by rewrite bool_decide_true. }
  case_bool_decide as Hin.
  { apply walk_throw; [done|]. unfold walk_step. simpl.
    rewrite bool_decide_false by done.
    by rewrite bool_decide_true by by apply elem_of_list_to_set. }
  assert (node ∉ list_to_set (C:=gset string) path) as Hin'
    by by rewrite elem_of_list_to_set.
  destruct (edges !! node) as [es|] eqn:Hes; last first.
  { apply walk_throw; [done|]. unfold walk_step. simpl.
    by rewrite !bool_decide_false, Hes by done. }
  assert (∀ cs st0 rest',
    simulates edges leavesOnly
      (for_of (visit fuel edges leavesOnly (node :: path)) cs st0)
      (machine (((λ n, mkFrame n false) <$> cs) ++ rest') (node :: path) st0)
      (λ st', machine rest' (node :: path) st')) as Hchildren.
  { induction cs as [|c cs IHcs]; intros st0 rest'; simpl; [done|].
    pose proof (IH (node :: path) c st0
                  (((λ n, mkFrame n false) <$> cs) ++ rest')) as Hc.
    destruct (visit fuel edges leavesOnly (node :: path) c st0)
      as [st1|err|]; simpl in *; [|done..].
    pose proof (IHcs st1 rest') as Hcs.
    destruct (for_of _ cs st1) as [st2|err|]; simpl in *; [|by apply Hc|done].
    intros r' Hr'. by apply Hc, Hcs. }
  assert (walk_step edges leavesOnly (machine (mkFrame node false :: rest) path st)
          = Done (machine (((λ n, mkFrame n false) <$> es)
                           ++ mkFrame node true :: rest) (node :: path) st))
    as Hexpand.
  { unfold walk_step. simpl. by rewrite !bool_decide_false, Hes by done. }
  specialize (Hchildren es st (mkFrame node true :: rest)).
  destruct (for_of _ es st) as [st1|err|]; simpl in *; [| |done].
  - intros r' Hr'. eapply walk_iterate; [done|exact Hexpand|].
    apply Hchildren. eapply walk_iterate; [done| |exact Hr'].
    unfold walk_step, machine. simpl.
    assert (({[node]} ∪ list_to_set path) ∖ {[node]}
            = list_to_set (C:=gset string) path) as ->.
    { apply set_eq. intros x.
      rewrite elem_of_difference, elem_of_union, elem_of_singleton.
      split; [tauto|]. intros Hx. split; [by right|]. by intros ->. }
    destruct leavesOnly; simpl; [|done]. by rewrite Hes.
  - eapply walk_iterate; [done|exact Hexpand|exact Hchildren].
Qed.

(** The loop of the package ends with the result of the recursion,
    whenever the recursion has fuel enough to give one. *)
Lemma DFS_loop_visit fuel start st :
  visit fuel edges leavesOnly [] start st ≠ Diverge →
  DFS_loop edges leavesOnly start st (visit fuel edges leavesOnly [] start st).
Proof.
  intros Hfuel. unfold DFS_loop. case_bool_decide as Hv.
  { destruct fuel; [done|]. simpl. by rewrite bool_decide_true. }
  pose proof (visit_simulates fuel [] start st []) as Hsim.
  destruct (visit fuel edges leavesOnly [] start st) as [st'|err|];
    simpl in Hsim; [|done..].
  apply Hsim. by apply (walk_exit _ _ (machine [] [] st')).
Qed.

Lemma DFS_loop_deterministic start st r1 r2 :
  DFS_loop edges leavesOnly start st r1 →
  DFS_loop edges leavesOnly start st r2 → r1 = r2.
Proof.
  unfold DFS_loop. case_bool_decide; [congruence|].
  apply walk_loop_deterministic.
Qed.

End loop.

(** *** Graphs built by [addNode] and [addDependency] *)

Lemma elem_of_default_lookup (m : gmap string (list string)) n t :
  t ∈ default [] (m !! n) ↔ edge m n t.
Proof.
  unfold edge. destruct (m !! n) as [es|]; simpl.
  - split; [by exists es|]. by intros (? & [= <-] & ?).
  - split; [by intros ?%elem_of_nil|]. by intros (? & [=] & ?).
Qed.

Lemma wf_well_formed g : wf g ↔ well_formed g.
Proof.
  unfold wf. rewrite Forall_forall. split.
  - intros (Hnd & Hnodes & Hout & Hin). split; [done|..].
    + intros n. split; [intros Hn; by destruct (Hnodes n Hn)|].
      intros [es Hes]. by destruct (Hout n es Hes).
    + intros n. split; [intros Hn; by destruct (Hnodes n Hn)|].
      intros [es Hes]. by destruct (Hin n es Hes).
    + intros n x. unfold dep. split.
      * intros (es & Hes & Hx). destruct (Hout n es Hes) as [_ Hall].
        rewrite Forall_forall in Hall. by apply elem_of_default_lookup, Hall.
      * intros (es & Hes & Hx). destruct (Hin x es Hes) as [_ Hall].
        rewrite Forall_forall in Hall. by apply elem_of_default_lookup, Hall.
  - intros [Hnd Hout Hin Hedges]. split; [done|]. split; [|split].
    + intros n Hn. split; [by apply Hout|by apply Hin].
    + intros n es Hes. split; [apply Hout; by exists es|].
      apply Forall_forall. intros x Hx. apply elem_of_default_lookup.
      apply Hedges. by exists es.
    + intros x es Hes. split; [apply Hin; by exists es|].
      apply Forall_forall. intros n Hn. apply elem_of_default_lookup.
      apply Hedges. by exists es.
Qed.

Lemma dep_nodes g n x : well_formed g → dep g n x → n ∈ nodes g ∧ x ∈ nodes g.
Proof.
  intros Hwf Hd. split.
  - apply (wf_out g Hwf). destruct Hd as (es & -> & _). by eexists.
  - apply (wf_in g Hwf). apply (wf_edges g Hwf) in Hd as (es & -> & _).
    by eexists.
Qed.

Lemma well_formed_closed g : well_formed g → closed (outgoingEdges g).
Proof.
  intros Hwf n x Hd. apply (wf_out g Hwf). by apply (dep_nodes g n x).
Qed.

Lemma rtc_dep_nodes g n x :
  well_formed g → n ∈ nodes g → rtc (dep g) n x → x ∈ nodes g.
Proof.
  intros Hwf Hn Hr. induction Hr as [|n k x Hd _ IH]; [done|].
  apply IH. by apply (dep_nodes g n k).
Qed.

(** Walks of a well-formed graph return or report a cycle: the budget is
    never exhausted and no edge list is missing. *)
Lemma DFS_returns_or_cycle g leavesOnly start st :
  well_formed g → start ∈ nodes g →
  returns_or_cycle (DFS g leavesOnly start st).
Proof.
  intros Hwf Hstart. unfold DFS. apply visit_returns_or_cycle.
  - by apply well_formed_closed.
  - by apply (wf_out g Hwf).
  - constructor.
  - by intros p ?%elem_of_nil.
  - unfold budget.
    assert (dom (outgoingEdges g) ∖ list_to_set [] ⊆ list_to_set (nodes g))
      as Hsub.
    { intros x [Hx _]%elem_of_difference. apply elem_of_list_to_set.
      apply (wf_out g Hwf). by apply elem_of_dom. }
    apply subseteq_size in Hsub.
    rewrite size_list_to_set in Hsub by apply (wf_nodup g Hwf). lia.
Qed.

(** On a well-formed graph the loop of the package, started on a node of
    the graph, ends, and [DFS] is its result. *)
Lemma DFS_loop_DFS g leavesOnly start st r :
  well_formed g → start ∈ nodes g →
  DFS_loop (outgoingEdges g) leavesOnly start st r
  ↔ r = DFS g leavesOnly start st.
Proof.
  intros Hwf Hstart.
  assert (DFS_loop (outgoingEdges g) leavesOnly start st
            (DFS g leavesOnly start st)) as Hrun.
  { apply DFS_loop_visit.
    pose proof (DFS_returns_or_cycle g leavesOnly start st Hwf Hstart) as H.
    unfold DFS in H. by destruct (visit _ _ _ _ _ _). }
  split; [|by intros ->].
  intros Hr. by apply (DFS_loop_deterministic (outgoingEdges g) leavesOnly
                          start st).
Qed.

Lemma DFS_cycle_sound g leavesOnly start st cyclePath :
  DFS g leavesOnly start st = Throw (DepGraphCycleError cyclePath) →
  ∃ n, rtc (dep g) start n ∧ tc (dep g) n n.
Proof.
  apply visit_cycle_sound; [done|]. by intros p ?%elem_of_nil.
Qed.

Lemma DFS_done g start st st' :
  sound (outgoingEdges g) st →
  DFS g false start st = Done st' →
  sound (outgoingEdges g) st' ∧ start ∈ visited st' ∧
  ∃ new, result st' = result st ++ new ∧ ∀ x, x ∈ new → rtc (dep g) start x.
Proof.
  intros Hs Hrun.
  apply visit_done in Hrun as (Hs' & Hv & new & Hres & Hnew);
    [|done|by intros p ?%elem_of_nil].
  split; [done|]. split; [done|]. exists new. split; [done|].
  intros x Hx. by destruct (Hnew x Hx).
Qed.

(** Walks from several start nodes in a row, as [overallOrder] runs them. *)
Lemma DFS_all_done g starts st' :
  well_formed g →
  (∀ n, n ∈ starts → n ∈ nodes g) →
  for_of (DFS g false) starts fresh = Done st' →
  sound (outgoingEdges g) st' ∧
  (∀ n, n ∈ starts → n ∈ result st') ∧
  (∀ x, x ∈ result st' → x ∈ nodes g).
Proof.
  intros Hwf Hstarts Hrun.
  pose (I := λ (pre : list string) (s : dfs_state),
    sound (outgoingEdges g) s ∧ (∀ n, n ∈ pre → n ∈ result s) ∧
    (∀ x, x ∈ result s → x ∈ nodes g)).
  apply (for_of_invariant (DFS g false) I starts fresh st'); [| |done].
  - split; [apply sound_fresh|]. split; by intros n ?%elem_of_nil.
  - intros pre n s0 s1 Hn (Hs0 & Hpre & Hin) Hvisit.
    apply DFS_done in Hvisit as (Hs1 & Hv & new & Hres & Hnew); [|done].
    split; [done|]. split.
    + intros m [Hm| ->%list_elem_of_singleton]%elem_of_app.
      * rewrite Hres, elem_of_app. left. by apply Hpre.
      * by apply Hs1.
    + intros x. rewrite Hres, elem_of_app. intros [Hx|Hx]; [by apply Hin|].
      eapply rtc_dep_nodes; [done|by apply Hstarts|by apply Hnew].
Qed.

Lemma DFS_all_returns_or_cycle g leavesOnly starts st :
  well_formed g →
  (∀ n, n ∈ starts → n ∈ nodes g) →
  returns_or_cycle (for_of (DFS g leavesOnly) starts st).
Proof.
  intros Hwf Hstarts. apply for_of_returns_or_cycle.
  intros x s0 Hx. apply DFS_returns_or_cycle; auto.
Qed.

(** The cycle check of [overallOrder] finds any cycle there is. *)
Lemma overallOrder_cycle g leavesOnly :
  well_formed g → has_cycle g →
  ∃ cyclePath, overallOrder g leavesOnly = Throw (DepGraphCycleError cyclePath).
Proof.
  intros Hwf [n Hn]. unfold overallOrder.
  assert (n ∈ nodes g) as Hin.
  { inversion Hn as [? ? Hd|? k ? Hd _]; subst;
      by apply (dep_nodes g _ _ Hwf Hd). }
  case_bool_decide as Hnil.
  { rewrite Hnil in Hin. by apply elem_of_nil in Hin. }
  pose proof (DFS_all_returns_or_cycle g false (nodes g) fresh Hwf
                ltac:(auto)) as Hroc.
  destruct (for_of (DFS g false) (nodes g) fresh) as [sc|[cyclePath| |]|]
    eqn:Hfirst; simpl in *; try done.
  - apply DFS_all_done in Hfirst as (Hs & Hall & _); [|done|auto].
    destruct (topo_acyclic (outgoingEdges g) (result sc) n); auto;
      apply Hs || done.
  - by exists cyclePath.
Qed.

(** Without a cycle [overallOrder] returns every node once, each after
    all the nodes it depends on. *)
Lemma overallOrder_acyclic g :
  well_formed g → ¬ has_cycle g →
  ∃ order, overallOrder g false = Done order ∧ NoDup order ∧
           (∀ n, n ∈ order ↔ n ∈ nodes g) ∧
           topo (outgoingEdges g) order.
Proof.
  intros Hwf Hacyc. unfold overallOrder.
  case_bool_decide as Hnil.
  { exists []. rewrite Hnil. split; [done|]. split; [constructor|].
    split; [done|]. intros i n x Hi. by rewrite lookup_nil in Hi. }
  assert (∀ starts, (∀ n, n ∈ starts → n ∈ nodes g) →
            ∃ st, for_of (DFS g false) starts fresh = Done st) as Hruns.
  { intros starts Hstarts.
    pose proof (DFS_all_returns_or_cycle g false starts fresh Hwf Hstarts)
      as Hroc.
    destruct (for_of (DFS g false) starts fresh) as [st|[cyclePath| |]|]
      eqn:Hrun; simpl in Hroc; try done; [by exists st|].
    apply for_of_not_done in Hrun as (pre & x & todo & s0 & _ & _ & Hx);
      [|done].
    apply DFS_cycle_sound in Hx as (n & _ & Hn). destruct Hacyc. by exists n. }
  destruct (Hruns (nodes g) ltac:(auto)) as [sc Hfirst]. rewrite Hfirst. simpl.
  apply DFS_all_done in Hfirst as (Hsc & Hallc & Hsubc); [|done|auto].
  set (roots := filter (λ node, default [] (incomingEdges g !! node) = [])
                       (nodes g)).
  assert (∀ n, n ∈ roots → n ∈ nodes g) as Hroots.
  { intros n Hn. by apply list_elem_of_filter in Hn as [_ Hn]. }
  destruct (Hruns roots Hroots) as [st Hsecond]. rewrite Hsecond. simpl.
  apply DFS_all_done in Hsecond as (Hst & Hall & Hsub); [|done..].
  exists (result st). split; [done|]. split; [by apply Hst|].
  split; [|by apply Hst].
  intros n. split; [by apply Hsub|]. intros Hn.
  (* every node can be reached from a node nothing depends on *)
  assert (∀ k m i, result sc !! i = Some m → length (result sc) - i ≤ k →
            ∃ r, r ∈ roots ∧ rtc (dep g) r m) as Hroot.
  { induction k as [|k IH]; intros m i Hi Hk.
    { apply lookup_lt_Some in Hi. lia. }
    assert (m ∈ nodes g) as Hm.
    { apply Hsubc. by eapply list_elem_of_lookup_2. }
    destruct (proj1 (wf_in g Hwf m) Hm) as [srcs Hsrcs].
    destruct srcs as [|p srcs].
    - exists m. split; [|done]. apply list_elem_of_filter.
      split; [by rewrite Hsrcs|done].
    - assert (dep g p m) as Hd.
      { apply (wf_edges g Hwf). exists (p :: srcs). split; [done|left]. }
      destruct (dep_nodes g p m Hwf Hd) as [Hp _].
      apply Hallc, list_elem_of_lookup in Hp as [j Hj].
      destruct (sound_topo _ _ Hsc j p m Hj Hd) as (i' & Hi' & Hm').
      pose proof (NoDup_lookup _ _ _ _ (sound_nodup _ _ Hsc) Hi Hm') as <-.
      destruct (IH p j Hj) as (r & Hr & Hrp).
      { apply lookup_lt_Some in Hj. lia. }
      exists r. split; [done|]. by eapply rtc_r. }
  apply Hallc, list_elem_of_lookup in Hn as [i Hi].
  destruct (Hroot (length (result sc)) n i Hi ltac:(lia)) as (r & Hr & Hrn).
  eapply topo_closed; [apply Hst|by apply Hall|done].
Qed.

Lemma overallOrder_returns_or_cycle g leavesOnly :
  well_formed g → returns_or_cycle (overallOrder g leavesOnly).
Proof.
  intros Hwf. unfold overallOrder. case_bool_decide; [done|].
  pose proof (DFS_all_returns_or_cycle g false (nodes g) fresh Hwf
                ltac:(auto)) as H1.
  destruct (for_of (DFS g false) (nodes g) fresh) as [sc|[]|];
    simpl in *; try done.
  set (roots := filter _ (nodes g)).
  assert (∀ n, n ∈ roots → n ∈ nodes g) as Hroots.
  { intros n Hn. by apply list_elem_of_filter in Hn as [_ Hn]. }
  pose proof (DFS_all_returns_or_cycle g leavesOnly roots fresh Hwf Hroots)
    as H2.
  destruct (for_of (DFS g leavesOnly) roots fresh) as [st|[]|];
    simpl in *; done.
Qed.

(** [splice] on a list without repetition. *)
Lemma remove_first_spec node l :
  NoDup l →
  NoDup (remove_first node l) ∧
  ∀ x, x ∈ remove_first node l ↔ x ∈ l ∧ x ≠ node.
Proof.
  induction 1 as [|y l Hy Hnd IH]; simpl.
  - split; [constructor|]. intros x. rewrite elem_of_nil. tauto.
  - destruct IH as [IH1 IH2]. case_decide as Heq.
    + subst. split; [done|]. intros x. rewrite elem_of_cons.
      split; [|intros [[?|?] ?]; done].
      intros Hx. split; [by right|]. by intros ->.
    + split.
      * constructor; [|done]. rewrite IH2. tauto.
      * intros x. rewrite !elem_of_cons, IH2.
        split; [intros [->|[? ?]]; auto|]. intros [[->|?] ?]; auto.
Qed.

(** [dependenciesOf] on a node of a well-formed graph: it reports a cycle
    or returns the nodes reachable along one edge or more. *)
Lemma dependenciesOf_returns_or_cycle g node leavesOnly :
  well_formed g → node ∈ nodes g →
  returns_or_cycle (dependenciesOf g node leavesOnly).
Proof.
  intros Hwf Hn. unfold dependenciesOf, hasNode. rewrite bool_decide_true by done.
  pose proof (DFS_returns_or_cycle g leavesOnly node fresh Hwf Hn) as H.
  destruct (DFS g leavesOnly node fresh) as [st|[]|]; simpl in *; done.
Qed.

Lemma dependenciesOf_cycle g node leavesOnly cyclePath :
  dependenciesOf g node leavesOnly = Throw (DepGraphCycleError cyclePath) →
  ∃ n, rtc (dep g) node n ∧ tc (dep g) n n.
Proof.
  unfold dependenciesOf. destruct (hasNode g node); [|done].
  destruct (DFS g leavesOnly node fresh) as [st|e|] eqn:Hrun; simpl; try done.
  intros [= ->]. by apply DFS_cycle_sound in Hrun.
Qed.

Lemma dependenciesOf_done g node deps :
  dependenciesOf g node false = Done deps →
  NoDup deps ∧ (∀ d, d ∈ deps ↔ tc (dep g) node d) ∧
  (∀ n, rtc (dep g) node n → ¬ tc (dep g) n n).
Proof.
  unfold dependenciesOf. destruct (hasNode g node); [|done].
  destruct (DFS g false node fresh) as [st|e|] eqn:Hrun; simpl; try done.
  intros [= <-].
  apply DFS_done in Hrun as (Hst & Hv & new & Hres & Hnew);
    [|apply sound_fresh].
  simpl in Hres. subst new.
  assert (node ∈ result st) as Hnode by by apply Hst.
  assert (∀ n, rtc (dep g) node n → ¬ tc (dep g) n n) as Hacyc.
  { intros n Hr.
    apply (topo_acyclic _ (result st));
      [apply (sound_topo _ _ Hst)|apply (sound_nodup _ _ Hst)|].
    eapply topo_closed; [apply (sound_topo _ _ Hst)|done..]. }
  destruct (remove_first_spec node (result st) (sound_nodup _ _ Hst))
    as [Hnd Hel].
  split; [done|]. split; [|done].
  intros d. rewrite Hel. split.
  - intros [Hd Hne]. apply Hnew, rtc_tc in Hd as [->|Hd]; done.
  - intros Hd. split.
    + eapply topo_closed; [apply (sound_topo _ _ Hst)|done|by apply tc_rtc].
    + intros ->. by apply (Hacyc node).
Qed.

(** On a graph without cycles every node has its transitive dependencies
    listed. *)
Lemma dependenciesOf_acyclic g node :
  well_formed g → ¬ has_cycle g → node ∈ nodes g →
  ∃ deps, dependenciesOf g node false = Done deps ∧ NoDup deps ∧
          ∀ d, d ∈ deps ↔ tc (dep g) node d.
Proof.
  intros Hwf Hacyc Hn.
  pose proof (dependenciesOf_returns_or_cycle g node false Hwf Hn) as H.
  destruct (dependenciesOf g node false) as [deps|[cyclePath| |]|] eqn:Hd;
    simpl in H; try done.
  - exists deps. split; [done|].
    by destruct (dependenciesOf_done g node deps Hd) as (? & ? & _).
  - apply dependenciesOf_cycle in Hd as (x & _ & Hx). destruct Hacyc.
    by exists x.
Qed.

(** *** Building a graph *)

Lemma well_formed_empty : well_formed empty.
Proof.
  split; simpl.
  - constructor.
  - intros n. rewrite lookup_empty, elem_of_nil. split; [done|by intros []].
  - intros n. rewrite lookup_empty, elem_of_nil. split; [done|by intros []].
  - intros n x. unfold dep, edge. simpl. setoid_rewrite lookup_empty.
    split; by intros (? & [=] & _).
Qed.

Lemma edge_insert_nil (m : gmap string (list string)) k a b :
  m !! k = None → edge (<[k:=[]]> m) a b ↔ edge m a b.
Proof.
  intros Hk. unfold edge. destruct (decide (k = a)) as [->|Hne].
  - rewrite lookup_insert_eq, Hk. split.
    + by intros (? & [= <-] & ?%elem_of_nil).
    + by intros (? & [=] & _).
  - by rewrite lookup_insert_ne.
Qed.

Lemma well_formed_addNode g node :
  well_formed g → well_formed (addNode g node).
Proof.
  intros Hwf. unfold addNode, hasNode. case_bool_decide as Hin; [done|].
  assert (outgoingEdges g !! node = None) as Hout.
  { apply eq_None_not_Some. by rewrite <- (wf_out g Hwf). }
  assert (incomingEdges g !! node = None) as Hinc.
  { apply eq_None_not_Some. by rewrite <- (wf_in g Hwf). }
  split; simpl.
  - apply NoDup_app. split; [apply (wf_nodup g Hwf)|].
    split; [|apply NoDup_singleton].
    by intros x Hx ->%list_elem_of_singleton.
  - intros n. rewrite elem_of_app, list_elem_of_singleton, lookup_insert_is_Some,
      (wf_out g Hwf). destruct (decide (node = n)); [by split; auto|].
    split; [intros [?|?]; [by right|done]|intros [?|[_ ?]]; [done|by left]].
  - intros n. rewrite elem_of_app, list_elem_of_singleton, lookup_insert_is_Some,
      (wf_in g Hwf). destruct (decide (node = n)); [by split; auto|].
    split; [intros [?|?]; [by right|done]|intros [?|[_ ?]]; [done|by left]].
  - intros n x. unfold dep. simpl. rewrite !edge_insert_nil by done.
    apply (wf_edges g Hwf).
Qed.

Lemma nodes_addNode g node x :
  x ∈ nodes (addNode g node) ↔ x ∈ nodes g ∨ x = node.
Proof.
  unfold addNode, hasNode. case_bool_decide as Hin; simpl.
  - split; [auto|]. by intros [?| ->].
  - by rewrite elem_of_app, list_elem_of_singleton.
Qed.

Lemma elem_of_push_new x arr y : y ∈ push_new x arr ↔ y ∈ arr ∨ y = x.
Proof.
  unfold push_new. case_bool_decide as Hin.
  - split; [auto|]. by intros [?| ->].
  - by rewrite elem_of_app, list_elem_of_singleton.
Qed.

Lemma edge_alter_push (m : gmap string (list string)) k x a b :
  is_Some (m !! k) →
  edge (alter (push_new x) k m) a b ↔ edge m a b ∨ (a = k ∧ b = x).
Proof.
  intros [es Hes]. unfold edge. destruct (decide (k = a)) as [->|Hne].
  - rewrite lookup_alter_eq, Hes. simpl. split.
    + intros (? & [= <-] & [Hb| ->]%elem_of_push_new); [left|by right].
      by exists es.
    + intros [(? & [= <-] & Hb)|[_ ->]]; (eexists; split; [done|]);
        apply elem_of_push_new; auto.
  - rewrite lookup_alter_ne by done. split; [auto|].
    intros [?|[-> _]]; done.
Qed.

Lemma well_formed_addDependency g from to :
  well_formed g → from ∈ nodes g → to ∈ nodes g →
  ∃ g', addDependency g from to = Done g' ∧ well_formed g' ∧
        nodes g' = nodes g ∧
        ∀ a b, dep g' a b ↔ dep g a b ∨ (a = from ∧ b = to).
Proof.
  intros Hwf Hfrom Hto. unfold addDependency, hasNode.
  rewrite !bool_decide_true by done. simpl. eexists. split; [done|].
  assert (∀ a b, edge (alter (push_new to) from (outgoingEdges g)) a b
                 ↔ dep g a b ∨ (a = from ∧ b = to)) as Hdep.
  { intros a b. apply edge_alter_push. by apply (wf_out g Hwf). }
  split; [|done]. split; simpl.
  - apply (wf_nodup g Hwf).
  - intros n. rewrite (wf_out g Hwf), lookup_alter_is_Some. done.
  - intros n. rewrite (wf_in g Hwf), lookup_alter_is_Some. done.
  - intros a b. unfold dep. simpl. rewrite Hdep, edge_alter_push
      by by apply (wf_in g Hwf).
    rewrite (wf_edges g Hwf). tauto.
Qed.

Lemma dep_addNode g node a b :
  well_formed g → dep (addNode g node) a b ↔ dep g a b.
Proof.
  intros Hwf. unfold addNode, hasNode. case_bool_decide as Hin; [done|].
  unfold dep. simpl. apply edge_insert_nil.
  apply eq_None_not_Some. by rewrite <- (wf_out g Hwf).
Qed.

(** Every graph the code can build is well formed. *)
Lemma constructed_wf g : constructed g → wf g.
Proof.
  intros Hg. apply wf_well_formed.
  induction Hg as [|g node _ IH|g from to g' _ IH Hadd].
  - apply well_formed_empty.
  - by apply well_formed_addNode.
  - unfold addDependency in Hadd.
    destruct (hasNode g from) eqn:Hfrom; [|done].
    destruct (hasNode g to) eqn:Hto; [|done].
    apply bool_decide_eq_true in Hfrom, Hto.
    destruct (well_formed_addDependency g from to IH Hfrom Hto)
      as (g'' & Hrun & Hwf & _).
    unfold addDependency, hasNode in Hrun.
    rewrite !bool_decide_true in Hrun by done. simpl in *. congruence.
Qed.

End DepGraphLemmas.

(** ** The module dependency graph of an entity index *)

Section module_graph.
Import DepGraph DepGraphFacts DepGraphLemmas.

Lemma add_nodes_spec (ms : list (string * entity)) g :
  well_formed g →
  let g' := foldl (λ graph '(moduleId, _), addNode graph moduleId) g ms in
  well_formed g' ∧ (∀ x, x ∈ nodes g' ↔ x ∈ nodes g ∨ x ∈ ms.*1) ∧
  (∀ a b, dep g' a b ↔ dep g a b).
Proof.
  revert g. induction ms as [|[m e] ms IH]; intros g Hwf; simpl.
  - split; [done|]. split; [|done]. intros x. rewrite elem_of_nil. tauto.
  - destruct (IH (addNode g m) (well_formed_addNode g m Hwf))
      as (Hwf' & Hnodes & Hdep).
    split; [done|]. split.
    + intros x. rewrite Hnodes, nodes_addNode, elem_of_cons. tauto.
    + intros a b. rewrite Hdep. by apply dep_addNode.
Qed.

(** The graph is always built: an edge is only added between two nodes
    that exist.  Its nodes are the module ids and its edges the declared
    dependencies on known modules. *)
Lemma buildModuleDependencyGraph_spec entityIndex :
  ∃ g, buildModuleDependencyGraph entityIndex = Done g ∧
       well_formed g ∧
       (∀ x, x ∈ nodes g ↔ x ∈ (modules entityIndex).*1) ∧
       (∀ a b, dep g a b ↔ declares_dependency entityIndex a b).
Proof.
  unfold buildModuleDependencyGraph.
  destruct (add_nodes_spec (modules entityIndex) empty well_formed_empty)
    as (Hwf0 & Hnodes0 & Hdep0).
  set (g0 := foldl _ empty (modules entityIndex)) in *.
  assert (∀ x, x ∈ nodes g0 ↔ x ∈ (modules entityIndex).*1) as Hn0.
  { intros x. rewrite Hnodes0. simpl. rewrite elem_of_nil. tauto. }
  set (ids := (modules entityIndex).*1) in *.
  pose (I := λ (pre : list (string * entity)) (g : t),
    well_formed g ∧ (∀ x, x ∈ nodes g ↔ x ∈ ids) ∧
    ∀ a b, dep g a b ↔
      ∃ e, (a, e) ∈ pre ∧ b ∈ or_empty (prop e "dependencies") ∧ b ∈ ids).
  edestruct (for_of_total
    (λ '(moduleId, moduleEntity),
       add_dependency_edges entityIndex moduleId moduleEntity)
    I (modules entityIndex) g0) as (g & Hg & HI);
    [| |exists g; split; [exact Hg|exact HI]].
  - split; [done|]. split; [done|]. intros a b. rewrite Hdep0. split.
    + intros (? & Hl & _). simpl in Hl. by rewrite lookup_empty in Hl.
    + by intros (? & ?%elem_of_nil & _).
  - intros pre [m e] g1 Hme (Hwf1 & Hn1 & Hd1).
    pose (J := λ (seen : list string) (g : t),
      well_formed g ∧ (∀ x, x ∈ nodes g ↔ x ∈ ids) ∧
      ∀ a b, dep g a b ↔ dep g1 a b ∨ (a = m ∧ b ∈ seen ∧ b ∈ ids)).
    unfold add_dependency_edges.
    edestruct (for_of_total
      (λ depId graph, if has (modules entityIndex) depId
                      then addDependency graph m depId else Done graph)
      J (or_empty (prop e "dependencies")) g1)
      as (g2 & Hg2 & Hwf2 & Hn2 & Hd2).
    + split; [done|]. split; [done|]. intros a b. split; [auto|].
      by intros [?|(_ & ?%elem_of_nil & _)].
    + intros seen d g' Hd (Hwf' & Hn' & Hd'). unfold has.
      case_bool_decide as Hknown.
      * destruct (well_formed_addDependency g' m d Hwf')
          as (g'' & Hrun & Hwf'' & Hn'' & Hd'').
        { apply Hn'. apply list_elem_of_fmap. by exists (m, e). }
        { by apply Hn'. }
        exists g''. split; [done|]. split; [done|]. split.
        { intros x. by rewrite Hn''. }
        intros a b. rewrite Hd'', Hd', elem_of_app, list_elem_of_singleton.
        split; [intros [[?|(?&?&?)]|[-> ->]]; auto 6|].
        intros [?|(-> & [?| ->] & ?)]; auto 6.
      * exists g'. split; [done|]. split; [done|]. split; [done|].
        intros a b. rewrite Hd', elem_of_app, list_elem_of_singleton.
        split; [intros [?|(?&?&?)]; auto 6|].
        intros [?|(-> & [?| ->] & ?)]; auto 6. done.
    + exists g2. split; [exact Hg2|]. split; [done|]. split; [done|].
      intros a b. rewrite Hd2, Hd1. split.
      * intros [(e' & He' & Hb)|(-> & Hb & Hk)].
        -- exists e'. rewrite elem_of_app. auto.
        -- exists e. rewrite elem_of_app, list_elem_of_singleton. auto.
      * intros (e' & [He'| [= -> ->]%list_elem_of_singleton]%elem_of_app & Hb & Hk).
        -- left. by exists e'.
        -- by right.
Qed.

(** The graph of an entity index is well formed, and it has a cycle exactly
    when the declared dependencies between known modules have one. *)
Lemma buildModuleDependencyGraph_wf entityIndex :
  ∃ g, buildModuleDependencyGraph entityIndex = Done g ∧ wf g ∧
       (has_cycle g ↔ ∃ m, tc (declares_dependency entityIndex) m m).
Proof.
  destruct (buildModuleDependencyGraph_spec entityIndex)
    as (g & Hg & Hwf & _ & Hdep).
  exists g. split; [done|]. split; [by apply wf_well_formed|].
  unfold has_cycle. split; intros [m Hm]; exists m;
    by apply (tc_iff (dep g) (declares_dependency entityIndex)).
Qed.

End module_graph.

(** ** [maxBumpType] *)

(** C7. [maxBumpType] gives the same result on any two permutations of a
    list (commutativity), [maxBumpType [x; x] = maxBumpType [x]]
    (idempotence), it returns [patch] on the empty list, and on a non-empty
    list of bump levels it returns an element of the list whose priority no
    element exceeds, under the ordering [major > minor > patch]; that
    element is the only one of its priority. *)
Theorem maxBumpType_laws :
  (∀ l1 l2, l1 ≡ₚ l2 → maxBumpType l1 = maxBumpType l2) ∧
  (∀ x, maxBumpType [x; x] = maxBumpType [x]) ∧
  maxBumpType [] = "patch" ∧
  (priority "patch" < priority "minor" < priority "major") ∧
  (∀ l, l ≠ [] → Forall is_bump l →
     maxBumpType l ∈ l ∧
     (∀ b, b ∈ l → priority b ≤ priority (maxBumpType l)) ∧
     (∀ b, b ∈ l → priority b = priority (maxBumpType l) →
           b = maxBumpType l)).
Proof.
  split; [|split; [|split; [|split]]].
  - intros l1 l2 Hp. rewrite !maxBumpType_top.
    by rewrite (top_priority_Permutation l1 l2).
  - intros x. apply maxBumpType_same_elements. intros b.
    rewrite !elem_of_cons, elem_of_nil. tauto.
  - done.
  - unfold priority. simpl. lia.
  - intros l Hne Hall.
    assert (∀ b, b ∈ l → priority b ≤ priority (maxBumpType l)) as Hub.
    { intros b Hb. rewrite priority_maxBumpType.
      by apply top_priority_upper. }
    assert (∀ b, b ∈ l → priority b = priority (maxBumpType l) →
                 b = maxBumpType l) as Huniq.
    { intros b Hb Heq. rewrite Forall_forall in Hall.
      rewrite <- (bump_of_priority_priority b)
        by by apply priority_is_bump, Hall.
      rewrite Heq, priority_maxBumpType. symmetry. apply maxBumpType_top. }
    split; [|done].
    destruct (top_priority_attained l) as [H1|(b & Hb & Hp)].
    + destruct l as [|b l]; [done|].
      assert (b ∈ b :: l) as Hb by left.
      rewrite <- (Huniq b Hb); [done|].
      rewrite priority_maxBumpType, H1.
      pose proof (top_priority_upper _ _ Hb).
      rewrite Forall_forall in Hall. apply Hall, priority_is_bump in Hb. lia.
    + rewrite <- (Huniq b Hb); [done|]. by rewrite priority_maxBumpType.
Qed.

Lemma maxBumpType_laws_witness :
  maxBumpType ["minor"; "major"] = maxBumpType ["major"; "minor"] ∧
  maxBumpType ["minor"; "patch"; "minor"] ∈ ["minor"; "patch"; "minor"].
Proof.
  destruct maxBumpType_laws as (Hperm & _ & _ & _ & Hmax). split.
  - apply Hperm. apply perm_swap.
  - apply Hmax; [discriminate|].
    repeat first [apply Forall_nil | apply Forall_cons; split];
      unfold is_bump; auto.
Defined.

(** ** [calculateOntologyBump] *)

(** C6. [calculateOntologyBump] returns [maxBumpType] over the
    [changeType] of every record whatever module and bundle bumps it is
    given, and [patch] when the change list is empty or absent. *)
Theorem calculateOntologyBump_raw_changes
    (changes : list ChangeRecord)
    (moduleBumps bundleBumps moduleBumps' bundleBumps' : gmap string string) :
  calculateOntologyBump (Some changes) moduleBumps bundleBumps
    = maxBumpType (changeType <$> changes) ∧
  calculateOntologyBump (Some changes) moduleBumps bundleBumps
    = calculateOntologyBump (Some changes) moduleBumps' bundleBumps' ∧
  calculateOntologyBump (Some []) moduleBumps bundleBumps = "patch" ∧
  calculateOntologyBump None moduleBumps bundleBumps = "patch".
Proof.
  split; [|done].
  unfold calculateOntologyBump. case_bool_decide as Hlen; [|done].
  by apply nil_length_inv in Hlen as ->.
Qed.

(** ** [calculateBundleBumps] *)

Lemma elem_of_collect (bumps : gmap string string) ids x :
  x ∈ collect bumps ids ↔ ∃ id, id ∈ ids ∧ bumps !! id = Some x.
Proof. unfold collect. by rewrite list_elem_of_omap. Qed.

Lemma collect_nil (bumps : gmap string string) ids :
  collect bumps ids = [] ↔ ∀ id, id ∈ ids → bumps !! id = None.
Proof.
  split.
  - intros Hnil id Hid. destruct (bumps !! id) as [x|] eqn:Hx; [|done].
    assert (x ∈ collect bumps ids) as Hin by (apply elem_of_collect; eauto).
    rewrite Hnil in Hin. by apply elem_of_nil in Hin.
  - intros Hnone. destruct (collect bumps ids) as [|x l] eqn:Hc; [done|].
    assert (x ∈ collect bumps ids) as Hin by (rewrite Hc; left).
    apply elem_of_collect in Hin as (id & Hid & Hx).
    by rewrite (Hnone id Hid) in Hx.
Qed.

Lemma bundle_bumps_other moduleBumps l acc k :
  k ∉ l.*1 → foldl (bundle_bump_step moduleBumps) acc l !! k = acc !! k.
Proof.
  revert acc. induction l as [|[id e] l IH]; intros acc Hk; simpl; [done|].
  rewrite fmap_cons, not_elem_of_cons in Hk. destruct Hk as [Hne Hk].
  rewrite IH by done. case_bool_decide; [|done].
  by rewrite lookup_insert_ne.
Qed.

Lemma bundle_bumps_member moduleBumps l acc k e :
  NoDup l.*1 → (k, e) ∈ l →
  foldl (bundle_bump_step moduleBumps) acc l !! k
  = let bumps := collect moduleBumps (or_empty (prop e "modules")) in
    if bool_decide (0 < length bumps) then Some (maxBumpType bumps)
    else acc !! k.
Proof.
  revert acc. induction l as [|[id e'] l IH]; intros acc Hnd Hin; simpl.
  { by apply elem_of_nil in Hin. }
  rewrite fmap_cons in Hnd. apply NoDup_cons in Hnd as [Hid Hnd].
  apply elem_of_cons in Hin as [[= <- <-]|Hin].
  - rewrite bundle_bumps_other by done. simpl.
    case_bool_decide; [|done]. by rewrite lookup_insert_eq.
  - rewrite IH by done. simpl.
    assert (id ≠ k) as Hne.
    { intros ->. apply Hid. apply list_elem_of_fmap. by exists (k, e). }
    case_bool_decide; [done|]. case_bool_decide; [|done].
    by rewrite lookup_insert_ne.
Qed.

(** C8. With the bundle ids of the index distinct, [calculateBundleBumps]
    includes a bundle exactly when one of its member modules has an entry
    in the module-bump map, the bump of an included bundle is [maxBumpType]
    over the bumps of the members that have one, and nothing else is in the
    result. *)
Theorem calculateBundleBumps_spec (entityIndex : EntityIndex)
    (moduleBumps : gmap string string) :
  NoDup (bundles entityIndex).*1 →
  (∀ bundleId bundleEntity,
     (bundleId, bundleEntity) ∈ bundles entityIndex →
     let members := or_empty (prop bundleEntity "modules") in
     (is_Some (calculateBundleBumps entityIndex moduleBumps !! bundleId)
      ↔ ∃ moduleId, moduleId ∈ members ∧ is_Some (moduleBumps !! moduleId)) ∧
     (∀ bump, calculateBundleBumps entityIndex moduleBumps !! bundleId
                = Some bump →
              bump = maxBumpType (collect moduleBumps members) ∧
              ∀ x, x ∈ collect moduleBumps members
                   ↔ ∃ moduleId, moduleId ∈ members ∧
                                 moduleBumps !! moduleId = Some x)) ∧
  (∀ bundleId, bundleId ∉ (bundles entityIndex).*1 →
     calculateBundleBumps entityIndex moduleBumps !! bundleId = None).
Proof.
  intros Hnd. unfold calculateBundleBumps. split.
  - intros bundleId bundleEntity Hin.
    rewrite (bundle_bumps_member _ _ _ _ bundleEntity Hnd Hin). simpl.
    set (members := or_empty (prop bundleEntity "modules")).
    rewrite lookup_empty. split.
    + case_bool_decide as Hlen.
      * split; [intros _|by eexists].
        destruct (collect moduleBumps members) as [|x l] eqn:Hc;
          [simpl in Hlen; lia|].
        assert (x ∈ collect moduleBumps members) as Hx by (rewrite Hc; left).
        apply elem_of_collect in Hx as (id & Hid & Hx).
        exists id. by rewrite Hx.
      * split; [by intros []|]. intros (id & Hid & [x Hx]).
        assert (x ∈ collect moduleBumps members) as Hxin
          by (apply elem_of_collect; eauto).
        destruct (collect moduleBumps members); [by apply elem_of_nil in Hxin|].
        simpl in Hlen. lia.
    + intros bump. case_bool_decide; [|done]. intros [= <-].
      split; [done|]. intros x. apply elem_of_collect.
  - intros bundleId Hout. by rewrite bundle_bumps_other.
Qed.

(** ** [propagateDependencyCascade] *)

Section cascade.
Import DepGraph DepGraphFacts DepGraphLemmas.

(** C1. On a graph that contains a cycle [propagateDependencyCascade]
    returns normally, and the map it returns is the input map: no entry is
    added, removed or changed, also for modules that are on no cycle. *)
Theorem cascade_cycle_returns_input (moduleGraph : DepGraph.t)
    (moduleBumps : gmap string string) :
  wf moduleGraph → has_cycle moduleGraph →
  propagateDependencyCascade moduleGraph moduleBumps = Done moduleBumps.
Proof.
  intros Hwf%wf_well_formed Hcycle. unfold propagateDependencyCascade.
  destruct (overallOrder_cycle moduleGraph false Hwf Hcycle)
    as [cyclePath ->].
  by rewrite cycle_message_recognised.
Qed.

(** One iteration of the cascade loop, in closed form. *)
Lemma cascade_step_spec g n (mk : gmap string string) deps :
  dependenciesOf g n false = Done deps →
  cascade_step g n mk
  = Done (match collect mk deps with
          | [] => mk
          | depBumps =>
              <[n := maxBumpType (option_list (mk !! n) ++ depBumps)]> mk
          end).
Proof.
  intros Hd. unfold cascade_step. rewrite Hd. simpl.
  destruct (collect mk deps) as [|x l] eqn:Hc; [done|].
  rewrite bool_decide_true by (simpl; lia).
  destruct (mk !! n) as [c|]; simpl; [|done].
  destruct (truthy c) eqn:Hc'; do 2 f_equal.
  - exact (maxBumpType_nested c (x :: l)).
  - exact (eq_sym (maxBumpType_falsy_head c (x :: l) Hc')).
Qed.

Lemma cascade_loop_for_of g order (m m' : gmap string string) :
  for_of (cascade_step g) order m = Done m' →
  cascade_loop g order m = (m', Done ()).
Proof.
  revert m. induction order as [|n order IH]; intros m; simpl.
  - by intros [= ->].
  - destruct (cascade_step g n m) as [m1| |]; simpl; [|done..]. apply IH.
Qed.

Section acyclic.
Context (g : DepGraph.t) (m : gmap string string).
Context (Hwf : well_formed g) (Hacyc : ¬ has_cycle g).

Lemma deps_of_spec n :
  n ∈ nodes g →
  dependenciesOf g n false = Done (deps_of g n) ∧
  ∀ d, d ∈ deps_of g n ↔ tc (dep g) n d.
Proof.
  intros Hn. unfold deps_of.
  destruct (dependenciesOf_acyclic g n Hwf Hacyc Hn) as (deps & -> & _ & Hd).
  done.
Qed.

Lemma tc_dep_nodes n d : tc (dep g) n d → n ∈ nodes g ∧ d ∈ nodes g.
Proof.
  intros Htc. split.
  - inversion Htc as [? ? Hd|? k ? Hd _]; subst;
      by apply (dep_nodes g _ _ Hwf Hd).
  - induction Htc as [n d Hd|n k d _ _ IH]; [|done].
    by apply (dep_nodes g _ _ Hwf Hd).
Qed.

Lemma cascaded_is_Some d :
  is_Some (cascaded g m d)
  ↔ is_Some (m !! d) ∨ collect m (deps_of g d) ≠ [].
Proof.
  unfold cascaded. destruct (collect m (deps_of g d)) as [|x l].
  - split; [auto|]. by intros [?|?].
  - split; [by right|by eexists].
Qed.

(** The bump that reaches a module through a dependency is at least the
    input bump of the dependency and at most the maximum of what bears on
    the module. *)
Lemma cascaded_bounds n d y :
  tc (dep g) n d → cascaded g m d = Some y →
  priority y ≤ top_priority (inputs g m n) ∧
  ∀ x, m !! d = Some x → priority x ≤ priority y.
Proof.
  intros Hnd Hy.
  destruct (tc_dep_nodes n d Hnd) as [Hn Hd].
  destruct (deps_of_spec n Hn) as [_ Hdn].
  destruct (deps_of_spec d Hd) as [_ Hdd].
  assert (∀ z, z ∈ inputs g m d → z ∈ inputs g m n) as Hsub.
  { intros z [Hz|Hz]%elem_of_app; apply elem_of_app; right;
      apply elem_of_collect.
    - exists d. split; [by apply Hdn|].
      destruct (m !! d); simpl in Hz; [|by apply elem_of_nil in Hz].
      by apply list_elem_of_singleton in Hz as ->.
    - apply elem_of_collect in Hz as (d' & Hd' & Hz). exists d'.
      split; [|done]. apply Hdn. etrans; [done|]. by apply Hdd. }
  unfold cascaded in Hy.
  destruct (collect m (deps_of g d)) as [|z l] eqn:Hc.
  - split.
    + apply top_priority_upper, Hsub. unfold inputs. rewrite Hy, Hc.
      simpl. left.
    + intros x Hx. by simplify_eq.
  - simplify_eq. rewrite priority_maxBumpType. split.
    + apply top_priority_le; [apply top_priority_ge_1|].
      intros x Hx. by apply top_priority_upper, Hsub.
    + intros x Hx. apply top_priority_upper. unfold inputs. rewrite Hx.
      simpl. left.
Qed.

(** The cascade loop, run over a topological order of all nodes. *)
Lemma cascade_loop_acyclic order :
  NoDup order → (∀ n, n ∈ order → n ∈ nodes g) →
  topo (outgoingEdges g) order →
  ∃ m', for_of (cascade_step g) order m = Done m' ∧
        ∀ n, m' !! n = if decide (n ∈ order) then cascaded g m n else m !! n.
Proof.
  intros Hnd Hsub Htopo.
  pose (I := λ (pre : list string) (mk : gmap string string),
    ∀ n, mk !! n = if decide (n ∈ pre) then cascaded g m n else m !! n).
  apply (for_of_total_at (cascade_step g) I order m).
  { intros n. by rewrite decide_False by by intros ?%elem_of_nil. }
  intros pre n todo mk Horder HI.
  assert (n ∈ nodes g) as Hn.
  { apply Hsub. rewrite Horder, elem_of_app, elem_of_cons. auto. }
  destruct (deps_of_spec n Hn) as [Hrun Hdeps].
  assert (n ∉ pre) as Hfresh.
  { rewrite Horder in Hnd. apply NoDup_app in Hnd as (_ & Hnd & _).
    intros Hin. apply (Hnd n Hin). left. }
  assert (∀ d, d ∈ deps_of g n → mk !! d = cascaded g m d) as Hdone.
  { intros d Hd%Hdeps. rewrite HI.
    destruct (topo_tc _ order n d (length pre) Htopo Hd) as (j & Hj & Hjd).
    { rewrite Horder. by rewrite list_lookup_middle. }
    rewrite decide_True; [done|].
    rewrite Horder, lookup_app_l in Hjd by done.
    by eapply list_elem_of_lookup_2. }
  assert (mk !! n = m !! n) as Hown by by rewrite HI, decide_False.
  assert (collect mk (deps_of g n) = [] ↔ collect m (deps_of g n) = [])
    as Hnil.
  { rewrite !collect_nil. split; intros Hnone d Hd.
    - specialize (Hnone d Hd). rewrite (Hdone d Hd) in Hnone.
      apply eq_None_not_Some in Hnone. apply eq_None_not_Some.
      intros Hs. apply Hnone, cascaded_is_Some. by left.
    - rewrite (Hdone d Hd). apply eq_None_not_Some.
      intros [Hs|Hs]%cascaded_is_Some.
      + by rewrite (Hnone d Hd) in Hs; destruct Hs.
      + apply Hs, collect_nil. intros d' Hd'. apply Hnone, Hdeps.
        apply Hdeps in Hd. etrans; [done|].
        destruct (tc_dep_nodes n d Hd) as [_ Hdn].
        by apply (deps_of_spec d Hdn). }
  rewrite (cascade_step_spec g n mk (deps_of g n) Hrun).
  eexists. split; [done|]. intros k.
  destruct (collect mk (deps_of g n)) as [|y l] eqn:Hc.
  - (* nothing to cascade *)
    rewrite HI. destruct (decide (k = n)) as [->|Hne].
    + rewrite decide_False by done.
      rewrite decide_True by (rewrite elem_of_app, list_elem_of_singleton; auto).
      unfold cascaded. by rewrite (proj1 Hnil eq_refl).
    + destruct (decide (k ∈ pre)) as [Hk|Hk].
      * by rewrite decide_True by (rewrite elem_of_app; auto).
      * rewrite decide_False; [done|].
        rewrite elem_of_app, list_elem_of_singleton. tauto.
  - destruct (decide (k = n)) as [->|Hne].
    + rewrite lookup_insert_eq.
      rewrite decide_True by (rewrite elem_of_app, list_elem_of_singleton; auto).
      unfold cascaded.
      destruct (collect m (deps_of g n)) as [|z l'] eqn:Hcm.
      { discriminate (proj2 Hnil eq_refl). }
      f_equal. rewrite !maxBumpType_top. f_equal. rewrite <- Hc, Hown.
      apply Nat.le_antisymm.
      * apply top_priority_le; [apply top_priority_ge_1|].
        intros x [Hx|Hx]%elem_of_app.
        -- apply top_priority_upper. unfold inputs. rewrite elem_of_app. auto.
        -- apply elem_of_collect in Hx as (d & Hd & Hx).
           rewrite (Hdone d Hd) in Hx.
           by apply (cascaded_bounds n d x); [apply Hdeps|].
      * apply top_priority_le; [apply top_priority_ge_1|].
        intros x [Hx|Hx]%elem_of_app.
        -- apply top_priority_upper. rewrite elem_of_app. auto.
        -- rewrite Hcm in Hx. rewrite <- Hcm in Hx.
           apply elem_of_collect in Hx as (d & Hd & Hx).
           assert (is_Some (cascaded g m d)) as [y' Hy'].
           { apply cascaded_is_Some. left. by eexists. }
           destruct (cascaded_bounds n d y') as [_ Hle];
             [by apply Hdeps|done|].
           etrans; [by apply Hle|]. apply top_priority_upper.
           rewrite elem_of_app. right. apply elem_of_collect.
           exists d. split; [done|]. by rewrite (Hdone d Hd).
    + rewrite lookup_insert_ne by done. rewrite HI.
      destruct (decide (k ∈ pre)) as [Hk|Hk].
      * by rewrite decide_True by (rewrite elem_of_app; auto).
      * rewrite decide_False; [done|].
        rewrite elem_of_app, list_elem_of_singleton. tauto.
Qed.

End acyclic.

Lemma overallOrder_done_acyclic g order :
  wf g → overallOrder g false = Done order → ¬ has_cycle g.
Proof.
  intros Hwf%wf_well_formed Hrun Hcycle.
  destruct (overallOrder_cycle g false Hwf Hcycle) as [cyclePath Hthrow].
  congruence.
Qed.

(** C2, amended. On a graph without cycles [propagateDependencyCascade]
    returns, and if module [B] depends directly or transitively on module
    [A] whose input bump is [X], the bump of [B] in the result is
    [maxBumpType] over the input bump of [B] (when present) together with
    the input bumps of all the modules [B] depends on directly or
    transitively, [X] among them, so it is never below [X]; a module none of
    whose dependencies has an input bump keeps its input entry, and in
    particular a module with no dependencies and no entry in the input map
    is absent from the result. *)
Theorem cascade_acyclic_max_of_dependencies (moduleGraph : DepGraph.t)
    (moduleBumps : gmap string string) :
  wf moduleGraph → ¬ has_cycle moduleGraph →
  ∃ cascadedBumps,
    propagateDependencyCascade moduleGraph moduleBumps = Done cascadedBumps ∧
    (∀ A B X,
       tc (dep moduleGraph) B A → moduleBumps !! A = Some X →
       ∃ bumps,
         (∀ x, x ∈ bumps ↔
               moduleBumps !! B = Some x ∨
               ∃ A', tc (dep moduleGraph) B A' ∧ moduleBumps !! A' = Some x) ∧
         cascadedBumps !! B = Some (maxBumpType bumps) ∧
         priority X ≤ priority (maxBumpType bumps)) ∧
    (∀ B, (∀ A, tc (dep moduleGraph) B A → moduleBumps !! A = None) →
          cascadedBumps !! B = moduleBumps !! B) ∧
    (∀ B, (∀ A, ¬ dep moduleGraph B A) → moduleBumps !! B = None →
          cascadedBumps !! B = None).
Proof.
  intros Hwf%wf_well_formed Hacyc.
  destruct (overallOrder_acyclic moduleGraph Hwf Hacyc)
    as (order & Horder & Hnd & Hall & Htopo).
  destruct (cascade_loop_acyclic moduleGraph moduleBumps Hwf Hacyc order)
    as (m' & Hloop & Hm'); [done|by intros n ?%Hall|done|].
  exists m'. unfold propagateDependencyCascade.
  rewrite Horder, (cascade_loop_for_of _ _ _ _ Hloop).
  split; [done|].
  assert (∀ B, (∀ A, tc (dep moduleGraph) B A → moduleBumps !! A = None) →
               m' !! B = moduleBumps !! B) as Hkeep.
  { intros B Hnone. rewrite Hm'. case_decide as HB; [|done].
    unfold cascaded.
    rewrite (proj2 (collect_nil moduleBumps (deps_of moduleGraph B))); [done|].
    intros d Hd. apply Hnone.
    by apply (deps_of_spec moduleGraph Hwf Hacyc B); [apply Hall|]. }
  split; [|split; [done|]].
  - intros A B X HBA HX.
    destruct (tc_dep_nodes moduleGraph Hwf B A HBA) as [HB _].
    destruct (deps_of_spec moduleGraph Hwf Hacyc B HB) as [_ Hdeps].
    exists (inputs moduleGraph moduleBumps B).
    assert (X ∈ collect moduleBumps (deps_of moduleGraph B)) as HXin.
    { apply elem_of_collect. exists A. split; [by apply Hdeps|done]. }
    split; [|split].
    + intros x. unfold inputs. rewrite elem_of_app, elem_of_collect.
      setoid_rewrite Hdeps.
      destruct (moduleBumps !! B) as [b|]; simpl.
      * rewrite list_elem_of_singleton.
        split; (intros [Hx|Hx]; [left; congruence|by right]).
      * rewrite elem_of_nil. split; (intros [Hx|Hx]; [done|by right]).
    + rewrite Hm', decide_True by by apply Hall.
      unfold cascaded.
      destruct (collect moduleBumps (deps_of moduleGraph B)); [|done].
      by apply elem_of_nil in HXin.
    + rewrite priority_maxBumpType. apply top_priority_upper.
      unfold inputs. rewrite elem_of_app. by right.
  - intros B Hnodeps HB. rewrite Hkeep; [done|].
    intros A HBA. destruct (Hnodeps A).
    inversion HBA as [? ? Hd|? k ? Hd _]; subst; [done|].
    by destruct (Hnodeps k).
Qed.

(** The cascade returns on every graph: with a cycle by way of the [catch]
    clause, without one because no call inside the loop throws. *)
Lemma propagateDependencyCascade_total g (m : gmap string string) :
  wf g → ∃ m', propagateDependencyCascade g m = Done m'.
Proof.
  intros Hwf. pose proof Hwf as Hwf'%wf_well_formed.
  pose proof (overallOrder_returns_or_cycle g false Hwf') as Hroc.
  destruct (overallOrder g false) as [order|[cyclePath| |]|] eqn:Horder;
    simpl in Hroc; try done.
  - pose proof (overallOrder_done_acyclic g order Hwf Horder) as Hacyc.
    destruct (overallOrder_acyclic g Hwf' Hacyc)
      as (order' & Horder' & Hnd & Hall & Htopo).
    assert (order' = order) as -> by congruence.
    destruct (cascade_loop_acyclic g m Hwf' Hacyc order)
      as (m' & Hloop & _); [done|by intros n ?%Hall|done|].
    exists m'. unfold propagateDependencyCascade.
    by rewrite Horder, (cascade_loop_for_of _ _ _ _ Hloop).
  - exists m. unfold propagateDependencyCascade.
    by rewrite Horder, cycle_message_recognised.
Qed.

End cascade.

Module CascadeTests.
Import DepGraph DepGraphFacts DepGraphLemmas Examples.

Example chain_order : overallOrder chain false = Done ["Core"; "Lab"; "Analysis"].
Proof. vm_compute. reflexivity. Qed.

Example chain_deps : dependenciesOf chain "Analysis" false = Done ["Core"; "Lab"].
Proof. vm_compute. reflexivity. Qed.

Example loop_order :
  overallOrder loop false
  = Throw (DepGraphCycleError ["Core"; "Analysis"; "Lab"; "Core"]).
Proof. vm_compute. reflexivity. Qed.

Example loop_message :
  includes (message (DepGraphCycleError ["Core"; "Analysis"; "Lab"; "Core"]))
           "Dependency Cycle Found" = true.
Proof. vm_compute. reflexivity. Qed.

Lemma loop_wf : wf loop.
Proof. apply (bool_decide_unpack _). vm_compute. exact I. Defined.

Lemma loop_has_cycle : has_cycle loop.
Proof.
  exists "Core".
  apply (tc_l _ _ "Analysis"); [|apply (tc_l _ _ "Lab"); [|apply tc_once]];
    (eexists; split; [vm_compute; reflexivity|by left]).
Defined.

Lemma cascade_cycle_returns_input_witness :
  propagateDependencyCascade loop {["Core" := "major"]}
  = Done {["Core" := "major"]}.
Proof.
  apply cascade_cycle_returns_input; [exact loop_wf|exact loop_has_cycle].
Defined.

Lemma chain_wf : wf chain.
Proof. apply (bool_decide_unpack _). vm_compute. exact I. Defined.

Lemma chain_acyclic : ¬ has_cycle chain.
Proof.
  apply (overallOrder_done_acyclic chain ["Core"; "Lab"; "Analysis"] chain_wf).
  vm_compute. reflexivity.
Defined.

Lemma cascade_acyclic_max_of_dependencies_witness :
  ∃ cascadedBumps,
    propagateDependencyCascade chain {["Core" := "major"]} = Done cascadedBumps ∧
    cascadedBumps !! "Analysis" = Some "major".
Proof.
  destruct (cascade_acyclic_max_of_dependencies chain {["Core" := "major"]}
              chain_wf chain_acyclic) as (cascadedBumps & Hrun & _).
  exists cascadedBumps. split; [exact Hrun|].
  vm_compute in Hrun. injection Hrun as <-. vm_compute. reflexivity.
Defined.

Lemma fork_wf : wf fork.
Proof. apply (bool_decide_unpack _). vm_compute. exact I. Defined.

Lemma fork_acyclic : ¬ has_cycle fork.
Proof.
  apply (overallOrder_done_acyclic fork ["A"; "C"; "B"] fork_wf).
  vm_compute. reflexivity.
Defined.

Lemma fork_result :
  propagateDependencyCascade fork (<["A" := "patch"]> {["C" := "major"]})
  = Done (<["B" := "major"]> (<["A" := "patch"]> {["C" := "major"]})).
Proof. vm_compute. reflexivity. Qed.

(** C2 as stated fails: with [B] depending on [A] (input [patch]) and on
    [C] (input [major]), the bump of [B] after the cascade is [major], not
    [maxBumpType [patch]]. *)
Lemma cascade_single_dependency_counterexample :
  ¬ (∀ (g : DepGraph.t) (m m' : gmap string string) (A B X : string),
       wf g → ¬ has_cycle g →
       tc (dep g) B A → m !! A = Some X →
       propagateDependencyCascade g m = Done m' →
       m' !! B = Some (maxBumpType (option_list (m !! B) ++ [X]))).
Proof.
  intros Hclaim.
  assert (tc (dep fork) "B" "A") as Hdep.
  { apply tc_once. eexists. split; [vm_compute; reflexivity|by left]. }
  pose proof (Hclaim fork (<["A" := "patch"]> {["C" := "major"]}) _
                "A" "B" "patch" fork_wf fork_acyclic Hdep
                eq_refl fork_result) as Hfalse.
  vm_compute in Hfalse. discriminate Hfalse.
Qed.

End CascadeTests.

(** ** [validateReferences] *)

Section validator.
Import DepGraph DepGraphFacts DepGraphLemmas.

(** The reverse index only maps to ids of modules of the index. *)
Lemma buildReverseModuleIndex_values entityIndex k m :
  buildReverseModuleIndex entityIndex !! k = Some m →
  m ∈ (modules entityIndex).*1.
Proof.
  unfold buildReverseModuleIndex. revert k m.
  apply (foldl_preserves _
    (λ rev : gmap string string,
       ∀ k m, rev !! k = Some m → m ∈ (modules entityIndex).*1)).
  { intros k m. by rewrite lookup_empty. }
  intros rev [moduleId moduleEntity] Hin Hrev.
  assert (moduleId ∈ (modules entityIndex).*1) as Hid.
  { apply list_elem_of_fmap. by exists (moduleId, moduleEntity). }
  apply foldl_preserves; [done|]. intros rev1 entityType _ Hrev1.
  apply foldl_preserves; [done|]. intros rev2 entityId _ Hrev2 k m.
  destruct (decide (key entityType entityId = k)) as [->|Hne].
  - rewrite lookup_insert_eq. by intros [= <-].
  - rewrite lookup_insert_ne by done. apply Hrev2.
Qed.

Lemma elem_of_scope (moduleId : string) deps x :
  x ∈ foldl (λ (scope : gset string) dep, scope ∪ {[dep]}) {[moduleId]} deps
  ↔ x = moduleId ∨ x ∈ deps.
Proof.
  assert (∀ (s : gset string),
            x ∈ foldl (λ (scope : gset string) dep, scope ∪ {[dep]}) s deps
            ↔ x ∈ s ∨ x ∈ deps) as Hgen.
  { induction deps as [|d deps IH]; intros s; simpl.
    - rewrite elem_of_nil. tauto.
    - rewrite IH, elem_of_union, elem_of_singleton, elem_of_cons. tauto. }
  rewrite Hgen, elem_of_singleton. done.
Qed.

(** [getModuleScope] never rethrows on a module of the graph: it returns
    the module with all it reaches, or [null] when a cycle can be reached
    from the module. *)
Lemma getModuleScope_spec g moduleId :
  well_formed g → moduleId ∈ nodes g →
  (∃ scope, getModuleScope g moduleId = Done (Some scope) ∧
            (∀ x, x ∈ scope ↔ rtc (dep g) moduleId x) ∧
            (∀ n, rtc (dep g) moduleId n → ¬ tc (dep g) n n)) ∨
  (getModuleScope g moduleId = Done None ∧
   ∃ n, rtc (dep g) moduleId n ∧ tc (dep g) n n).
Proof.
  intros Hwf Hn. unfold getModuleScope.
  pose proof (dependenciesOf_returns_or_cycle g moduleId false Hwf Hn) as H.
  destruct (dependenciesOf g moduleId false) as [deps|[cyclePath| |]|] eqn:Hd;
    simpl in H; try done.
  - left. eexists. split; [done|].
    destruct (dependenciesOf_done g moduleId deps Hd) as (_ & Hdeps & Hacyc).
    split; [|done]. intros x.
    rewrite elem_of_scope, Hdeps, rtc_tc. split; intros [->|?]; auto.
  - right. rewrite cycle_message_recognised. split; [done|].
    by apply dependenciesOf_cycle in Hd.
Qed.

Lemma push_errors_nil out : push_errors [] out = out.
Proof. destruct out. unfold push_errors. simpl. by rewrite app_nil_r. Qed.

Lemma push_errors_app new1 new2 out :
  push_errors new2 (push_errors new1 out) = push_errors (new1 ++ new2) out.
Proof. unfold push_errors. simpl. by rewrite app_assoc. Qed.

(** A loop whose body only pushes errors pushes them all, in order. *)
Lemma for_of_push {A} (body : A → findings → outcome findings)
    (new : A → list RefError) xs out :
  (∀ x out, x ∈ xs → body x out = Done (push_errors (new x) out)) →
  for_of body xs out = Done (push_errors (flat_map new xs) out).
Proof.
  revert out. induction xs as [|x xs IH]; intros out Hbody; simpl.
  - by rewrite push_errors_nil.
  - rewrite Hbody by left. simpl. rewrite IH.
    + by rewrite push_errors_app.
    + intros y out' Hy. apply Hbody. by right.
Qed.

Lemma check_ref_pushes entityIndex rev src fieldName targetType refId out :
  is_Some (index entityIndex targetType) →
  check_ref entityIndex rev src fieldName targetType refId out
  = Done (push_errors
            (ref_errors entityIndex rev src fieldName targetType refId) out) ∧
  length (ref_errors entityIndex rev src fieldName targetType refId) ≤ 1.
Proof.
  intros [targetIndex Hindex]. unfold ref_errors, check_ref. rewrite Hindex.
  repeat match goal with
         | |- context [if ?b then _ else _] => destruct b; simpl
         | |- context [match ?o with Some _ => _ | None => _ end] =>
             destruct o; simpl
         end;
    rewrite ?push_errors_nil; (split; [reflexivity|simpl; lia]).
Qed.

(** Every entity type and target type of [REFERENCE_FIELDS] is a key of the
    entity index. *)
Lemma REFERENCE_FIELDS_indexed entityIndex :
  Forall (λ '(entityType, fieldMap),
            is_Some (index entityIndex entityType) ∧
            Forall (λ '(_, targetType),
                      is_Some (index entityIndex targetType))
                   (fieldMap : list (string * string)))
         REFERENCE_FIELDS.
Proof.
  unfold REFERENCE_FIELDS.
  repeat first [apply Forall_nil | apply Forall_cons; split | split];
    by eexists.
Qed.

Lemma resolve_source_total entityIndex g entityType entityId e :
  buildModuleDependencyGraph entityIndex = Done g →
  let rev := buildReverseModuleIndex entityIndex in
  resolve_source g rev entityType entityId e
  = Done (source_of g rev entityType entityId e).
Proof.
  intros Hg rev. unfold resolve_source, source_of.
  destruct (buildModuleDependencyGraph_spec entityIndex)
    as (g' & Hg' & Hwf & Hnodes & _).
  assert (g' = g) as -> by congruence.
  destruct (rev !! key entityType entityId) as [m|] eqn:Hm; [|done].
  destruct (truthy m && scopeCheckTypes entityType); [|done].
  apply buildReverseModuleIndex_values, Hnodes in Hm.
  by destruct (getModuleScope_spec g m Hwf Hm) as [(scope & -> & _)|[-> _]].
Qed.

Lemma check_entity_pushes entityIndex rev src fieldMap out :
  Forall (λ '(_, targetType), is_Some (index entityIndex targetType))
         (fieldMap : list (string * string)) →
  check_entity entityIndex rev src fieldMap out
  = Done (push_errors (entity_errors entityIndex rev src fieldMap) out).
Proof.
  intros Hfields. unfold check_entity, entity_errors.
  apply (for_of_push
    (λ '(fieldName, targetType) out,
       for_of (check_ref entityIndex rev src fieldName targetType)
              (normalizeToArray (prop (src_entity src) fieldName)) out)
    (λ '(fieldName, targetType),
       flat_map (ref_errors entityIndex rev src fieldName targetType)
                (normalizeToArray (prop (src_entity src) fieldName)))).
  intros [fieldName targetType] out' Hin.
  rewrite Forall_forall in Hfields. specialize (Hfields _ Hin). simpl in Hfields.
  apply for_of_push. intros refId out'' _.
  by apply check_ref_pushes.
Qed.

(** The validator always returns, with the errors of every reference. *)
Lemma validateReferences_spec entityIndex :
  ∃ g, buildModuleDependencyGraph entityIndex = Done g ∧
       validateReferences entityIndex
       = Done {| errors := all_errors entityIndex g; warnings := [] |}.
Proof.
  destruct (buildModuleDependencyGraph_spec entityIndex) as (g & Hg & _).
  exists g. split; [done|]. unfold validateReferences. rewrite Hg.
  cbn [bind].
  set (rev := buildReverseModuleIndex entityIndex).
  set (out0 := {| errors := []; warnings := [] |}).
  change {| errors := all_errors entityIndex g; warnings := [] |}
    with (push_errors (all_errors entityIndex g) out0).
  unfold all_errors. fold rev.
  apply (for_of_push
    (λ '(entityType, fieldMap) out,
       match index entityIndex entityType with
       | Some entities =>
           for_of (λ '(entityId, e) out,
                     let* src := resolve_source g rev entityType entityId e in
                     check_entity entityIndex rev src fieldMap out)
                  entities out
       | None => Throw (TypeError "Symbol(Symbol.iterator)")
       end)
    (λ '(entityType, fieldMap),
       flat_map (λ '(entityId, e),
                   entity_errors entityIndex rev
                     (source_of g rev entityType entityId e) fieldMap)
                (default [] (index entityIndex entityType)))).
  intros [entityType fieldMap] out Hin.
  pose proof (REFERENCE_FIELDS_indexed entityIndex) as Hall.
  rewrite Forall_forall in Hall.
  destruct (Hall _ Hin) as [[entities Hentities] Hfields].
  rewrite Hentities. simpl.
  apply (for_of_push
    (λ '(entityId, e) out,
       let* src := resolve_source g rev entityType entityId e in
       check_entity entityIndex rev src fieldMap out)
    (λ '(entityId, e),
       entity_errors entityIndex rev
         (source_of g rev entityType entityId e) fieldMap)).
  intros [entityId e] out' _.
  pose proof (resolve_source_total entityIndex g entityType entityId e Hg)
    as Hsrc.
  cbv zeta in Hsrc. fold rev in Hsrc. rewrite Hsrc.
  cbn [bind]. by apply check_entity_pushes.
Qed.


Lemma truthy_module_id entityIndex k m :
  EmptyString ∉ (modules entityIndex).*1 →
  buildReverseModuleIndex entityIndex !! k = Some m →
  truthy m = true.
Proof.
  intros Hne Hm%buildReverseModuleIndex_values. unfold truthy.
  apply negb_true_iff, bool_decide_eq_false. by intros ->.
Qed.

(** C10. [validateReferences] returns for every entity index, and the
    warnings list it returns is empty. *)
Theorem validateReferences_no_warnings (entityIndex : EntityIndex) :
  ∃ out, validateReferences entityIndex = Done out ∧ warnings out = [].
Proof.
  destruct (validateReferences_spec entityIndex) as (g & _ & ->).
  by eexists.
Qed.




End validator.

(** ** [calculateNewVersion] *)

Lemma split_without_sep sep s :
  occurs sep s = false → split sep s = [s].
Proof.
  induction s as [|c s IH]; simpl; [done|].
  intros [Hc Hs]%orb_false_iff. apply bool_decide_eq_false in Hc.
  rewrite decide_False by done. by rewrite IH.
Qed.

Lemma split_at_sep sep s rest :
  occurs sep s = false →
  split sep (s +:+ String sep rest) = s :: split sep rest.
Proof.
  induction s as [|c s IH]; simpl.
  - intros _. by rewrite decide_True.
  - intros [Hc Hs]%orb_false_iff. apply bool_decide_eq_false in Hc.
    rewrite decide_False by done. by rewrite IH.
Qed.

Lemma print_number_no_dot n : occurs "." (print_number n) = false.
Proof.
  unfold print_number, DecimalString.NilZero.string_of_uint.
  assert (∀ d, occurs "." (DecimalString.NilEmpty.string_of_uint d) = false)
    as Hdigits by (induction d; simpl; auto).
  destruct (Nat.to_uint n); auto.
Qed.

Lemma parse_print_number n : parse_number (print_number n) = Some n.
Proof.
  unfold parse_number, print_number.
  rewrite DecimalString.NilZero.usu.
  - simpl. by rewrite DecimalNat.Unsigned.of_to.
  - intros Hnil. pose proof (f_equal Nat.of_uint Hnil) as H0.
    rewrite DecimalNat.Unsigned.of_to in H0. simpl in H0. subst n.
    discriminate Hnil.
Qed.

(** Printing a version and parsing it back gives the version. *)
Lemma parse_print_version major minor patch :
  parse_version (print_version (major, minor, patch))
  = Some (major, minor, patch).
Proof.
  unfold parse_version, print_version.
  change (print_number major +:+ "." +:+ print_number minor +:+ "."
          +:+ print_number patch)
    with (print_number major +:+
            String "." (print_number minor +:+ String "." (print_number patch))).
  rewrite !split_at_sep, split_without_sep by apply print_number_no_dot.
  by rewrite !parse_print_number.
Qed.

(** C9. On a version that parses as three dot-separated non-negative
    integers [calculateNewVersion] returns the version with the major
    component incremented and minor and patch zeroed for [major], with the
    minor component incremented and patch zeroed for [minor], with the
    patch component incremented for [patch] (so ["1.2.3"] gives ["1.2.4"],
    ["1.3.0"] and ["2.0.0"]); it returns the failure value when the version
    does not parse, is absent, or the bump type is absent or not one of
    the three. *)
Theorem calculateNewVersion_spec :
  (∀ version major minor patch,
     parse_version version = Some (major, minor, patch) →
     calculateNewVersion (Some version) (Some "major")
       = Some (print_version (major + 1, 0, 0)) ∧
     calculateNewVersion (Some version) (Some "minor")
       = Some (print_version (major, minor + 1, 0)) ∧
     calculateNewVersion (Some version) (Some "patch")
       = Some (print_version (major, minor, patch + 1))) ∧
  (∀ major minor patch,
     parse_version (print_version (major, minor, patch))
     = Some (major, minor, patch)) ∧
  calculateNewVersion (Some "1.2.3") (Some "patch") = Some "1.2.4" ∧
  calculateNewVersion (Some "1.2.3") (Some "minor") = Some "1.3.0" ∧
  calculateNewVersion (Some "1.2.3") (Some "major") = Some "2.0.0" ∧
  calculateNewVersion (Some "invalid") (Some "patch") = None ∧
  (∀ version bumpType,
     parse_version version = None →
     calculateNewVersion (Some version) bumpType = None) ∧
  (∀ bumpType, calculateNewVersion None bumpType = None) ∧
  (∀ version, calculateNewVersion version None = None) ∧
  (∀ version bumpType,
     ¬ is_bump bumpType →
     calculateNewVersion version (Some bumpType) = None).
Proof.
  split; [|split; [apply parse_print_version|]].
  { intros version major minor patch Hparse. unfold calculateNewVersion.
    rewrite Hparse. simpl. by rewrite !Nat.add_1_r. }
  do 4 (split; [reflexivity|]).
  split; [|split; [done|split; [by intros []|]]].
  - intros version bumpType Hfail. unfold calculateNewVersion.
    destruct bumpType; [|done]. by rewrite Hfail.
  - intros version bumpType Hbump. unfold calculateNewVersion, is_bump in *.
    destruct version as [version|]; [|done].
    destruct (parse_version version) as [[[major minor] patch]|]; [|done].
    repeat case_decide; tauto.
Qed.

Lemma calculateNewVersion_spec_witness :
  calculateNewVersion (Some "10.0.9") (Some "minor") = Some "10.1.0" ∧
  calculateNewVersion (Some "1..3") (Some "patch") = None ∧
  calculateNewVersion (Some "1.2.3") (Some "premajor") = None.
Proof.
  destruct calculateNewVersion_spec
    as (Hbump & _ & _ & _ & _ & _ & Hparse & _ & _ & Hunknown).
  split; [|split].
  - by destruct (Hbump "10.0.9" 10 0 9 eq_refl) as (_ & -> & _).
  - by apply Hparse.
  - apply Hunknown. unfold is_bump. intros [H|[H|H]]; discriminate H.
Defined.

(** ** [calculateModuleBumps] *)

Ltac push_append :=
  repeat match goal with
         | |- context [String ?a ?x +:+ ?y] =>
             change (String a x +:+ y) with (String a (x +:+ y))
         | |- context [EmptyString +:+ ?y] =>
             change (EmptyString +:+ y) with y
         end.

Lemma occurs_app c s1 s2 :
  occurs c (s1 +:+ s2) = occurs c s1 || occurs c s2.
Proof.
  induction s1 as [|a s1 IH]; push_append; simpl; [done|].
  by rewrite IH, orb_assoc.
Qed.

Lemma prefix_json_extend c s :
  String.prefix ".json" (String c s) = false →
  String.prefix ".json" (String c (s +:+ ".json")) = false.
Proof.
  destruct s as [|c1 [|c2 [|c3 [|c4 s]]]]; push_append; cbn -[ascii_dec];
    repeat (destruct (ascii_dec _ _) as [<-|?]; cbn -[ascii_dec]; try done);
    by destruct s.
Qed.

(** Removing the first [.json] removes the extension when the id holds no
    [.json] of its own. *)
Lemma replace_json_suffix id :
  includes id ".json" = false →
  replace ".json" EmptyString (id +:+ ".json") = id.
Proof.
  induction id as [|c id IH]; [done|].
  intros [Hp Hi]%orb_false_iff. push_append.
  cbn [replace]. rewrite (prefix_json_extend c id Hp). by rewrite IH.
Qed.

(** For a file [<entityType>/<id>.json] whose id has no [/] and no [.json]
    in it, the derived key is that of the entity. *)
Lemma change_key_flat ty id ety ct :
  occurs "/" ty = false → occurs "/" id = false →
  includes id ".json" = false →
  change_key {| file := ty +:+ "/" +:+ id +:+ ".json";
                entityType := ety; changeType := ct |}
  = key ty id.
Proof.
  intros Hty Hid Hjson. unfold change_key. cbn [file].
  change (ty +:+ "/" +:+ id +:+ ".json")
    with (ty +:+ String "/" (id +:+ ".json")).
  rewrite split_at_sep by done.
  rewrite split_without_sep by (by rewrite occurs_app, Hid).
  cbn [hd List.last]. by rewrite replace_json_suffix.
Qed.

Lemma foldl_invariant {A B} (f : B → A → B) (I : list A → B → Prop) l b :
  I [] b →
  (∀ pre x b0, x ∈ l → I pre b0 → I (pre ++ [x]) (f b0 x)) →
  I l (foldl f b l).
Proof.
  intros H0 Hstep.
  assert (∀ todo pre b0, pre ++ todo = l → I pre b0 →
            I l (foldl f b0 todo)) as Hgen.
  { induction todo as [|x todo IH]; intros pre b0 Heq HI; simpl.
    - rewrite app_nil_r in Heq. by subst.
    - apply (IH (pre ++ [x])); [by rewrite <- app_assoc|].
      apply Hstep; [|done]. rewrite <- Heq, elem_of_app, elem_of_cons. auto. }
  by apply (Hgen l [] b).
Qed.

Lemma is_bump_maxBumpType l : is_bump (maxBumpType l).
Proof.
  apply priority_is_bump. rewrite priority_maxBumpType.
  apply top_priority_ge_1.
Qed.

Lemma maxBumpType_singleton b : is_bump b → maxBumpType [b] = b.
Proof.
  intros Hb%priority_is_bump. rewrite maxBumpType_top.
  rewrite <- (bump_of_priority_priority b) at 2 by done.
  f_equal. unfold top_priority. simpl. lia.
Qed.

Lemma truthy_is_bump b : is_bump b → truthy b = true.
Proof. by intros [->|[->| ->]]. Qed.

Lemma maxBumpType_snoc l b :
  maxBumpType [maxBumpType l; b] = maxBumpType (l ++ [b]).
Proof.
  rewrite (maxBumpType_top [_; _]), (maxBumpType_top (l ++ [b])). f_equal.
  rewrite top_priority_app.
  change (top_priority [maxBumpType l; b])
    with (priority (maxBumpType l) `max` (priority b `max` 1)).
  change (top_priority [b]) with (priority b `max` 1).
  rewrite priority_maxBumpType. lia.
Qed.

(** With module ids that are non-empty strings and change types that are
    bump levels, the bump of a module is [maxBumpType] over the records
    whose derived key it owns; a module that owns none has no bump. *)
Lemma calculateModuleBumps_owned entityIndex changes M :
  EmptyString ∉ (modules entityIndex).*1 →
  Forall (λ change, is_bump (changeType change)) changes →
  calculateModuleBumps entityIndex changes !! M
  = aggregate (owned_by (buildReverseModuleIndex entityIndex) M changes).
Proof.
  intros Hids Hbumps. unfold calculateModuleBumps.
  set (rev := buildReverseModuleIndex entityIndex). revert M.
  apply (foldl_invariant (module_bump_step rev)
    (λ pre (acc : gmap string string),
       ∀ M, acc !! M = aggregate (owned_by rev M pre))).
  { intros M. by rewrite lookup_empty. }
  intros pre c acc Hc HI M. unfold owned_by. rewrite filter_app.
  fold (owned_by rev M pre). unfold module_bump_step.
  rewrite Forall_forall in Hbumps. specialize (Hbumps c Hc). simpl in Hbumps.
  destruct (rev !! change_key c) as [M0|] eqn:Howner.
  - rewrite (truthy_module_id entityIndex _ M0 Hids Howner). simpl.
    destruct (decide (M0 = M)) as [->|Hne].
    + rewrite filter_cons_True, filter_nil by done.
      rewrite (HI M).
      destruct (owned_by rev M pre) as [|o os] eqn:Ho; cbn -[maxBumpType].
      * rewrite lookup_insert_eq. by rewrite maxBumpType_singleton.
      * rewrite truthy_is_bump by apply is_bump_maxBumpType.
        rewrite lookup_insert_eq. f_equal.
        rewrite (maxBumpType_snoc (changeType o :: (changeType <$> os))).
        by rewrite fmap_app.
    + rewrite filter_cons_False, filter_nil, app_nil_r by congruence.
      destruct (acc !! M0) as [ex|]; [destruct (truthy ex)|];
        by rewrite lookup_insert_ne.
  - rewrite filter_cons_False, filter_nil, app_nil_r by congruence. apply HI.
Qed.

Section cascade_entry.
Import DepGraph DepGraphFacts DepGraphLemmas.

(** The entry point always returns, and the records it reports as orphans
    are those whose derived key has no owner. *)
Lemma calculateVersionCascade_total entityIndex changes :
  ∃ r, calculateVersionCascade entityIndex changes = Done r ∧
       orphanChanges_of r
       = filter (λ change,
                   buildReverseModuleIndex entityIndex !! change_key change
                   = None) changes.
Proof.
  unfold calculateVersionCascade. case_bool_decide as Hlen.
  { apply nil_length_inv in Hlen as ->. by eexists. }
  destruct (buildModuleDependencyGraph_spec entityIndex)
    as (g & -> & Hwf%wf_well_formed & _).
  cbn [bind].
  destruct (propagateDependencyCascade_total g
              (calculateModuleBumps entityIndex changes) Hwf) as [m' ->].
  cbn [bind]. by eexists.
Qed.

End cascade_entry.

(** ** More on the reverse index, the module graph and the scope *)

Section reverse_index.
Import DepGraph DepGraphFacts DepGraphLemmas.

Lemma elem_of_flat_map {A B} (f : A → list B) l y :
  y ∈ flat_map f l ↔ ∃ x, x ∈ l ∧ y ∈ f x.
Proof.
  rewrite list_elem_of_In, in_flat_map.
  split; intros (x & Hx & Hy); exists x; split; by apply list_elem_of_In.
Qed.

(** The colon keeps the keys of different member types apart. *)
Lemma key_inj ty id ty' id' :
  ty ∈ ENTITY_TYPES → ty' ∈ ENTITY_TYPES →
  key ty id = key ty' id' → ty = ty' ∧ id = id'.
Proof.
  unfold ENTITY_TYPES. rewrite !elem_of_cons, !elem_of_nil.
  intros [->|[->|[->|[->|[]]]]] [->|[->|[->|[->|[]]]]] H;
    vm_compute in H; try discriminate H; by injection H as ->.
Qed.

Lemma elem_of_member_keys e k :
  k ∈ member_keys e
  ↔ ∃ ty id, k = key ty id ∧ ty ∈ ENTITY_TYPES ∧ id ∈ or_empty (prop e ty).
Proof.
  unfold member_keys. rewrite elem_of_flat_map. split.
  - intros (ty & Hty & (id & -> & Hid)%list_elem_of_fmap). exists ty, id. auto.
  - intros (ty & id & -> & Hty & Hid). exists ty. split; [done|].
    apply list_elem_of_fmap. by exists id.
Qed.

Lemma key_member_keys e ty id :
  ty ∈ ENTITY_TYPES →
  key ty id ∈ member_keys e ↔ id ∈ or_empty (prop e ty).
Proof.
  intros Hty. rewrite elem_of_member_keys. split.
  - intros (ty' & id' & Hk & Hty' & Hid).
    by destruct (key_inj ty id ty' id' Hty Hty' Hk) as [-> ->].
  - intros Hid. exists ty, id. auto.
Qed.

(** The two inner loops of [buildReverseModuleIndex]: the keys of the
    module's members now map to the module, the others are as before. *)
Lemma index_members_lookup (m : string) e (rev : gmap string string) k :
  foldl (λ rev entityType,
           foldl (λ rev entityId, <[key entityType entityId := m]> rev)
                 rev (or_empty (prop e entityType)))
        rev ENTITY_TYPES !! k
  = if decide (k ∈ member_keys e) then Some m else rev !! k.
Proof.
  unfold member_keys. generalize ENTITY_TYPES. intros tys. revert rev.
  induction tys as [|ty tys IH]; intros rev; cbn [foldl flat_map].
  { by rewrite decide_False by by intros ?%elem_of_nil. }
  rewrite IH. clear IH.
  assert (∀ ids (acc : gmap string string),
            foldl (λ rev entityId, <[key ty entityId := m]> rev) acc ids !! k
            = if decide (k ∈ key ty <$> ids) then Some m else acc !! k) as Hids.
  { induction ids as [|id ids IHids]; intros acc; cbn [foldl fmap list_fmap].
    - by rewrite decide_False by by intros ?%elem_of_nil.
    - rewrite IHids. destruct (decide (k = key ty id)) as [->|Hne].
      + rewrite lookup_insert_eq.
        rewrite (decide_True (P := _ ∈ _ :: _)) by left. by case_decide.
      + rewrite lookup_insert_ne by done.
        case_decide as H1; case_decide as H2; try done;
          rewrite elem_of_cons in H2; tauto. }
  rewrite Hids.
  repeat case_decide; try done;
    match goal with H : ¬ _ ∈ _ ++ _ |- _ => rewrite elem_of_app in H; tauto
                  | H : _ ∈ _ ++ _ |- _ => rewrite elem_of_app in H; tauto end.
Qed.

(** The entry of a key is the last module, in the order of the index, that
    lists it. *)
Lemma buildReverseModuleIndex_lookup idx k m :
  buildReverseModuleIndex idx !! k = Some m
  ↔ ∃ pre e post, modules idx = pre ++ (m, e) :: post ∧
       k ∈ member_keys e ∧ ∀ m' e', (m', e') ∈ post → k ∉ member_keys e'.
Proof.
  unfold buildReverseModuleIndex. generalize (modules idx). intros ms.
  induction ms as [|[m0 e0] ms IH] using rev_ind.
  { cbn [foldl]. rewrite lookup_empty. split; [done|].
    intros (pre & e & post & Heq & _). by destruct pre. }
  rewrite foldl_app. cbn [foldl]. rewrite index_members_lookup.
  case_decide as Hk.
  - split.
    + intros [= <-]. exists ms, e0, []. split; [done|]. split; [done|].
      by intros ? ? ?%elem_of_nil.
    + intros (pre & e & post & Heq & Hin & Hlast).
      destruct post as [|p post _] using rev_ind.
      * apply app_inj_tail in Heq as [_ [= -> ->]]. done.
      * rewrite app_comm_cons, app_assoc in Heq.
        apply app_inj_tail in Heq as [_ <-].
        destruct (Hlast m0 e0); [|done].
        rewrite elem_of_app, list_elem_of_singleton. auto.
  - rewrite IH. split.
    + intros (pre & e & post & -> & Hin & Hlast).
      exists pre, e, (post ++ [(m0, e0)]). split; [by rewrite <- app_assoc|].
      split; [done|]. intros m' e' [?|[= -> ->]%list_elem_of_singleton]%elem_of_app;
        [by eapply Hlast|done].
    + intros (pre & e & post & Heq & Hin & Hlast).
      destruct post as [|p post _] using rev_ind.
      * apply app_inj_tail in Heq as [_ [= -> ->]]. done.
      * rewrite app_comm_cons, app_assoc in Heq.
        apply app_inj_tail in Heq as [-> <-].
        exists pre, e, post. split; [done|]. split; [done|].
        intros m' e' Hin'. apply (Hlast m'). rewrite elem_of_app. auto.
Qed.

(** X1. Every entry of the reverse index comes from a listing: its key is
    [type:id] for one of the four member types and an id that the module it
    maps to lists under that type.  An entity that no module lists has no
    entry. *)
Theorem buildReverseModuleIndex_sound (entityIndex : EntityIndex) :
  (∀ k moduleId,
     buildReverseModuleIndex entityIndex !! k = Some moduleId →
     ∃ entityType entityId moduleEntity,
       k = key entityType entityId ∧ entityType ∈ ENTITY_TYPES ∧
       (moduleId, moduleEntity) ∈ modules entityIndex ∧
       entityId ∈ or_empty (prop moduleEntity entityType)) ∧
  (∀ entityType entityId,
     entityType ∈ ENTITY_TYPES →
     (∀ moduleId moduleEntity,
        (moduleId, moduleEntity) ∈ modules entityIndex →
        entityId ∉ or_empty (prop moduleEntity entityType)) →
     buildReverseModuleIndex entityIndex !! key entityType entityId = None).
Proof.
  split.
  - intros k m (pre & e & post & Heq & Hin & _)%buildReverseModuleIndex_lookup.
    apply elem_of_member_keys in Hin as (ty & id & -> & Hty & Hid).
    exists ty, id, e. split; [done|]. split; [done|]. split; [|done].
    rewrite Heq, elem_of_app, elem_of_cons. auto.
  - intros ty id Hty Hnone.
    destruct (buildReverseModuleIndex entityIndex !! key ty id) as [m|] eqn:Hm;
      [|done].
    apply buildReverseModuleIndex_lookup in Hm as (pre & e & post & Heq & Hin & _).
    apply key_member_keys in Hin; [|done].
    destruct (Hnone m e); [|done].
    rewrite Heq, elem_of_app, elem_of_cons. auto.
Qed.

(** X2. When several modules list the same entity the last of them, in the
    order of [entityIndex.modules], is its owner: the entry of [type:id] is
    module [m] exactly when [m] lists the id under the type and no module
    after it does.  Keys of different types never collide. *)
Theorem buildReverseModuleIndex_last_wins (entityIndex : EntityIndex)
    (entityType entityId moduleId : string) :
  entityType ∈ ENTITY_TYPES →
  buildReverseModuleIndex entityIndex !! key entityType entityId = Some moduleId
  ↔ ∃ pre moduleEntity post,
      modules entityIndex = pre ++ (moduleId, moduleEntity) :: post ∧
      entityId ∈ or_empty (prop moduleEntity entityType) ∧
      ∀ m' e', (m', e') ∈ post → entityId ∉ or_empty (prop e' entityType).
Proof.
  intros Hty. rewrite buildReverseModuleIndex_lookup.
  split; intros (pre & e & post & Heq & Hin & Hlast); exists pre, e, post;
    (split; [done|]);
    (split; [by apply (key_member_keys e entityType entityId)|]);
    intros m' e' Hpost Hlisted; apply (Hlast m' e' Hpost);
    by apply (key_member_keys e' entityType entityId).
Qed.

(** X8. [buildModuleDependencyGraph] never throws.  The nodes of the graph
    it returns are the module ids of the index, and module [m] has an edge
    to [d] exactly when [m] lists [d] among its dependencies and [d] is a
    module of the index: a dependency on an unknown module adds no edge and
    does not stop the construction. *)
Theorem buildModuleDependencyGraph_nodes_and_edges (entityIndex : EntityIndex) :
  ∃ graph,
    buildModuleDependencyGraph entityIndex = Done graph ∧
    wf graph ∧
    (∀ moduleId, moduleId ∈ nodes graph ↔ moduleId ∈ (modules entityIndex).*1) ∧
    (∀ moduleId depId,
       dep graph moduleId depId
       ↔ ∃ moduleEntity,
           (moduleId, moduleEntity) ∈ modules entityIndex ∧
           depId ∈ or_empty (prop moduleEntity "dependencies") ∧
           depId ∈ (modules entityIndex).*1).
Proof.
  destruct (buildModuleDependencyGraph_spec entityIndex)
    as (g & Hg & Hwf & Hnodes & Hdep).
  exists g. split; [done|]. split; [by apply wf_well_formed|]. done.
Qed.

(** X17. For a module of the graph [getModuleScope] never rethrows: it
    returns the set made of the module and of every module it reaches along
    dependency edges, or [null] when a dependency cycle can be reached from
    the module, and only then. *)
Theorem getModuleScope_scope_or_null (graph : DepGraph.t) (moduleId : string) :
  wf graph → moduleId ∈ nodes graph →
  (∃ scope, getModuleScope graph moduleId = Done (Some scope) ∧
            (∀ x, x ∈ scope ↔ rtc (dep graph) moduleId x) ∧
            (∀ n, rtc (dep graph) moduleId n → ¬ tc (dep graph) n n)) ∨
  (getModuleScope graph moduleId = Done None ∧
   ∃ n, rtc (dep graph) moduleId n ∧ tc (dep graph) n n).
Proof.
  intros Hwf%wf_well_formed Hn. by apply getModuleScope_spec.
Qed.

(** X18. [getModuleScope] asked for an id that is no node of the graph
    rethrows the error of [dependenciesOf], unless the id itself holds the
    text the [catch] clause looks for. *)
Theorem getModuleScope_unknown_module (graph : DepGraph.t) (moduleId : string) :
  moduleId ∉ nodes graph →
  getModuleScope graph moduleId
  = if includes moduleId "Dependency Cycle Found" then Done None
    else Throw (NodeDoesNotExist moduleId).
Proof.
  intros Hn. unfold getModuleScope, dependenciesOf, hasNode.
  rewrite bool_decide_false by done.
  assert (includes (message (NodeDoesNotExist moduleId)) "Dependency Cycle Found"
          = includes moduleId "Dependency Cycle Found") as ->; [|done].
  vm_compute. reflexivity.
Qed.

(** X24. The order in which the cascade walks the modules of an index,
    [overallOrder] of its module graph: when the declared dependencies have
    a cycle the call throws the cycle error; when they have none it returns
    every module id exactly once, each module after all the modules it
    depends on, directly or transitively. *)
Theorem module_order_bottom_up (entityIndex : EntityIndex) :
  ∃ graph,
    buildModuleDependencyGraph entityIndex = Done graph ∧
    ((∃ moduleId, tc (declares_dependency entityIndex) moduleId moduleId) →
     ∃ cyclePath,
       overallOrder graph false = Throw (DepGraphCycleError cyclePath)) ∧
    (¬ (∃ moduleId, tc (declares_dependency entityIndex) moduleId moduleId) →
     ∃ order,
       overallOrder graph false = Done order ∧ NoDup order ∧
       (∀ moduleId, moduleId ∈ order ↔ moduleId ∈ (modules entityIndex).*1) ∧
       ∀ i moduleId depId,
         order !! i = Some moduleId →
         tc (declares_dependency entityIndex) moduleId depId →
         ∃ j, j < i ∧ order !! j = Some depId).
Proof.
  destruct (buildModuleDependencyGraph_spec entityIndex)
    as (g & Hg & Hwf & Hnodes & Hdep).
  exists g. split; [done|]. split.
  - intros [m Hm]. apply (overallOrder_cycle g false Hwf). exists m.
    by apply (tc_iff (dep g) (declares_dependency entityIndex)).
  - intros Hacyc.
    destruct (overallOrder_acyclic g Hwf) as (order & Horder & Hnd & Hall & Htopo).
    { intros [m Hm]. apply Hacyc. exists m.
      by apply (tc_iff (dep g) (declares_dependency entityIndex)). }
    exists order. split; [done|]. split; [done|]. split.
    + intros m. by rewrite Hall.
    + intros i m d Hi Hmd.
      apply (topo_tc (outgoingEdges g) order m d i Htopo); [|done].
      by apply (tc_iff (dep g) (declares_dependency entityIndex)).
Qed.

End reverse_index.

(** ** More on [maxBumpType] *)

(** X3. [maxBumpType] always returns a bump level, at least as high as
    every element of the list; strings that are no bump level are ignored;
    and the maximum of a concatenation is the maximum of the maxima. *)
Theorem maxBumpType_robust :
  (∀ bumps, is_bump (maxBumpType bumps)) ∧
  (∀ bumps bump, bump ∈ bumps →
                 priority bump ≤ priority (maxBumpType bumps)) ∧
  (∀ bumps bump, ¬ is_bump bump →
                 maxBumpType (bump :: bumps) = maxBumpType bumps) ∧
  (∀ bumps1 bumps2,
     maxBumpType (bumps1 ++ bumps2)
     = maxBumpType [maxBumpType bumps1; maxBumpType bumps2]).
Proof.
  split; [apply is_bump_maxBumpType|]. split; [|split].
  - intros l b Hb. rewrite priority_maxBumpType. by apply top_priority_upper.
  - intros l b Hb. rewrite !maxBumpType_top. f_equal.
    change (top_priority (b :: l)) with (priority b `max` top_priority l).
    destruct (priority_cases b) as [[-> _]|[[-> _]|[[-> _]|[_ ->]]]];
      try (destruct Hb; unfold is_bump; auto; fail).
    done.
  - intros l1 l2. rewrite !maxBumpType_top. f_equal.
    rewrite top_priority_app.
    change (top_priority [?a; ?b]) with (priority a `max` (priority b `max` 1)).
    rewrite !priority_bump_of_priority
      by (split; [apply top_priority_ge_1|apply top_priority_le_3]).
    pose proof (top_priority_ge_1 l1). lia.
Qed.

(** ** The cascade as a closure *)

Section closure.
Import DepGraph DepGraphFacts DepGraphLemmas.

(** Without cycles the loop runs to its end and every entry has its closed
    form. *)
Lemma propagateDependencyCascade_acyclic g (m : gmap string string) :
  well_formed g → ¬ has_cycle g →
  ∃ m', propagateDependencyCascade g m = Done m' ∧
        ∀ n, m' !! n = if decide (n ∈ nodes g) then cascaded g m n
                       else m !! n.
Proof.
  intros Hwf Hacyc.
  destruct (overallOrder_acyclic g Hwf Hacyc)
    as (order & Horder & Hnd & Hall & Htopo).
  destruct (cascade_loop_acyclic g m Hwf Hacyc order)
    as (m' & Hloop & Hm'); [done|by intros n ?%Hall|done|].
  exists m'. split.
  - unfold propagateDependencyCascade.
    by rewrite Horder, (cascade_loop_for_of _ _ _ _ Hloop).
  - intros n. rewrite Hm'.
    destruct (decide (n ∈ order)) as [Hn|Hn], (decide (n ∈ nodes g)) as [Hn'|Hn'];
      try done; by destruct (Hall n); tauto.
Qed.

(** The two ways the cascade ends: through the [catch] clause with the
    input map, or after the loop. *)
Lemma propagateDependencyCascade_cases g (m : gmap string string) :
  well_formed g →
  propagateDependencyCascade g m = Done m ∨ ¬ has_cycle g.
Proof.
  intros Hwf. pose proof (proj2 (wf_well_formed g) Hwf) as Hwf'.
  pose proof (overallOrder_returns_or_cycle g false Hwf) as Hroc.
  destruct (overallOrder g false) as [order|[cyclePath| |]|] eqn:Horder;
    simpl in Hroc; try done.
  - right. by apply (overallOrder_done_acyclic g order).
  - left. unfold propagateDependencyCascade.
    by rewrite Horder, cycle_message_recognised.
Qed.

(** An entry the cascade computes comes from a dependency with a bump. *)
Lemma cascaded_new g (m : gmap string string) n b :
  well_formed g → ¬ has_cycle g → n ∈ nodes g →
  cascaded g m n = Some b →
  m !! n = Some b ∨
  (b = maxBumpType (inputs g m n) ∧
   ∃ d x, tc (dep g) n d ∧ m !! d = Some x).
Proof.
  intros Hwf Hacyc Hn. unfold cascaded.
  destruct (collect m (deps_of g n)) as [|x l] eqn:Hc; [by left|].
  intros [= <-]. right. split; [done|].
  assert (x ∈ collect m (deps_of g n)) as Hx by (rewrite Hc; left).
  apply elem_of_collect in Hx as (d & Hd & Hx).
  exists d, x. split; [|done]. by apply (deps_of_spec g Hwf Hacyc n Hn).
Qed.

(** A module that reaches a module with an entry gets the maximum of its
    inputs. *)
Lemma cascaded_reached g (m : gmap string string) n d :
  well_formed g → ¬ has_cycle g →
  tc (dep g) n d → is_Some (cascaded g m d) →
  cascaded g m n = Some (maxBumpType (inputs g m n)).
Proof.
  intros Hwf Hacyc Hnd Hd.
  destruct (tc_dep_nodes g Hwf n d Hnd) as [Hn Hdn].
  destruct (deps_of_spec g Hwf Hacyc n Hn) as [_ Hdeps].
  destruct (deps_of_spec g Hwf Hacyc d Hdn) as [_ Hdeps'].
  assert (collect m (deps_of g n) ≠ []) as Hne.
  { rewrite collect_nil. intros Hnone.
    apply cascaded_is_Some in Hd as [[x Hx]|Hd].
    - by rewrite (Hnone d) in Hx by by apply Hdeps.
    - apply Hd, collect_nil. intros d' Hd'. apply Hnone, Hdeps.
      etrans; [done|]. by apply Hdeps'. }
  unfold cascaded. by destruct (collect m (deps_of g n)).
Qed.

(** The elements of [inputs] are input bumps. *)
Lemma elem_of_inputs g (m : gmap string string) n x :
  x ∈ inputs g m n → ∃ k, m !! k = Some x.
Proof.
  unfold inputs. intros [Hx|(d & _ & Hx)%elem_of_collect]%elem_of_app.
  - exists n. destruct (m !! n); simpl in Hx; [|by apply elem_of_nil in Hx].
    by apply list_elem_of_singleton in Hx as ->.
  - by exists d.
Qed.

(** What the cascade does to the entries, on any graph. *)
Lemma cascade_raises g (m : gmap string string) :
  well_formed g →
  ∃ m', propagateDependencyCascade g m = Done m' ∧
    (∀ n b, m !! n = Some b →
            ∃ b', m' !! n = Some b' ∧ priority b ≤ priority b') ∧
    (∀ n, n ∉ nodes g → m' !! n = m !! n) ∧
    (∀ n b', m' !! n = Some b' →
       m !! n = Some b' ∨
       (b' = maxBumpType (inputs g m n) ∧
        ∃ d x, tc (dep g) n d ∧ m !! d = Some x)).
Proof.
  intros Hwf.
  destruct (propagateDependencyCascade_cases g m Hwf) as [Hsame|Hacyc].
  { exists m. split; [done|]. split; [|split; [done|by left]].
    intros n b Hb. by exists b. }
  destruct (propagateDependencyCascade_acyclic g m Hwf Hacyc)
    as (m' & Hrun & Hm').
  exists m'. split; [done|]. split; [|split].
  - intros n b Hb. rewrite Hm'. case_decide as Hn; [|by exists b].
    unfold cascaded.
    destruct (collect m (deps_of g n)) as [|x l] eqn:Hc; [by exists b|].
    eexists. split; [done|]. rewrite priority_maxBumpType.
    apply top_priority_upper. unfold inputs. rewrite Hb. left.
  - intros n Hn. rewrite Hm'. by rewrite decide_False.
  - intros n b'. rewrite Hm'. case_decide as Hn; [|by left].
    by apply cascaded_new.
Qed.

(** No entry of the result is above a bound that holds of the input. *)
Lemma cascade_bounded g (m m' : gmap string string) q :
  well_formed g → propagateDependencyCascade g m = Done m' →
  1 ≤ q → (∀ n b, m !! n = Some b → priority b ≤ q) →
  ∀ n b, m' !! n = Some b → priority b ≤ q.
Proof.
  intros Hwf Hrun Hq Hm n b Hb.
  destruct (cascade_raises g m Hwf) as (m1 & Hrun1 & _ & _ & Hnew).
  assert (m1 = m') as -> by congruence.
  destruct (Hnew n b Hb) as [Hold|[-> _]]; [by eapply Hm|].
  rewrite priority_maxBumpType. apply top_priority_le; [done|].
  intros x [k Hk]%elem_of_inputs. by eapply Hm.
Qed.

(** Without cycles a dependent ends at least as high as what it depends
    on. *)
Lemma cascade_dominates g (m m' : gmap string string) A B x :
  well_formed g → ¬ has_cycle g →
  propagateDependencyCascade g m = Done m' →
  tc (dep g) B A → m' !! A = Some x →
  ∃ y, m' !! B = Some y ∧ priority x ≤ priority y.
Proof.
  intros Hwf Hacyc Hrun HBA HA.
  destruct (propagateDependencyCascade_acyclic g m Hwf Hacyc)
    as (m1 & Hrun' & Hm').
  assert (m1 = m') as -> by congruence.
  destruct (tc_dep_nodes g Hwf B A HBA) as [HB HAn].
  rewrite Hm', decide_True in HA by done.
  rewrite Hm', decide_True by done.
  rewrite (cascaded_reached g m B A Hwf Hacyc HBA) by by eexists.
  eexists. split; [done|]. rewrite priority_maxBumpType.
  by apply (cascaded_bounds g m Hwf Hacyc B A x).
Qed.

(** X9. On every graph [propagateDependencyCascade] returns, and it only
    ever raises: an entry of the input map is still there with a bump of
    the same or a higher priority, entries of ids that are no node of the
    graph are untouched, and an entry that is new or changed holds a bump
    level and belongs to a module that depends, directly or transitively,
    on a module with an input bump. *)
Theorem cascade_only_raises (moduleGraph : DepGraph.t)
    (moduleBumps : gmap string string) :
  wf moduleGraph →
  ∃ cascadedBumps,
    propagateDependencyCascade moduleGraph moduleBumps = Done cascadedBumps ∧
    (∀ moduleId bump,
       moduleBumps !! moduleId = Some bump →
       ∃ bump', cascadedBumps !! moduleId = Some bump' ∧
                priority bump ≤ priority bump') ∧
    (∀ moduleId, moduleId ∉ nodes moduleGraph →
                 cascadedBumps !! moduleId = moduleBumps !! moduleId) ∧
    (∀ moduleId bump',
       cascadedBumps !! moduleId = Some bump' →
       moduleBumps !! moduleId = Some bump' ∨
       (is_bump bump' ∧
        ∃ depId bump, tc (dep moduleGraph) moduleId depId ∧
                      moduleBumps !! depId = Some bump)).
Proof.
  intros Hwf%wf_well_formed.
  destruct (cascade_raises moduleGraph moduleBumps Hwf)
    as (m' & Hrun & Hkeep & Hout & Hnew).
  exists m'. split; [done|]. split; [done|]. split; [done|].
  intros n b' Hb'. destruct (Hnew n b' Hb') as [?|[-> ?]]; [by left|right].
  split; [apply is_bump_maxBumpType|done].
Qed.

(** X10. On a graph without cycles the result is closed under dependencies:
    if [B] depends directly or transitively on [A] and [A] has a bump in
    the result, then [B] has one too, of the same or a higher priority. *)
Theorem cascade_dependents_dominate (moduleGraph : DepGraph.t)
    (moduleBumps cascadedBumps : gmap string string) (A B bumpA : string) :
  wf moduleGraph → ¬ has_cycle moduleGraph →
  propagateDependencyCascade moduleGraph moduleBumps = Done cascadedBumps →
  tc (dep moduleGraph) B A →
  cascadedBumps !! A = Some bumpA →
  ∃ bumpB, cascadedBumps !! B = Some bumpB ∧ priority bumpA ≤ priority bumpB.
Proof.
  intros Hwf%wf_well_formed Hacyc. by apply cascade_dominates.
Qed.

(** X11. The cascade is idempotent: run on its own result it changes
    nothing. *)
Theorem cascade_idempotent (moduleGraph : DepGraph.t)
    (moduleBumps cascadedBumps : gmap string string) :
  wf moduleGraph →
  propagateDependencyCascade moduleGraph moduleBumps = Done cascadedBumps →
  propagateDependencyCascade moduleGraph cascadedBumps = Done cascadedBumps.
Proof.
  intros Hwf%wf_well_formed Hrun.
  destruct (propagateDependencyCascade_cases moduleGraph cascadedBumps Hwf)
    as [Hsame|Hacyc]; [done|].
  destruct (propagateDependencyCascade_acyclic moduleGraph moduleBumps Hwf Hacyc)
    as (m' & Hrun' & Hm').
  assert (m' = cascadedBumps) as -> by congruence. clear Hrun'.
  destruct (propagateDependencyCascade_acyclic moduleGraph cascadedBumps Hwf Hacyc)
    as (m'' & Hrun'' & Hm'').
  rewrite Hrun''. f_equal. apply map_eq. intros n. rewrite Hm''.
  case_decide as Hn; [|done].
  destruct (deps_of_spec moduleGraph Hwf Hacyc n Hn) as [_ Hdeps].
  assert (∀ d x, d ∈ deps_of moduleGraph n → cascadedBumps !! d = Some x →
                 cascaded moduleGraph moduleBumps d = Some x) as Hdep.
  { intros d x Hd%Hdeps Hx.
    destruct (tc_dep_nodes moduleGraph Hwf n d Hd) as [_ Hdn].
    by rewrite Hm', decide_True in Hx. }
  unfold cascaded at 1.
  destruct (collect cascadedBumps (deps_of moduleGraph n)) as [|x l] eqn:Hc;
    [done|].
  assert (x ∈ collect cascadedBumps (deps_of moduleGraph n)) as Hx
    by (rewrite Hc; left).
  apply elem_of_collect in Hx as (d & Hd & Hx).
  assert (cascadedBumps !! n
          = Some (maxBumpType (inputs moduleGraph moduleBumps n))) as Hown.
  { rewrite Hm', decide_True by done.
    apply (cascaded_reached moduleGraph moduleBumps n d Hwf Hacyc);
      [by apply Hdeps|]. rewrite (Hdep d x Hd Hx). by eexists. }
  rewrite Hown. f_equal. unfold inputs at 1. rewrite Hown, Hc. simpl.
  rewrite <- Hc. rewrite !maxBumpType_top. f_equal.
  change (top_priority (?b :: ?c)) with (priority b `max` top_priority c).
  rewrite priority_bump_of_priority
    by (split; [apply top_priority_ge_1|apply top_priority_le_3]).
  assert (top_priority (collect cascadedBumps (deps_of moduleGraph n))
          ≤ top_priority (inputs moduleGraph moduleBumps n)); [|lia].
  apply top_priority_le; [apply top_priority_ge_1|].
  intros y (d' & Hd' & Hy)%elem_of_collect.
  apply (cascaded_bounds moduleGraph moduleBumps Hwf Hacyc n d' y);
    [by apply Hdeps|by apply Hdep].
Qed.

End closure.

(** ** More on [calculateModuleBumps] and the entry point *)

Section entry_point.
Import DepGraph DepGraphFacts DepGraphLemmas.

(** Every entry stems from a record the module owns, and no entry is above
    the highest change type. *)
Lemma calculateModuleBumps_sound entityIndex changes M b :
  calculateModuleBumps entityIndex changes !! M = Some b →
  (∃ change, change ∈ changes ∧
     buildReverseModuleIndex entityIndex !! change_key change = Some M) ∧
  priority b ≤ top_priority (changeType <$> changes).
Proof.
  unfold calculateModuleBumps.
  set (rev := buildReverseModuleIndex entityIndex). revert M b.
  apply (foldl_invariant (module_bump_step rev)
    (λ pre (acc : gmap string string),
       ∀ M b, acc !! M = Some b →
         (∃ change, change ∈ pre ∧ rev !! change_key change = Some M) ∧
         priority b ≤ top_priority (changeType <$> pre))).
  { intros M b. by rewrite lookup_empty. }
  intros pre c acc Hc HI M b.
  assert (∀ M b, acc !! M = Some b →
            (∃ change, change ∈ pre ++ [c] ∧ rev !! change_key change = Some M) ∧
            priority b ≤ top_priority (changeType <$> pre ++ [c])) as Hold.
  { intros M' b' Hb'. destruct (HI M' b' Hb') as [(c' & Hc' & Hown) Hle].
    split; [exists c'; rewrite elem_of_app; auto|].
    rewrite fmap_app, top_priority_app. lia. }
  assert (∀ x, priority x ≤ priority (changeType c) `max` 1 →
               priority x ≤ top_priority (changeType <$> pre ++ [c])) as Hnew.
  { intros x Hx. rewrite fmap_app, top_priority_app.
    change (top_priority (changeType <$> [c]))
      with (priority (changeType c) `max` 1). lia. }
  unfold module_bump_step.
  destruct (rev !! change_key c) as [M0|] eqn:Howner; [|apply Hold].
  destruct (truthy M0); simpl; [|apply Hold].
  assert (∃ change, change ∈ pre ++ [c] ∧ rev !! change_key change = Some M0)
    as Hwitness.
  { exists c. rewrite elem_of_app, list_elem_of_singleton. auto. }
  destruct (acc !! M0) as [ex|] eqn:Hex; [destruct (truthy ex)|];
    (destruct (decide (M0 = M)) as [->|Hne];
     [rewrite lookup_insert_eq; intros [= <-]; (split; [done|])
     |rewrite lookup_insert_ne by done; apply Hold]).
  - rewrite priority_maxBumpType.
    destruct (HI M ex Hex) as [_ Hle].
    change (top_priority [ex; changeType c])
      with (priority ex `max` (priority (changeType c) `max` 1)).
    rewrite fmap_app, top_priority_app.
    change (top_priority (changeType <$> [c]))
      with (priority (changeType c) `max` 1). lia.
  - apply Hnew. lia.
  - apply Hnew. lia.
Qed.

(** Every record whose key has an owner with a non-empty id is counted: the
    owner has a bump at least as high as the record's change type. *)
Lemma calculateModuleBumps_covers entityIndex changes change M :
  change ∈ changes →
  buildReverseModuleIndex entityIndex !! change_key change = Some M →
  truthy M = true →
  ∃ b, calculateModuleBumps entityIndex changes !! M = Some b ∧
       priority (changeType change) ≤ priority b.
Proof.
  intros Hin Hown HM. unfold calculateModuleBumps.
  set (rev := buildReverseModuleIndex entityIndex) in *.
  revert Hin.
  apply (foldl_invariant (module_bump_step rev)
    (λ pre (acc : gmap string string),
       change ∈ pre →
       ∃ b, acc !! M = Some b ∧ priority (changeType change) ≤ priority b)).
  { by intros ?%elem_of_nil. }
  intros pre c acc Hc HI Hchange. unfold module_bump_step.
  apply elem_of_app in Hchange as [Hpre| ->%list_elem_of_singleton].
  - destruct (HI Hpre) as (b & Hb & Hle).
    destruct (rev !! change_key c) as [M0|] eqn:Howner; [|by exists b].
    destruct (truthy M0); simpl; [|by exists b].
    destruct (decide (M0 = M)) as [->|Hne].
    + rewrite Hb. destruct (truthy b) eqn:Htb; rewrite lookup_insert_eq.
      * eexists. split; [done|]. rewrite priority_maxBumpType.
        change (top_priority [b; changeType c])
          with (priority b `max` (priority (changeType c) `max` 1)). lia.
      * eexists. split; [done|].
        unfold truthy in Htb. apply negb_false_iff, bool_decide_eq_true in Htb.
        subst b. change (priority EmptyString) with 0 in Hle. lia.
    + destruct (acc !! M0) as [ex|]; [destruct (truthy ex)|];
        rewrite lookup_insert_ne by done; by exists b.
  - rewrite Hown, HM. simpl.
    destruct (acc !! M) as [ex|]; [destruct (truthy ex)|];
      rewrite lookup_insert_eq; eexists; (split; [done|]); try done.
    rewrite priority_maxBumpType.
    change (top_priority [ex; changeType c])
      with (priority ex `max` (priority (changeType c) `max` 1)). lia.
Qed.

(** X4. [calculateModuleBumps] gives a bump only to a module of the index
    that owns the entity of some change record, and no bump is above the
    highest change type of the records; if every record is an orphan the
    result is empty. *)
Theorem calculateModuleBumps_only_owners (entityIndex : EntityIndex)
    (changes : list ChangeRecord) :
  (∀ moduleId bump,
     calculateModuleBumps entityIndex changes !! moduleId = Some bump →
     moduleId ∈ (modules entityIndex).*1 ∧
     (∃ change, change ∈ changes ∧
        buildReverseModuleIndex entityIndex !! change_key change
        = Some moduleId) ∧
     priority bump ≤ priority (maxBumpType (changeType <$> changes))) ∧
  ((∀ change, change ∈ changes →
      buildReverseModuleIndex entityIndex !! change_key change = None) →
   calculateModuleBumps entityIndex changes = ∅).
Proof.
  split.
  - intros M b Hb.
    destruct (calculateModuleBumps_sound entityIndex changes M b Hb)
      as [(c & Hc & Hown) Hle].
    split; [by apply (buildReverseModuleIndex_values entityIndex _ M Hown)|].
    split; [by exists c|]. by rewrite priority_maxBumpType.
  - intros Horphans. apply map_empty. intros M.
    destruct (calculateModuleBumps entityIndex changes !! M) as [b|] eqn:Hb;
      [|done].
    destruct (calculateModuleBumps_sound entityIndex changes M b Hb)
      as [(c & Hc & Hown) _].
    by rewrite (Horphans c Hc) in Hown.
Qed.

(** X5. With module ids that are non-empty strings and change types that
    are bump levels, the bump of a module is [maxBumpType] over the change
    types of the records whose derived key it owns, and a module that owns
    none has no entry. *)
Theorem calculateModuleBumps_aggregates (entityIndex : EntityIndex)
    (changes : list ChangeRecord) (moduleId : string) :
  EmptyString ∉ (modules entityIndex).*1 →
  Forall (λ change, is_bump (changeType change)) changes →
  let owned :=
    filter (λ change,
              buildReverseModuleIndex entityIndex !! change_key change
              = Some moduleId) changes in
  calculateModuleBumps entityIndex changes !! moduleId
  = match owned with
    | [] => None
    | _ => Some (maxBumpType (changeType <$> owned))
    end.
Proof.
  intros Hids Hbumps owned.
  by rewrite (calculateModuleBumps_owned entityIndex changes moduleId).
Qed.

(** X6. With module ids that are non-empty strings and change types that
    are bump levels, the result of [calculateModuleBumps] does not depend on
    the order of the change records. *)
Theorem calculateModuleBumps_order_independent (entityIndex : EntityIndex)
    (changes changes' : list ChangeRecord) :
  EmptyString ∉ (modules entityIndex).*1 →
  Forall (λ change, is_bump (changeType change)) changes →
  changes ≡ₚ changes' →
  calculateModuleBumps entityIndex changes
  = calculateModuleBumps entityIndex changes'.
Proof.
  intros Hids Hbumps Hperm. apply map_eq. intros M.
  rewrite !calculateModuleBumps_owned; [|done|by rewrite <- Hperm|done..].
  unfold aggregate, owned_by.
  set (rev := buildReverseModuleIndex entityIndex).
  assert (filter (λ change, rev !! change_key change = Some M) changes
          ≡ₚ filter (λ change, rev !! change_key change = Some M) changes')
    as Hfilter by by rewrite Hperm.
  destruct (filter _ changes) as [|o os] eqn:Ho.
  - apply Permutation_nil_l in Hfilter. by rewrite <- Hfilter.
  - destruct (filter _ changes') as [|o' os'] eqn:Ho'.
    + by apply Permutation_nil_r in Hfilter.
    + f_equal. rewrite !maxBumpType_top. f_equal.
      apply top_priority_Permutation. by rewrite Hfilter.
Qed.

(** X7. The key derived from the file name of a change record is the key
    of the entity when the file is [<type>/<id>.json] and neither the type
    nor the id holds a [/] and the id holds no [.json]: the record then goes
    to the module, if any, that lists the id under the type. *)
Theorem change_key_of_flat_file (entityIndex : EntityIndex)
    (ty id ety ct : string) :
  occurs "/" ty = false → occurs "/" id = false →
  includes id ".json" = false →
  let change := {| file := ty +:+ "/" +:+ id +:+ ".json";
                   entityType := ety; changeType := ct |} in
  change_key change = key ty id ∧
  calculateModuleBumps entityIndex [change]
  = match buildReverseModuleIndex entityIndex !! key ty id with
    | Some moduleId => if truthy moduleId then {[moduleId := ct]} else ∅
    | None => ∅
    end.
Proof.
  intros Hty Hid Hjson change.
  pose proof (change_key_flat ty id ety ct Hty Hid Hjson) as Hkey.
  fold change in Hkey. split; [done|].
  unfold calculateModuleBumps. cbn [foldl]. unfold module_bump_step.
  rewrite Hkey.
  destruct (buildReverseModuleIndex entityIndex !! key ty id) as [M|]; [|done].
  destruct (truthy M); simpl; [|done]. by rewrite lookup_empty.
Qed.

(** No bundle bump is above a bound that holds of the module bumps. *)
Lemma calculateBundleBumps_bounded entityIndex (m : gmap string string) q :
  1 ≤ q → (∀ n b, m !! n = Some b → priority b ≤ q) →
  ∀ B b, calculateBundleBumps entityIndex m !! B = Some b → priority b ≤ q.
Proof.
  intros Hq Hm. unfold calculateBundleBumps.
  apply (foldl_preserves (bundle_bump_step m)
    (λ acc : gmap string string, ∀ B b, acc !! B = Some b → priority b ≤ q)).
  { intros B b. by rewrite lookup_empty. }
  intros acc [bundleId bundleEntity] _ Hacc B b. simpl.
  case_bool_decide; [|apply Hacc].
  destruct (decide (bundleId = B)) as [->|Hne].
  - rewrite lookup_insert_eq. intros [= <-]. rewrite priority_maxBumpType.
    apply top_priority_le; [done|].
    intros x (id & _ & Hx)%elem_of_collect. by eapply Hm.
  - rewrite lookup_insert_ne by done. apply Hacc.
Qed.

(** A bundle ends at least as high as each of its members. *)
Lemma calculateBundleBumps_dominates entityIndex (m : gmap string string)
    B e M b :
  NoDup (bundles entityIndex).*1 →
  (B, e) ∈ bundles entityIndex →
  M ∈ or_empty (prop e "modules") → m !! M = Some b →
  ∃ b', calculateBundleBumps entityIndex m !! B = Some b' ∧
        priority b ≤ priority b'.
Proof.
  intros Hnd Hin HM Hb. unfold calculateBundleBumps.
  rewrite (bundle_bumps_member _ _ _ _ e Hnd Hin). simpl.
  assert (b ∈ collect m (or_empty (prop e "modules"))) as Hbin
    by (apply elem_of_collect; eauto).
  rewrite bool_decide_true.
  - eexists. split; [done|]. rewrite priority_maxBumpType.
    by apply top_priority_upper.
  - destruct (collect m (or_empty (prop e "modules")));
      [by apply elem_of_nil in Hbin|simpl; lia].
Qed.

(** The steps of the entry point on a change list that is not empty. *)
Lemma calculateVersionCascade_steps entityIndex changes :
  changes ≠ [] →
  ∃ g m',
    buildModuleDependencyGraph entityIndex = Done g ∧
    propagateDependencyCascade g (calculateModuleBumps entityIndex changes)
      = Done m' ∧
    calculateVersionCascade entityIndex changes
    = Done {| changes_of := changes; moduleBumps_of := m';
              bundleBumps_of := calculateBundleBumps entityIndex m';
              ontologyBump_of := maxBumpType (changeType <$> changes);
              orphanChanges_of :=
                filter (λ change,
                          buildReverseModuleIndex entityIndex
                            !! change_key change = None) changes |}.
Proof.
  intros Hne.
  destruct (buildModuleDependencyGraph_spec entityIndex) as (g & Hg & Hwf & _).
  destruct (cascade_raises g (calculateModuleBumps entityIndex changes) Hwf)
    as (m' & Hrun & _).
  exists g, m'. split; [done|]. split; [done|].
  unfold calculateVersionCascade, calculateOntologyBump.
  rewrite bool_decide_false by by intros ?%nil_length_inv.
  rewrite Hg. cbn [bind]. rewrite Hrun. cbn [bind]. done.
Qed.

(** X12. [calculateVersionCascade] never throws, whatever the index, and
    it returns the change records it was given.  With module ids that are
    non-empty strings it accounts for every record: a record whose derived
    key has no owner is reported in [orphanChanges]; any other record is
    not, and its owner has a module bump at least as high as the change
    type of the record. *)
Theorem calculateVersionCascade_accounts_for_changes
    (entityIndex : EntityIndex) (changes : list ChangeRecord) :
  ∃ r, calculateVersionCascade entityIndex changes = Done r ∧
    changes_of r = changes ∧
    (EmptyString ∉ (modules entityIndex).*1 →
     ∀ change, change ∈ changes →
       (change ∈ orphanChanges_of r ∧
        buildReverseModuleIndex entityIndex !! change_key change = None) ∨
       ((change ∉ orphanChanges_of r) ∧
        ∃ moduleId bump,
          buildReverseModuleIndex entityIndex !! change_key change
            = Some moduleId ∧
          moduleBumps_of r !! moduleId = Some bump ∧
          priority (changeType change) ≤ priority bump)).
Proof.
  destruct (decide (changes = [])) as [->|Hne].
  { eexists. split; [reflexivity|]. split; [done|].
    by intros _ ? ?%elem_of_nil. }
  destruct (calculateVersionCascade_steps entityIndex changes Hne)
    as (g & m' & Hg & Hrun & ->).
  eexists. split; [done|]. split; [done|]. intros Hids c Hc. simpl.
  rewrite list_elem_of_filter.
  destruct (buildReverseModuleIndex entityIndex !! change_key c) as [M|] eqn:HM;
    [right|by left].
  split; [by intros [? _]|].
  destruct (calculateModuleBumps_covers entityIndex changes c M Hc HM)
    as (b0 & Hb0 & Hle0); [by eapply truthy_module_id|].
  destruct (buildModuleDependencyGraph_spec entityIndex) as (g' & Hg' & Hwf & _).
  assert (g' = g) as -> by congruence.
  destruct (cascade_raises g (calculateModuleBumps entityIndex changes) Hwf)
    as (m1 & Hrun1 & Hkeep & _).
  assert (m1 = m') as -> by congruence.
  destruct (Hkeep M b0 Hb0) as (b & Hb & Hle).
  exists M, b. split; [done|]. split; [done|]. lia.
Qed.

(** X13. The ontology bump is never below a module bump or a bundle bump
    of the same result. *)
Theorem ontologyBump_dominates (entityIndex : EntityIndex)
    (changes : list ChangeRecord) :
  ∃ r, calculateVersionCascade entityIndex changes = Done r ∧
    (∀ moduleId bump, moduleBumps_of r !! moduleId = Some bump →
                      priority bump ≤ priority (ontologyBump_of r)) ∧
    (∀ bundleId bump, bundleBumps_of r !! bundleId = Some bump →
                      priority bump ≤ priority (ontologyBump_of r)).
Proof.
  destruct (decide (changes = [])) as [->|Hne].
  { eexists. split; [reflexivity|]. simpl.
    split; intros ? ?; by rewrite lookup_empty. }
  destruct (calculateVersionCascade_steps entityIndex changes Hne)
    as (g & m' & Hg & Hrun & ->).
  eexists. split; [done|]. simpl. rewrite priority_maxBumpType.
  destruct (buildModuleDependencyGraph_spec entityIndex) as (g' & Hg' & Hwf & _).
  assert (g' = g) as -> by congruence.
  assert (∀ n b, m' !! n = Some b →
                 priority b ≤ top_priority (changeType <$> changes)) as Hm'.
  { apply (cascade_bounded g (calculateModuleBumps entityIndex changes));
      [done..|apply top_priority_ge_1|].
    intros n b Hb.
    by destruct (calculateModuleBumps_sound entityIndex changes n b Hb). }
  split; [done|].
  by apply calculateBundleBumps_bounded; [apply top_priority_ge_1|].
Qed.

(** X14. When the declared dependencies between the modules of the index
    contain a cycle, a module that lists itself included, the entry point
    skips the cascade altogether: the module bumps it returns are those of
    [calculateModuleBumps], also for modules that are on no cycle. *)
Theorem calculateVersionCascade_cycle_skips_cascade
    (entityIndex : EntityIndex) (changes : list ChangeRecord) :
  (∃ moduleId, tc (declares_dependency entityIndex) moduleId moduleId) →
  ∃ r, calculateVersionCascade entityIndex changes = Done r ∧
       moduleBumps_of r = calculateModuleBumps entityIndex changes.
Proof.
  intros Hcycle.
  destruct (decide (changes = [])) as [->|Hne].
  { eexists. split; [reflexivity|done]. }
  destruct (calculateVersionCascade_steps entityIndex changes Hne)
    as (g & m' & Hg & Hrun & ->).
  eexists. split; [done|]. simpl.
  destruct (buildModuleDependencyGraph_wf entityIndex)
    as (g' & Hg' & Hwf & Hiff).
  assert (g' = g) as -> by congruence.
  apply Hiff in Hcycle. apply wf_well_formed in Hwf.
  destruct (overallOrder_cycle g false Hwf Hcycle) as [cyclePath Horder].
  unfold propagateDependencyCascade in Hrun.
  rewrite Horder, cycle_message_recognised in Hrun. congruence.
Qed.

(** X15. End to end, on an index whose module ids are non-empty and whose
    declared dependencies have no cycle: a change record whose derived key
    is owned by module [D] gives every module that is [D] or depends on
    [D], directly or transitively, a module bump at least as high as the
    change type of the record. *)
Theorem change_reaches_dependents (entityIndex : EntityIndex)
    (changes : list ChangeRecord) (change : ChangeRecord) (D M : string) :
  EmptyString ∉ (modules entityIndex).*1 →
  ¬ (∃ moduleId, tc (declares_dependency entityIndex) moduleId moduleId) →
  change ∈ changes →
  buildReverseModuleIndex entityIndex !! change_key change = Some D →
  rtc (declares_dependency entityIndex) M D →
  ∃ r bump,
    calculateVersionCascade entityIndex changes = Done r ∧
    moduleBumps_of r !! M = Some bump ∧
    priority (changeType change) ≤ priority bump.
Proof.
  intros Hids Hacyc Hc HD HMD.
  assert (changes ≠ []) as Hne by (intros ->; by apply elem_of_nil in Hc).
  destruct (calculateVersionCascade_steps entityIndex changes Hne)
    as (g & m' & Hg & Hrun & ->).
  destruct (buildModuleDependencyGraph_spec entityIndex)
    as (g' & Hg' & Hwf & _ & Hdep).
  assert (g' = g) as -> by congruence.
  assert (¬ has_cycle g) as Hacyc'.
  { intros [n Hn]. apply Hacyc. exists n.
    by apply (tc_iff (dep g) (declares_dependency entityIndex)). }
  destruct (calculateModuleBumps_covers entityIndex changes change D Hc HD)
    as (b0 & Hb0 & Hle0); [by eapply truthy_module_id|].
  destruct (cascade_raises g (calculateModuleBumps entityIndex changes) Hwf)
    as (m1 & Hrun1 & Hkeep & _).
  assert (m1 = m') as -> by congruence.
  destruct (Hkeep D b0 Hb0) as (b1 & Hb1 & Hle1).
  apply rtc_tc in HMD as [->|HMD].
  - eexists _, b1. split; [done|]. split; [done|]. lia.
  - apply (tc_iff (dep g) (declares_dependency entityIndex)) in HMD; [|done].
    destruct (cascade_dominates g _ m' D M b1 Hwf Hacyc' Hrun HMD Hb1)
      as (b2 & Hb2 & Hle2).
    eexists _, b2. split; [done|]. split; [done|]. lia.
Qed.

(** X16. On an index whose module ids are non-empty, whose bundle ids are
    distinct and whose declared dependencies have no cycle: when the
    derived key of a change record is owned by module [D], every bundle
    that lists [D], or a module that depends on [D] directly or
    transitively, gets a bundle bump at least as high as the change type of
    the record. *)
Theorem change_reaches_bundles (entityIndex : EntityIndex)
    (changes : list ChangeRecord) (change : ChangeRecord)
    (D M bundleId : string) (bundleEntity : entity) :
  EmptyString ∉ (modules entityIndex).*1 →
  NoDup (bundles entityIndex).*1 →
  ¬ (∃ moduleId, tc (declares_dependency entityIndex) moduleId moduleId) →
  change ∈ changes →
  buildReverseModuleIndex entityIndex !! change_key change = Some D →
  rtc (declares_dependency entityIndex) M D →
  (bundleId, bundleEntity) ∈ bundles entityIndex →
  M ∈ or_empty (prop bundleEntity "modules") →
  ∃ r bump,
    calculateVersionCascade entityIndex changes = Done r ∧
    bundleBumps_of r !! bundleId = Some bump ∧
    priority (changeType change) ≤ priority bump.
Proof.
  intros Hids Hnd Hacyc Hc HD HMD HB HM.
  assert (changes ≠ []) as Hne by (intros ->; by apply elem_of_nil in Hc).
  destruct (calculateVersionCascade_steps entityIndex changes Hne)
    as (g & m' & Hg & Hrun & Hsteps).
  destruct (buildModuleDependencyGraph_spec entityIndex)
    as (g' & Hg' & Hwf & _ & Hdep).
  assert (g' = g) as -> by congruence.
  assert (¬ has_cycle g) as Hacyc'.
  { intros [n Hn]. apply Hacyc. exists n.
    by apply (tc_iff (dep g) (declares_dependency entityIndex)). }
  destruct (calculateModuleBumps_covers entityIndex changes change D Hc HD)
    as (b0 & Hb0 & Hle0); [by eapply truthy_module_id|].
  destruct (cascade_raises g (calculateModuleBumps entityIndex changes) Hwf)
    as (m1 & Hrun1 & Hkeep & _).
  assert (m1 = m') as -> by congruence.
  destruct (Hkeep D b0 Hb0) as (b1 & Hb1 & Hle1).
  assert (∃ b2, m' !! M = Some b2 ∧ priority b1 ≤ priority b2)
    as (b2 & Hb2 & Hle2).
  { apply rtc_tc in HMD as [->|HMD]; [by exists b1|].
    apply (tc_iff (dep g) (declares_dependency entityIndex)) in HMD; [|done].
    by apply (cascade_dominates g _ m' D M b1 Hwf Hacyc' Hrun). }
  destruct (calculateBundleBumps_dominates entityIndex m' bundleId bundleEntity
              M b2 Hnd HB HM Hb2) as (b3 & Hb3 & Hle3).
  rewrite Hsteps. eexists _, b3. split; [done|]. split; [done|]. lia.
Qed.

End entry_point.

(** ** More on [validateReferences] *)

Section findings.
Import DepGraph DepGraphFacts DepGraphLemmas.

(** One reference yields an error of one of the three kinds, filed under
    the entity that holds the reference. *)
Lemma ref_errors_shape entityIndex rev src fieldName targetType refId err :
  err ∈ ref_errors entityIndex rev src fieldName targetType refId →
  error_file err = _filePath (src_entity src) ∧
  error_type err ∈ ["self-reference"; "missing-reference"; "scope-violation"].
Proof.
  unfold ref_errors, check_ref.
  repeat match goal with
         | |- context [if ?b then _ else _] => destruct b; simpl
         | |- context [match ?o with Some _ => _ | None => _ end] =>
             destruct o; simpl
         end;
    rewrite ?elem_of_nil, ?list_elem_of_singleton; try done;
    intros ->; simpl; (split; [done|]);
    rewrite !elem_of_cons; auto.
Qed.

(** The errors of the whole pass, reference by reference. *)
Lemma elem_of_all_errors entityIndex g err :
  err ∈ all_errors entityIndex g
  ↔ ∃ entityType fieldMap entities entityId e fieldName targetType refId,
      (entityType, fieldMap) ∈ REFERENCE_FIELDS ∧
      index entityIndex entityType = Some entities ∧
      (entityId, e) ∈ entities ∧
      (fieldName, targetType) ∈ fieldMap ∧
      refId ∈ normalizeToArray (prop e fieldName) ∧
      err ∈ ref_errors entityIndex (buildReverseModuleIndex entityIndex)
              (source_of g (buildReverseModuleIndex entityIndex)
                 entityType entityId e)
              fieldName targetType refId.
Proof.
  unfold all_errors, entity_errors. rewrite elem_of_flat_map. split.
  - intros ([entityType fieldMap] & Hty & Herr).
    apply elem_of_flat_map in Herr as ([entityId e] & He & Herr).
    apply elem_of_flat_map in Herr as ([fieldName targetType] & Hf & Herr).
    apply elem_of_flat_map in Herr as (refId & Href & Herr).
    destruct (index entityIndex entityType) as [entities|] eqn:Hindex;
      [|by apply elem_of_nil in He].
    by exists entityType, fieldMap, entities, entityId, e, fieldName,
              targetType, refId.
  - intros (entityType & fieldMap & entities & entityId & e & fieldName &
            targetType & refId & Hty & Hindex & He & Hf & Href & Herr).
    exists (entityType, fieldMap). split; [done|].
    apply elem_of_flat_map. exists (entityId, e). rewrite Hindex.
    split; [done|].
    apply elem_of_flat_map. exists (fieldName, targetType). split; [done|].
    apply elem_of_flat_map. by exists refId.
Qed.

(** X19. Every error [validateReferences] returns has one of the three
    types [self-reference], [missing-reference], [scope-violation], and its
    [file] is the [_filePath] of the entity of the index whose reference
    field it was found in. *)
Theorem validateReferences_errors_shape (entityIndex : EntityIndex) :
  ∃ out, validateReferences entityIndex = Done out ∧
    ∀ err, err ∈ errors out →
      error_type err
        ∈ ["self-reference"; "missing-reference"; "scope-violation"] ∧
      ∃ entityType entities entityId e fieldName refId,
        index entityIndex entityType = Some entities ∧
        (entityId, e) ∈ entities ∧
        refId ∈ normalizeToArray (prop e fieldName) ∧
        error_file err = _filePath e.
Proof.
  destruct (validateReferences_spec entityIndex) as (g & Hg & Hrun).
  eexists. split; [exact Hrun|]. simpl. intros err Herr.
  apply elem_of_all_errors in Herr
    as (entityType & fieldMap & entities & entityId & e & fieldName &
        targetType & refId & Hty & Hindex & He & Hf & Href & Herr).
  apply ref_errors_shape in Herr as [Hfile Htype]. split; [done|].
  by exists entityType, entities, entityId, e, fieldName, refId.
Qed.

(** X20. A dependency of a module on a module that is not in the index is
    reported by the validator as a [missing-reference] error of the
    depending module, while the dependency graph the validator and the
    cascade build has no edge for it. *)
Theorem dangling_dependency_reported (entityIndex : EntityIndex)
    (moduleId depId : string) (moduleEntity : entity) :
  (moduleId, moduleEntity) ∈ modules entityIndex →
  depId ∈ normalizeToArray (prop moduleEntity "dependencies") →
  depId ∉ (modules entityIndex).*1 →
  ∃ graph out,
    buildModuleDependencyGraph entityIndex = Done graph ∧
    validateReferences entityIndex = Done out ∧
    missing_reference_error moduleEntity "dependencies" depId "modules"
      ∈ errors out ∧
    ¬ dep graph moduleId depId.
Proof.
  intros Hm Hd Hmissing.
  destruct (validateReferences_spec entityIndex) as (g & Hg & Hrun).
  exists g. eexists. split; [done|]. split; [exact Hrun|]. simpl. split.
  - apply elem_of_all_errors.
    eexists "modules", _, (modules entityIndex), moduleId, moduleEntity,
            "dependencies", "modules", depId.
    split; [do 3 right; left|]. split; [done|]. split; [done|].
    split; [do 4 right; left|]. split; [done|].
    unfold ref_errors, check_ref. simpl.
    rewrite bool_decide_false; last first.
    { intros ->. apply Hmissing. apply list_elem_of_fmap.
      by exists (moduleId, moduleEntity). }
    simpl. unfold has. rewrite bool_decide_false by done. simpl. left.
  - destruct (buildModuleDependencyGraph_spec entityIndex)
      as (g' & Hg' & _ & _ & Hdep).
    assert (g' = g) as -> by congruence.
    intros (e & _ & _ & Hknown)%Hdep. done.
Qed.

(** X21. A module that lists itself among its dependencies is reported by
    the validator with a [self-reference] error, and it puts a cycle in the
    module graph, so that the entry point returns the module bumps without
    any cascade. *)
Theorem self_dependency (entityIndex : EntityIndex)
    (changes : list ChangeRecord) (moduleId : string) (moduleEntity : entity) :
  (moduleId, moduleEntity) ∈ modules entityIndex →
  moduleId ∈ normalizeToArray (prop moduleEntity "dependencies") →
  moduleId ∈ or_empty (prop moduleEntity "dependencies") →
  ∃ graph out r,
    buildModuleDependencyGraph entityIndex = Done graph ∧
    has_cycle graph ∧
    validateReferences entityIndex = Done out ∧
    self_reference_error moduleEntity "dependencies" moduleId ∈ errors out ∧
    calculateVersionCascade entityIndex changes = Done r ∧
    moduleBumps_of r = calculateModuleBumps entityIndex changes.
Proof.
  intros Hm Hd Hd'.
  destruct (validateReferences_spec entityIndex) as (g & Hg & Hrun).
  destruct (buildModuleDependencyGraph_spec entityIndex)
    as (g' & Hg' & Hwf & _ & Hdep).
  assert (g' = g) as -> by congruence.
  assert (declares_dependency entityIndex moduleId moduleId) as Hself.
  { exists moduleEntity. split; [done|]. split; [done|].
    apply list_elem_of_fmap. by exists (moduleId, moduleEntity). }
  assert (has_cycle g) as Hcycle.
  { exists moduleId. apply tc_once. by apply Hdep. }
  destruct (decide (changes = [])) as [->|Hne].
  - exists g. eexists. eexists. split; [done|]. split; [done|].
    split; [exact Hrun|]. split; [|split; [reflexivity|done]].
    apply elem_of_all_errors.
    eexists "modules", _, (modules entityIndex), moduleId, moduleEntity,
            "dependencies", "modules", moduleId.
    split; [do 3 right; left|]. split; [done|]. split; [done|].
    split; [do 4 right; left|]. split; [done|].
    unfold ref_errors, check_ref. simpl.
    rewrite bool_decide_true by done. simpl. left.
  - destruct (calculateVersionCascade_steps entityIndex changes Hne)
      as (g' & m' & Hg'' & Hcascade & Hsteps).
    assert (g' = g) as -> by congruence.
    exists g. eexists. eexists. split; [done|]. split; [done|].
    split; [exact Hrun|]. split; [|split; [exact Hsteps|]].
    + apply elem_of_all_errors.
      eexists "modules", _, (modules entityIndex), moduleId, moduleEntity,
              "dependencies", "modules", moduleId.
      split; [do 3 right; left|]. split; [done|]. split; [done|].
      split; [do 4 right; left|]. split; [done|].
      unfold ref_errors, check_ref. simpl.
      rewrite bool_decide_true by done. simpl. left.
    + simpl.
      destruct (overallOrder_cycle g false Hwf Hcycle) as [cyclePath Horder].
      unfold propagateDependencyCascade in Hcascade.
      rewrite Horder, cycle_message_recognised in Hcascade. congruence.
Qed.

End findings.

(** ** [buildEntityIndex] *)

Section indexer.
Import Indexer.

Lemma map_set_keys {A} (m : list (string * A)) k v :
  (map_set m k v).*1 = if has m k then m.*1 else m.*1 ++ [k].
Proof.
  unfold map_set. destruct (has m k).
  - rewrite <- list_fmap_compose. apply list_fmap_ext.
    intros i [k' v'] _. simpl. by case_decide.
  - by rewrite fmap_app.
Qed.

Lemma map_set_NoDup {A} (m : list (string * A)) k v :
  NoDup m.*1 → NoDup (map_set m k v).*1.
Proof.
  intros Hnd. rewrite map_set_keys. unfold has. case_bool_decide as Hk; [done|].
  apply NoDup_app. split; [done|]. split; [|apply NoDup_singleton].
  by intros x Hx ->%list_elem_of_singleton.
Qed.

Lemma elem_of_map_set {A} (m : list (string * A)) k v k' v' :
  (k', v') ∈ map_set m k v → (k', v') = (k, v) ∨ ((k', v') ∈ m ∧ k' ≠ k).
Proof.
  unfold map_set, has. case_bool_decide as Hk.
  - intros ([k0 v0] & Heq & Hin)%list_elem_of_fmap. simpl in Heq.
    case_decide; simplify_eq; auto.
  - intros [Hin| ->%list_elem_of_singleton]%elem_of_app; [|by left].
    right. split; [done|]. intros ->. apply Hk.
    apply list_elem_of_fmap. by exists (k, v').
Qed.

Lemma map_set_lookup {A} (m : list (string * A)) k v :
  (k, v) ∈ map_set m k v.
Proof.
  unfold map_set, has. case_bool_decide as Hk.
  - apply list_elem_of_fmap in Hk as ([k0 v0] & -> & Hin).
    apply list_elem_of_fmap. exists (k0, v0). simpl.
    by rewrite decide_True.
  - rewrite elem_of_app, list_elem_of_singleton. auto.
Qed.

Lemma map_set_other {A} (m : list (string * A)) k v k' v' :
  (k', v') ∈ m → k' ≠ k → (k', v') ∈ map_set m k v.
Proof.
  intros Hin Hne. unfold map_set. destruct (has m k).
  - apply list_elem_of_fmap. exists (k', v'). simpl.
    by rewrite decide_False.
  - rewrite elem_of_app. auto.
Qed.

(** [index_set] changes the map of its type and no other. *)
Lemma index_index_set idx ty id e ty' :
  ty ∈ ENTITY_TYPES →
  index (index_set idx ty id e) ty'
  = if decide (ty' = ty) then (λ m, map_set m id e) <$> index idx ty
    else index idx ty'.
Proof.
  unfold ENTITY_TYPES. rewrite !elem_of_cons, elem_of_nil.
  intros [->|[->|[->|[->|[->|[->|[]]]]]]]; unfold index_set, index; simpl;
    repeat (case_decide; simplify_eq; try done).
Qed.

Lemma index_is_Some idx ty : ty ∈ ENTITY_TYPES ↔ is_Some (index idx ty).
Proof.
  unfold ENTITY_TYPES, index. rewrite !elem_of_cons, elem_of_nil. split.
  - intros [->|[->|[->|[->|[->|[->|[]]]]]]]; by eexists.
  - repeat case_decide; subst; auto 10. by intros [].
Qed.

(** What one file does to the index. *)
Lemma index_file_cases read idx path :
  (index_file read idx path = idx ∧
   ∀ ty id fields, ty ∈ ENTITY_TYPES → ¬ yields read path ty id fields) ∨
  (∃ ty id fields,
     ty ∈ ENTITY_TYPES ∧ yields read path ty id fields ∧
     index_file read idx path
     = index_set idx ty id (stored id fields path)).
Proof.
  unfold index_file, yields.
  case_bool_decide as Hty; simpl.
  - destruct (read path) as [|[id|] fields] eqn:Hread.
    + left. split; [done|]. by intros ? ? ? _ (_ & ? & _).
    + destruct (truthy id) eqn:Hid; simpl.
      * right. by exists (first_segment path), id, fields.
      * left. split; [done|]. intros ty id' fields' _ (_ & [= <- <-] & ?).
        congruence.
    + left. split; [done|]. by intros ? ? ? _ (_ & ? & _).
  - left. split; [done|]. intros ty id fields Hty' (<- & _). done.
Qed.

Lemma yields_functional read path ty id fields ty' id' fields' :
  yields read path ty id fields → yields read path ty' id' fields' →
  ty' = ty ∧ id' = id ∧ fields' = fields.
Proof.
  intros (<- & H1 & _) (<- & H2 & _). rewrite H1 in H2.
  injection H2 as -> ->. auto.
Qed.

(** The keys of every map of the index are distinct and not empty. *)
Lemma buildEntityIndex_keys_ok files read ty m :
  index (buildEntityIndex files read) ty = Some m →
  NoDup m.*1 ∧ EmptyString ∉ m.*1.
Proof.
  unfold buildEntityIndex. revert ty m.
  apply (foldl_preserves (index_file read)
    (λ idx, ∀ ty m, index idx ty = Some m → NoDup m.*1 ∧ EmptyString ∉ m.*1)).
  { intros ty m Hm.
    assert (m = []) as ->.
    { unfold index, empty_index in Hm. simpl in Hm.
      repeat case_decide; by simplify_eq. }
    split; [apply NoDup_nil_2|by intros ?%elem_of_nil]. }
  intros idx path _ Hidx ty m.
  destruct (index_file_cases read idx path)
    as [[-> _]|(ty0 & id & fields & Hty0 & (_ & _ & Hid) & ->)]; [apply Hidx|].
  rewrite index_index_set by done. case_decide as Hty; [subst ty|apply Hidx].
  destruct (index idx ty0) as [m0|] eqn:Hm0; [|done].
  intros [= <-]. destruct (Hidx ty0 m0 Hm0) as [Hnd Hne].
  split; [by apply map_set_NoDup|].
  rewrite map_set_keys. destruct (has m0 id); [done|].
  rewrite elem_of_app, list_elem_of_singleton. intros [?|<-]; done.
Qed.

(** The entries of a map of the index: for every id the last file, in the
    order of the list, that holds an entity of the type with that id. *)
Lemma buildEntityIndex_lookup files read ty m id e :
  ty ∈ ENTITY_TYPES →
  index (buildEntityIndex files read) ty = Some m →
  (id, e) ∈ m
  ↔ ∃ pre path fields post,
      files = pre ++ path :: post ∧ yields read path ty id fields ∧
      e = stored id fields path ∧
      ∀ p f, p ∈ post → ¬ yields read p ty id f.
Proof.
  intros Hty. unfold buildEntityIndex. revert m.
  induction files as [|path0 files IH] using rev_ind; intros m.
  { cbn [foldl]. intros Hm.
    assert (m = []) as ->.
    { unfold index, empty_index in Hm. simpl in Hm.
      repeat case_decide; by simplify_eq. }
    rewrite elem_of_nil. split; [done|].
    intros (pre & ? & ? & ? & Heq & _). by destruct pre. }
  rewrite foldl_app. cbn [foldl].
  set (idx := foldl (index_file read) empty_index files) in *.
  assert (∀ m0, index idx ty = Some m0 →
            ((id, e) ∈ m0 ∧ (∀ f, ¬ yields read path0 ty id f))
            ↔ ∃ pre path fields post,
                files ++ [path0] = pre ++ path :: post ∧
                yields read path ty id fields ∧ e = stored id fields path ∧
                (∀ p f, p ∈ post → ¬ yields read p ty id f) ∧ post ≠ [])
    as Hold.
  { intros m0 Hm0. rewrite (IH m0 Hm0). split.
    - intros [(pre & path & fields & post & -> & Hy & He & Hlast) Hno].
      exists pre, path, fields, (post ++ [path0]).
      split; [by rewrite <- app_assoc|]. split; [done|]. split; [done|].
      split; [|by destruct post].
      intros p f [?| ->%list_elem_of_singleton]%elem_of_app; [by eapply Hlast|].
      apply Hno.
    - intros (pre & path & fields & post & Heq & Hy & He & Hlast & Hne).
      destruct post as [|p0 post _] using rev_ind; [done|].
      rewrite app_comm_cons, app_assoc in Heq.
      apply app_inj_tail in Heq as [-> <-]. split.
      + exists pre, path, fields, post. split; [done|]. split; [done|].
        split; [done|]. intros p f Hp. apply Hlast.
        rewrite elem_of_app. auto.
      + intros f. apply Hlast. rewrite elem_of_app, list_elem_of_singleton.
        auto. }
  assert ((∃ fields, yields read path0 ty id fields ∧
                     e = stored id fields path0)
          ↔ ∃ pre path fields post,
              files ++ [path0] = pre ++ path :: post ∧
              yields read path ty id fields ∧ e = stored id fields path ∧
              (∀ p f, p ∈ post → ¬ yields read p ty id f) ∧ post = [])
    as Hnew.
  { split.
    - intros (fields & Hy & He). exists files, path0, fields, [].
      split; [done|]. split; [done|]. split; [done|]. split; [|done].
      by intros ? ? ?%elem_of_nil.
    - intros (pre & path & fields & post & Heq & Hy & He & _ & ->).
      apply app_inj_tail in Heq as [_ <-]. by exists fields. }
  assert (∀ P : list string → Prop,
            (∃ pre path fields post,
               files ++ [path0] = pre ++ path :: post ∧
               yields read path ty id fields ∧ e = stored id fields path ∧
               (∀ p f, p ∈ post → ¬ yields read p ty id f))
            ↔ (∃ pre path fields post,
                 files ++ [path0] = pre ++ path :: post ∧
                 yields read path ty id fields ∧ e = stored id fields path ∧
                 (∀ p f, p ∈ post → ¬ yields read p ty id f) ∧ post ≠ []) ∨
              (∃ pre path fields post,
                 files ++ [path0] = pre ++ path :: post ∧
                 yields read path ty id fields ∧ e = stored id fields path ∧
                 (∀ p f, p ∈ post → ¬ yields read p ty id f) ∧ post = []))
    as Hsplit.
  { intros _. split.
    - intros (pre & path & fields & post & H1 & H2 & H3 & H4).
      destruct (decide (post = [])) as [Hp|Hp]; [right|left];
        by exists pre, path, fields, post.
    - intros [(pre & path & fields & post & H1 & H2 & H3 & H4 & _)
             |(pre & path & fields & post & H1 & H2 & H3 & H4 & _)];
        by exists pre, path, fields, post. }
  rewrite (Hsplit (λ _, True)), <- Hnew. clear Hsplit Hnew.
  destruct (index_file_cases read idx path0)
    as [[-> Hno]|(ty0 & id0 & fields0 & Hty0 & Hy0 & ->)].
  - intros Hm. rewrite <- (Hold m Hm). split.
    + intros Hin. left. split; [done|]. intros f. by apply Hno.
    + intros [[? _]|(f & Hy & _)]; [done|]. by destruct (Hno ty id f).
  - rewrite index_index_set by done. case_decide as Hty'.
    + subst ty0. destruct (index idx ty) as [m0|] eqn:Hm0; [|done].
      intros [= <-]. rewrite <- (Hold m0 eq_refl). split.
      * intros [[= -> ->]|[Hin Hne]]%elem_of_map_set.
        -- right. by exists fields0.
        -- left. split; [done|]. intros f Hf.
           by destruct (yields_functional _ _ _ _ _ _ _ _ Hy0 Hf) as (_ & ? & _).
      * intros [[Hin Hno]|(f & Hy & ->)].
        -- apply map_set_other; [done|]. intros ->. by apply (Hno fields0).
        -- destruct (yields_functional _ _ _ _ _ _ _ _ Hy0 Hy) as (_ & -> & ->).
           apply map_set_lookup.
    + intros Hm. rewrite <- (Hold m Hm). split.
      * intros Hin. left. split; [done|]. intros f Hf.
        by destruct (yields_functional _ _ _ _ _ _ _ _ Hy0 Hf) as (? & _).
      * intros [[? _]|(f & Hy & _)]; [done|].
        by destruct (yields_functional _ _ _ _ _ _ _ _ Hy0 Hy) as (? & _).
Qed.

(** X22. In every map of the index [buildEntityIndex] returns the ids are
    distinct and no id is the empty string, whatever the files hold. *)
Theorem buildEntityIndex_ids (files : list string) (read : string → parsed) :
  let index := buildEntityIndex files read in
  Forall (λ entities : list (string * entity),
            NoDup entities.*1 ∧ EmptyString ∉ entities.*1)
         [categories index; properties index; subobjects index;
          templates index; modules index; bundles index].
Proof.
  intros idx.
  pose proof (buildEntityIndex_keys_ok files read) as Hok. fold idx in Hok.
  apply Forall_cons; split; [exact (Hok "categories" _ eq_refl)|].
  apply Forall_cons; split; [exact (Hok "properties" _ eq_refl)|].
  apply Forall_cons; split; [exact (Hok "subobjects" _ eq_refl)|].
  apply Forall_cons; split; [exact (Hok "templates" _ eq_refl)|].
  apply Forall_cons; split; [exact (Hok "modules" _ eq_refl)|].
  apply Forall_cons; split; [exact (Hok "bundles" _ eq_refl)|].
  apply Forall_nil_2.
Qed.

(** X23. An entity is in the map of its type under the id its file gives,
    with the properties of the file and the path of the file: a file counts
    when its first path segment is the type, it parses, and its [id] is
    present and not empty; files in other directories and files that do not
    parse are skipped; of several files with the same type and id the last
    one is stored. *)
Theorem buildEntityIndex_entries (files : list string)
    (read : string → parsed) (entityType : string) :
  entityType ∈ ENTITY_TYPES →
  ∃ entities,
    index (buildEntityIndex files read) entityType = Some entities ∧
    ∀ id e,
      (id, e) ∈ entities
      ↔ ∃ pre relativePath fields post,
          files = pre ++ relativePath :: post ∧
          first_segment relativePath = entityType ∧
          read relativePath = Data (Some id) fields ∧
          id ≠ EmptyString ∧
          e = {| props := <["id" := VString id]> fields;
                 _filePath := relativePath |} ∧
          ∀ p, p ∈ post →
               ¬ (first_segment p = entityType ∧
                  ∃ f, read p = Data (Some id) f).
Proof.
  intros Hty.
  destruct (proj1 (index_is_Some (buildEntityIndex files read) entityType) Hty)
    as [entities Hentities].
  exists entities. split; [done|]. intros id e.
  rewrite (buildEntityIndex_lookup files read entityType entities id e Hty
             Hentities).
  assert (∀ x : string, truthy x = true ↔ x ≠ EmptyString) as Htruthy.
  { intros x. unfold truthy. rewrite negb_true_iff, bool_decide_eq_false. done. }
  split.
  - intros (pre & path & fields & post & Heq & (Hseg & Hread & Hid) & He & Hlast).
    exists pre, path, fields, post. split; [done|]. split; [done|].
    split; [done|]. split; [by apply Htruthy|]. split; [done|].
    intros p Hp (Hseg' & f & Hread'). by apply (Hlast p f Hp).
  - intros (pre & path & fields & post & Heq & Hseg & Hread & Hid & He & Hlast).
    exists pre, path, fields, post. split; [done|].
    split; [by split; [|split; [|apply Htruthy]]|]. split; [done|].
    intros p f Hp (Hseg' & Hread' & _). apply (Hlast p Hp). eauto.
Qed.

End indexer.

(** ** Worked examples *)

Module IndexTests.
Import DepGraph DepGraphFacts DepGraphLemmas Examples.

Example lab_index_errors :
  ∃ out, validateReferences lab_index = Done out ∧
         error_type <$> errors out = ["scope-violation"].
Proof. eexists. split; [vm_compute; reflexivity|reflexivity]. Qed.

(** The end-to-end example of the specification. *)
Example lab_index_cascade :
  ∃ r, calculateVersionCascade lab_index agent_changed = Done r ∧
       moduleBumps_of r = <["Core" := "major"]> {["Lab" := "major"]} ∧
       bundleBumps_of r = {["Default" := "major"]} ∧
       ontologyBump_of r = "major" ∧
       orphanChanges_of r = [].
Proof. eexists. split; [vm_compute; reflexivity|]. by vm_compute. Qed.

Lemma calculateBundleBumps_spec_witness :
  calculateBundleBumps lab_index {["Core" := "minor"]} !! "Default"
  = Some "minor".
Proof.
  assert (NoDup (bundles lab_index).*1) as Hnd.
  { apply (bool_decide_unpack _). vm_compute. exact I. }
  destruct (calculateBundleBumps_spec lab_index {["Core" := "minor"]} Hnd)
    as [Hmember _].
  destruct (Hmember "Default"
              (ent "bundles/Default.json" [("modules", VArray ["Core"; "Lab"])]))
    as [Hin Hbump].
  { left. }
  destruct (proj2 Hin) as [bump Hb].
  { exists "Core". split; [left|]. by eexists. }
  rewrite Hb. f_equal. by destruct (Hbump bump Hb) as [-> _].
Defined.



(** C3 at a nested template.  The record for the file of template
    [Property/Page], a member of module [Core], is looked up under the key
    [templates:Page]: [Core] gets no bump and the record is reported as an
    orphan. *)
Theorem calculateModuleBumps_nested_id :
  buildReverseModuleIndex lab_index !! key "templates" "Property/Page"
    = Some "Core" ∧
  change_key page_changed = key "templates" "Page" ∧
  calculateModuleBumps lab_index [page_changed] = ∅ ∧
  ∃ r, calculateVersionCascade lab_index [page_changed] = Done r ∧
       moduleBumps_of r = ∅ ∧
       orphanChanges_of r = [page_changed].
Proof.
  split; [vm_compute; reflexivity|]. split; [vm_compute; reflexivity|].
  split; [vm_compute; reflexivity|].
  eexists. split; [vm_compute; reflexivity|]. split; reflexivity.
Qed.

End IndexTests.

Module PropertyTests.
Import DepGraph DepGraphFacts DepGraphLemmas Examples CascadeTests.

Lemma getModuleScope_scope_or_null_witness :
  ∃ scope, getModuleScope chain "Analysis" = Done (Some scope) ∧
           "Core" ∈ scope.
Proof.
  destruct (getModuleScope_scope_or_null chain "Analysis" CascadeTests.chain_wf)
    as [(scope & Hrun & Hscope & _)|[Hnull _]].
  - vm_compute. do 2 right. left.
  - exists scope. split; [exact Hrun|]. apply Hscope.
    apply (rtc_l _ _ "Lab"); [|apply rtc_once];
      (eexists; split; [vm_compute; reflexivity|by left]).
  - vm_compute in Hnull. discriminate Hnull.
Defined.

Lemma cascade_only_raises_witness :
  ∃ cascadedBumps,
    propagateDependencyCascade chain {["Lab" := "minor"]} = Done cascadedBumps ∧
    ∃ bump', cascadedBumps !! "Lab" = Some bump' ∧
             priority "minor" ≤ priority bump'.
Proof.
  destruct (cascade_only_raises chain {["Lab" := "minor"]} chain_wf)
    as (cascadedBumps & Hrun & Hkeep & _).
  exists cascadedBumps. split; [exact Hrun|]. by apply Hkeep.
Defined.

Lemma cascade_dependents_dominate_witness :
  ∃ bumpB,
    (<["Analysis" := "major"]> (<["Lab" := "major"]> {["Core" := "major"]})
       : gmap string string) !! "Analysis" = Some bumpB ∧
    priority "major" ≤ priority bumpB.
Proof.
  apply (cascade_dependents_dominate chain {["Core" := "major"]} _
           "Core" "Analysis" "major" chain_wf chain_acyclic).
  - vm_compute. reflexivity.
  - apply (tc_l _ _ "Lab"); [|apply tc_once];
      (eexists; split; [vm_compute; reflexivity|by left]).
  - reflexivity.
Defined.

Lemma cascade_idempotent_witness :
  propagateDependencyCascade fork
    (<["B" := "major"]> (<["A" := "patch"]> {["C" := "major"]}))
  = Done (<["B" := "major"]> (<["A" := "patch"]> {["C" := "major"]})).
Proof.
  apply (cascade_idempotent fork (<["A" := "patch"]> {["C" := "major"]}) _
           fork_wf).
  exact fork_result.
Defined.

Lemma lab_index_ids : EmptyString ∉ (modules lab_index).*1.
Proof. apply (bool_decide_unpack _). vm_compute. exact I. Defined.

Lemma lab_changes_bumps :
  Forall (λ change, is_bump (changeType change)) lab_changes.
Proof.
  repeat first [apply Forall_nil | apply Forall_cons; split];
    unfold is_bump; simpl; auto.
Defined.

Lemma lab_index_acyclic :
  ¬ (∃ moduleId, tc (declares_dependency lab_index) moduleId moduleId).
Proof.
  destruct (buildModuleDependencyGraph_wf lab_index) as (g & Hg & Hwf & Hiff).
  intros Hcycle%Hiff. revert Hcycle.
  vm_compute in Hg. injection Hg as <-.
  apply (overallOrder_done_acyclic _ ["Core"; "Lab"] Hwf).
  vm_compute. reflexivity.
Defined.

Lemma lab_depends_on_core : rtc (declares_dependency lab_index) "Lab" "Core".
Proof.
  apply rtc_once. eexists. split; [right; left|].
  split; [vm_compute; left|vm_compute; left].
Defined.

Lemma calculateModuleBumps_aggregates_witness :
  calculateModuleBumps lab_index lab_changes !! "Lab" = Some "major".
Proof.
  rewrite (calculateModuleBumps_aggregates lab_index lab_changes "Lab"
             lab_index_ids lab_changes_bumps).
  vm_compute. reflexivity.
Defined.

Lemma calculateModuleBumps_order_independent_witness :
  calculateModuleBumps lab_index lab_changes
  = calculateModuleBumps lab_index (rev lab_changes).
Proof.
  apply (calculateModuleBumps_order_independent lab_index lab_changes
           (rev lab_changes) lab_index_ids lab_changes_bumps).
  apply Permutation_rev.
Defined.

Lemma change_key_of_flat_file_witness :
  change_key {| file := "categories/Agent.json"; entityType := "categories";
                changeType := "major" |} = key "categories" "Agent".
Proof.
  exact (proj1 (change_key_of_flat_file lab_index "categories" "Agent"
                  "categories" "major" eq_refl eq_refl eq_refl)).
Defined.

Lemma calculateVersionCascade_accounts_for_changes_witness :
  ∃ r, calculateVersionCascade lab_index [page_changed] = Done r ∧
       page_changed ∈ orphanChanges_of r.
Proof.
  destruct (calculateVersionCascade_accounts_for_changes lab_index
              [page_changed]) as (r & Hrun & _ & Hall).
  exists r. split; [exact Hrun|].
  destruct (Hall lab_index_ids page_changed) as [[Horphan _]|[_ (M & b & HM & _)]];
    [left|exact Horphan|].
  vm_compute in HM. discriminate HM.
Defined.

Lemma ring_index_cycle :
  ∃ moduleId, tc (declares_dependency ring_index) moduleId moduleId.
Proof.
  exists "Core". apply (tc_l _ _ "Lab"); [|apply tc_once].
  - eexists. split; [left|]. split; vm_compute; [left|right; left].
  - eexists. split; [right; left|]. split; vm_compute; left.
Defined.

Lemma calculateVersionCascade_cycle_skips_cascade_witness :
  ∃ r, calculateVersionCascade ring_index agent_changed = Done r ∧
       moduleBumps_of r !! "Core" = Some "major" ∧
       moduleBumps_of r !! "Lab" = None.
Proof.
  destruct (calculateVersionCascade_cycle_skips_cascade ring_index
              agent_changed ring_index_cycle) as (r & Hrun & Hbumps).
  exists r. split; [exact Hrun|]. rewrite Hbumps.
  split; vm_compute; reflexivity.
Defined.

Lemma change_reaches_dependents_witness :
  ∃ r bump,
    calculateVersionCascade lab_index agent_changed = Done r ∧
    moduleBumps_of r !! "Lab" = Some bump ∧
    priority "major" ≤ priority bump.
Proof.
  apply (change_reaches_dependents lab_index agent_changed
           {| file := "categories/Agent.json"; entityType := "categories";
              changeType := "major" |} "Core" "Lab"
           lab_index_ids lab_index_acyclic).
  - left.
  - vm_compute. reflexivity.
  - exact lab_depends_on_core.
Defined.

Lemma change_reaches_bundles_witness :
  ∃ r bump,
    calculateVersionCascade lab_index agent_changed = Done r ∧
    bundleBumps_of r !! "Default" = Some bump ∧
    priority "major" ≤ priority bump.
Proof.
  apply (change_reaches_bundles lab_index agent_changed
           {| file := "categories/Agent.json"; entityType := "categories";
              changeType := "major" |} "Core" "Lab" "Default"
           (ent "bundles/Default.json" [("modules", VArray ["Core"; "Lab"])])
           lab_index_ids).
  - apply (bool_decide_unpack _). vm_compute. exact I.
  - exact lab_index_acyclic.
  - left.
  - vm_compute. reflexivity.
  - exact lab_depends_on_core.
  - left.
  - vm_compute. right. left.
Defined.

Lemma maxBumpType_robust_witness :
  maxBumpType ["breaking"; "minor"] = maxBumpType ["minor"] ∧
  priority "minor" ≤ priority (maxBumpType ["patch"; "minor"]).
Proof.
  destruct maxBumpType_robust as (_ & Hupper & Hignore & _). split.
  - apply Hignore. unfold is_bump. intros [H|[H|H]]; discriminate H.
  - apply Hupper. right. left.
Defined.

Lemma buildReverseModuleIndex_sound_witness :
  buildReverseModuleIndex lab_index !! key "subobjects" "Agent" = None.
Proof.
  apply (proj2 (buildReverseModuleIndex_sound lab_index));
    [do 2 right; left|].
  intros m e Hin Hlisted. unfold lab_index in Hin. cbn [modules] in Hin.
  repeat (apply elem_of_cons in Hin as [[= -> ->]|Hin];
          [vm_compute in Hlisted; inversion Hlisted|]).
  by apply elem_of_nil in Hin.
Defined.

Lemma calculateModuleBumps_only_owners_witness :
  calculateModuleBumps lab_index [page_changed] = ∅.
Proof.
  apply (proj2 (calculateModuleBumps_only_owners lab_index [page_changed])).
  intros change ->%list_elem_of_singleton. vm_compute. reflexivity.
Defined.

Lemma ontologyBump_dominates_witness :
  ∃ r, calculateVersionCascade lab_index agent_changed = Done r ∧
       priority "major" ≤ priority (ontologyBump_of r).
Proof.
  destruct (ontologyBump_dominates lab_index agent_changed)
    as (r & Hrun & Hmodules & _).
  exists r. split; [exact Hrun|]. apply (Hmodules "Lab").
  vm_compute in Hrun. injection Hrun as <-. vm_compute. reflexivity.
Defined.

Lemma validateReferences_errors_shape_witness :
  ∃ out, validateReferences lab_index = Done out ∧
         Forall (λ err, error_type err
                          ∈ ["self-reference"; "missing-reference";
                             "scope-violation"])
                (errors out).
Proof.
  destruct (validateReferences_errors_shape lab_index) as (out & Hrun & Hshape).
  exists out. split; [exact Hrun|]. apply Forall_forall.
  intros err Herr. by destruct (Hshape err Herr).
Defined.

Lemma buildReverseModuleIndex_last_wins_witness :
  buildReverseModuleIndex contested_index !! key "categories" "Agent"
  = Some "Lab".
Proof.
  apply (buildReverseModuleIndex_last_wins contested_index "categories"
           "Agent" "Lab"); [left|].
  eexists [_], _, []. split; [reflexivity|]. split; [vm_compute; left|].
  by intros ? ? ?%elem_of_nil.
Defined.

Lemma dangling_dependency_reported_witness :
  ∃ graph out,
    buildModuleDependencyGraph contested_index = Done graph ∧
    validateReferences contested_index = Done out ∧
    error_type <$> errors out = ["missing-reference"] ∧
    ¬ dep graph "Lab" "Missing".
Proof.
  destruct (dangling_dependency_reported contested_index "Lab" "Missing"
              (ent "modules/Lab.json"
                 [("categories", VArray ["Agent"]);
                  ("dependencies", VArray ["Missing"])]))
    as (graph & out & Hg & Hrun & _ & Hdep).
  - right. left.
  - vm_compute. left.
  - apply (bool_decide_unpack _). vm_compute. exact I.
  - exists graph, out. split; [exact Hg|]. split; [exact Hrun|].
    split; [|exact Hdep].
    vm_compute in Hrun. injection Hrun as <-. reflexivity.
Defined.

Lemma getModuleScope_unknown_module_witness :
  getModuleScope chain "Nowhere" = Throw (NodeDoesNotExist "Nowhere").
Proof.
  apply (getModuleScope_unknown_module chain "Nowhere").
  apply (bool_decide_unpack _). vm_compute. exact I.
Defined.

Lemma self_dependency_witness :
  ∃ graph out r,
    buildModuleDependencyGraph solo_index = Done graph ∧
    has_cycle graph ∧
    validateReferences solo_index = Done out ∧
    error_type <$> errors out = ["self-reference"] ∧
    calculateVersionCascade solo_index agent_changed = Done r.
Proof.
  destruct (self_dependency solo_index agent_changed "Solo"
              (ent "modules/Solo.json" [("dependencies", VArray ["Solo"])]))
    as (graph & out & r & Hg & Hcycle & Hrun & _ & Hr & _).
  - left.
  - vm_compute. left.
  - vm_compute. left.
  - exists graph, out, r. split; [exact Hg|]. split; [exact Hcycle|].
    split; [exact Hrun|]. split; [|exact Hr].
    vm_compute in Hrun. injection Hrun as <-. reflexivity.
Defined.

Lemma buildEntityIndex_entries_witness :
  ("Core", {| props := <["id" := VString "Core"]> ∅;
              _filePath := "modules/Copy.json" |})
    ∈ modules (Indexer.buildEntityIndex copies copies_read).
Proof.
  destruct (buildEntityIndex_entries copies copies_read "modules")
    as (entities & Hentities & Hiff).
  { do 4 right. left. }
  change (index (Indexer.buildEntityIndex copies copies_read) "modules")
    with (Some (modules (Indexer.buildEntityIndex copies copies_read))) in Hentities.
  injection Hentities as <-. apply Hiff.
  eexists [_; _], _, _, []. split; [reflexivity|]. split; [reflexivity|].
  split; [reflexivity|]. split; [discriminate|]. split; [reflexivity|].
  by intros ? ?%elem_of_nil.
Defined.

Lemma module_order_bottom_up_witness :
  ∃ graph, buildModuleDependencyGraph lab_index = Done graph ∧
           overallOrder graph false = Done ["Core"; "Lab"].
Proof.
  destruct (module_order_bottom_up lab_index) as (graph & Hg & _ & Hacyclic).
  exists graph. split; [exact Hg|].
  destruct (Hacyclic lab_index_acyclic) as (order & Horder & _).
  rewrite Horder. vm_compute in Hg. injection Hg as <-.
  vm_compute in Horder. injection Horder as <-. reflexivity.
Defined.

End PropertyTests.
